(** * spsc::Ringbuffer: a shallow embedding of include/spsc/ringbuffer.hpp

    The class template [spsc::Ringbuffer<T, BufferSize, FakeTSO, IndexT>] is
    embedded as pure functions on a record holding the two counters and the
    slot array.  Every public operation is one atomic step: the development
    covers the sequential behaviour of the operations and every interleaving
    of whole operations of the producer and the consumer.  [FakeTSO] only
    selects memory orders and has no effect at this level.

    Integers follow the C++ rules of the LP64 platforms the tests run on:
    [int] has 32 bits, [std::size_t] has 64 bits, unsigned arithmetic wraps
    and operands narrower than [int] are promoted to [int] before any
    arithmetic or comparison. *)

From Stdlib Require Import ZArith Znumtheory Lia.
From stdpp Require Import base numbers list.

Local Open Scope Z_scope.

(** ** The C++ integer types used by the template *)

(** The unsigned types [IndexT] can be instantiated with. *)
Inductive index_type : Type := uint8_t | uint16_t | uint32_t | uint64_t.

Definition bits (I : index_type) : Z :=
  match I with
  | uint8_t => 8
  | uint16_t => 16
  | uint32_t => 32
  | uint64_t => 64
  end.

Definition int_bits : Z := 32.
Definition size_t_bits : Z := 64.

(** [sizeof(IndexT)] and [sizeof(std::size_t)], in bytes. *)
Definition sizeof_index (I : index_type) : Z := bits I / 8.
Definition sizeof_size_t : Z := size_t_bits / 8.

(** [(std::numeric_limits<IndexT>::max)()] *)
Definition index_max (I : index_type) : Z := 2 ^ bits I - 1.

(** Conversion of an integer value to [IndexT] and to [std::size_t]. *)
Definition to_index (I : index_type) (x : Z) : Z := x mod 2 ^ bits I.
Definition to_size_t (x : Z) : Z := x mod 2 ^ size_t_bits.

(** Integral promotion: an [IndexT] of lower rank than [int] is promoted to
    [int] when it is an operand of [+], [-], [&], [==] or [<=]. *)
Definition promoted (I : index_type) : bool := bits I <? int_bits.

(** The value of [a op b] for two [IndexT] operands, given the mathematical
    result [x]: it is computed in [int] after promotion (no overflow, the
    operands have at most 16 bits), and in [IndexT] otherwise. *)
Definition index_arith (I : index_type) (x : Z) : Z :=
  if promoted I then x else to_index I x.

(** ** Results of the operations that contain a loop or a bulk copy *)

Inductive result (A : Type) : Type :=
  | Ok (a : A)
  | UB           (* a bulk copy leaves the bounds of an array *)
  | OutOfFuel.   (* the loop has not finished within the given fuel *)
Arguments Ok {A} a.
Arguments UB {A}.
Arguments OutOfFuel {A}.

Section Memcpy.
Context {T : Type}.

(** [std::memcpy(&dst[doff], src + soff, len * sizeof(T))] on arrays seen
    as lists: [None] when a range leaves its array. *)
Definition memcpy (dst : list T) (doff : Z) (src : list T) (soff len : Z)
  : option (list T) :=
  if bool_decide (0 <= doff /\ 0 <= soff /\ 0 <= len /\
                  soff + len <= Z.of_nat (length src) /\
                  doff + len <= Z.of_nat (length dst))
  then Some (take (Z.to_nat doff) dst
             ++ take (Z.to_nat len) (drop (Z.to_nat soff) src)
             ++ drop (Z.to_nat (doff + len)) dst)
  else None.
End Memcpy.

(** ** The class template *)

Section Ringbuffer.
Context {T : Type}.
(** The value-initialised element [T{}] the slots start with. *)
Variable T_zero : T.
Variable IndexT : index_type.
Variable BufferSize : Z.

(** The template's [static_assert]s on [BufferSize] and [IndexT]
    ([BufferSize] is a [std::size_t]; trivial copyability of [T] is what
    allows the slots to be plain values). *)
Definition static_asserts : bool :=
  negb (BufferSize =? 0)
  && (Z.land BufferSize (to_size_t (BufferSize - 1)) =? 0)
  && (sizeof_index IndexT <=? sizeof_size_t)
  && (BufferSize <=? Z.shiftr (index_max IndexT) 1).

(** A legal instantiation: the value of the [std::size_t] parameter is in
    range and the assertions pass. *)
Definition valid_config : bool :=
  (0 <=? BufferSize) && (BufferSize <? 2 ^ size_t_bits) && static_asserts.

(** [static constexpr IndexT kMask = BufferSize - 1u;] *)
Definition kMask : Z := to_index IndexT (to_size_t (BufferSize - 1)).

(** [head_], [tail_] (the padding is not modelled) and [data_buff_]. *)
Record Ringbuffer : Type := mkRingbuffer {
  head_ : Z;
  tail_ : Z;
  data_buff_ : list T
}.

(** What the types of the members guarantee: both counters are values of
    [IndexT] and the array has [BufferSize] slots. *)
Definition wf (rb : Ringbuffer) : Prop :=
  0 <= head_ rb < 2 ^ bits IndexT /\
  0 <= tail_ rb < 2 ^ bits IndexT /\
  Z.of_nat (length (data_buff_ rb)) = BufferSize.

(** Reading [data_buff_[i]]; every index the class computes is masked with
    [kMask] and so lies inside the array. *)
Definition slot (rb : Ringbuffer) (i : Z) : T :=
  default T_zero (data_buff_ rb !! Z.to_nat i).

(** [Ringbuffer() noexcept] with [data_buff_[BufferSize]{}]. *)
Definition Ringbuffer_ctor : Ringbuffer :=
  {| head_ := 0;
     tail_ := 0;
     data_buff_ := replicate (Z.to_nat BufferSize) T_zero |}.

(** *** Producer API *)

(** In [(current_head - current_tail) == BufferSize] the difference has the
    type the subtraction is computed in, [int] for a promoted [IndexT], and
    is converted to [std::size_t], the type of [BufferSize], for the
    comparison. *)
Definition PushImpl (rb : Ringbuffer) (data : T) : Ringbuffer * bool :=
  let current_head := head_ rb in
  let current_tail := tail_ rb in
  if to_size_t (index_arith IndexT (current_head - current_tail)) =? BufferSize
  then (rb, false)
  else
    ({| head_ := to_index IndexT (index_arith IndexT (current_head + 1));
        tail_ := tail_ rb;
        data_buff_ := <[Z.to_nat (Z.land current_head kMask) := data]>
                        (data_buff_ rb) |},
     true).

(** [Push(const T&)] and [Push(T&&)] *)
Definition Push (rb : Ringbuffer) (data : T) : Ringbuffer * bool :=
  PushImpl rb data.

(** A callable returning [T]: it may read and change the environment [E]
    it has captured. *)
Definition callable (E : Type) : Type := E -> T * E.

Definition PushFromCallback {E : Type} (rb : Ringbuffer)
    (callback : callable E) (env : E) : Ringbuffer * E * bool :=
  let current_head := head_ rb in
  let current_tail := tail_ rb in
  if to_size_t (index_arith IndexT (current_head - current_tail)) =? BufferSize
  then (rb, env, false)
  else
    let '(v, env') := callback env in
    ({| head_ := to_index IndexT (index_arith IndexT (current_head + 1));
        tail_ := tail_ rb;
        data_buff_ := <[Z.to_nat (Z.land current_head kMask) := v]>
                        (data_buff_ rb) |},
     env', true).

(** The loop of [PushBatchCore(buf, count)]; [rb] carries the stored
    [head_], [current_head] is the local copy. *)
Fixpoint PushBatch_loop (fuel : nat) (rb : Ringbuffer) (buf : list T)
    (count written current_head : Z) : result (Ringbuffer * Z) :=
  if written <? count then
    match fuel with
    | O => OutOfFuel
    | S fuel' =>
      let current_tail := tail_ rb in
      let space :=
        to_index IndexT
          (to_size_t (BufferSize
                      - to_size_t (index_arith IndexT
                                     (current_head - current_tail)))) in
      if space =? 0 then Ok (rb, written)
      else
        let to_write := Z.min (count - written) (to_size_t space) in
        let head_offset := to_size_t (Z.land current_head kMask) in
        let first_part :=
          Z.min to_write (to_size_t (BufferSize - head_offset)) in
        match memcpy (data_buff_ rb) head_offset buf written first_part with
        | None => UB
        | Some d1 =>
          let second :=
            if first_part <? to_write
            then memcpy d1 0 buf (written + first_part)
                        (to_size_t (to_write - first_part))
            else Some d1 in
          match second with
          | None => UB
          | Some d2 =>
            let written' := to_size_t (written + to_write) in
            let current_head' :=
              to_index IndexT
                (index_arith IndexT
                   (current_head + to_index IndexT to_write)) in
            PushBatch_loop fuel'
              {| head_ := current_head'; tail_ := tail_ rb;
                 data_buff_ := d2 |}
              buf count written' current_head'
          end
        end
    end
  else Ok (rb, written).

(** Every iteration that does not leave the loop adds at least one to
    [written], so [count] iterations are enough. *)
Definition PushBatchCore (rb : Ringbuffer) (buf : list T) (count : Z)
  : result (Ringbuffer * Z) :=
  PushBatch_loop (Z.to_nat count) rb buf count 0 (head_ rb).

Definition PushBatch (rb : Ringbuffer) (buf : list T) (count : Z)
  : result (Ringbuffer * Z) :=
  PushBatchCore rb buf count.

Definition ProducerClear (rb : Ringbuffer) : Ringbuffer :=
  {| head_ := tail_ rb; tail_ := tail_ rb; data_buff_ := data_buff_ rb |}.

(** *** Consumer API *)

(** [Pop(T& data)]: [data] is the value the caller's variable holds before
    the call, the second component the value it holds afterwards. *)
Definition Pop (rb : Ringbuffer) (data : T) : Ringbuffer * T * bool :=
  let current_tail := tail_ rb in
  let current_head := head_ rb in
  if current_tail =? current_head
  then (rb, data, false)
  else
    ({| head_ := head_ rb;
        tail_ := to_index IndexT (index_arith IndexT (current_tail + 1));
        data_buff_ := data_buff_ rb |},
     slot rb (Z.land current_tail kMask),
     true).

(** The loop of [PopBatchCore(buf, count)]; [buf] is the caller's array. *)
Fixpoint PopBatch_loop (fuel : nat) (rb : Ringbuffer) (buf : list T)
    (count read current_tail : Z) : result (Ringbuffer * list T * Z) :=
  if read <? count then
    match fuel with
    | O => OutOfFuel
    | S fuel' =>
      let current_head := head_ rb in
      let available :=
        to_index IndexT (index_arith IndexT (current_head - current_tail)) in
      if available =? 0 then Ok (rb, buf, read)
      else
        let to_read := Z.min (count - read) (to_size_t available) in
        let tail_offset := to_size_t (Z.land current_tail kMask) in
        let first_part :=
          Z.min to_read (to_size_t (BufferSize - tail_offset)) in
        match memcpy buf read (data_buff_ rb) tail_offset first_part with
        | None => UB
        | Some b1 =>
          let second :=
            if first_part <? to_read
            then memcpy b1 (read + first_part) (data_buff_ rb) 0
                        (to_size_t (to_read - first_part))
            else Some b1 in
          match second with
          | None => UB
          | Some b2 =>
            let read' := to_size_t (read + to_read) in
            let current_tail' :=
              to_index IndexT
                (index_arith IndexT
                   (current_tail + to_index IndexT to_read)) in
            PopBatch_loop fuel'
              {| head_ := head_ rb; tail_ := current_tail';
                 data_buff_ := data_buff_ rb |}
              b2 count read' current_tail'
          end
        end
    end
  else Ok (rb, buf, read).

Definition PopBatchCore (rb : Ringbuffer) (buf : list T) (count : Z)
  : result (Ringbuffer * list T * Z) :=
  PopBatch_loop (Z.to_nat count) rb buf count 0 (tail_ rb).

Definition PopBatch (rb : Ringbuffer) (buf : list T) (count : Z)
  : result (Ringbuffer * list T * Z) :=
  PopBatchCore rb buf count.

Definition Discard (rb : Ringbuffer) (count : Z) : Ringbuffer * Z :=
  let current_tail := tail_ rb in
  let current_head := head_ rb in
  let available :=
    to_index IndexT (index_arith IndexT (current_head - current_tail)) in
  let to_discard := Z.min count (to_size_t available) in
  if 0 <? to_discard
  then ({| head_ := head_ rb;
           tail_ := to_index IndexT
                      (index_arith IndexT
                         (current_tail + to_index IndexT to_discard));
           data_buff_ := data_buff_ rb |},
        to_discard)
  else (rb, to_discard).

(** [Peek()] and [At(index)] return a pointer into [data_buff_] or
    [nullptr]: [Some i] stands for [&data_buff_[i]], [None] for [nullptr]. *)
Definition Peek (rb : Ringbuffer) : option Z :=
  let current_tail := tail_ rb in
  let current_head := head_ rb in
  if current_tail =? current_head then None
  else Some (Z.land current_tail kMask).

(** [At] compares the difference, in the type the subtraction is computed
    in, with [static_cast<IndexT>(index)]; the slot index is computed in
    [std::size_t]. *)
Definition At (rb : Ringbuffer) (index : Z) : option Z :=
  let current_tail := tail_ rb in
  let current_head := head_ rb in
  if index_arith IndexT (current_head - current_tail)
     <=? to_index IndexT index
  then None
  else Some (Z.land (to_size_t (current_tail + index)) kMask).

Definition ConsumerClear (rb : Ringbuffer) : Ringbuffer :=
  {| head_ := head_ rb; tail_ := head_ rb; data_buff_ := data_buff_ rb |}.

(** *** Query API *)

Definition Size (rb : Ringbuffer) : Z :=
  to_index IndexT (index_arith IndexT (head_ rb - tail_ rb)).

Definition Available (rb : Ringbuffer) : Z :=
  to_index IndexT
    (to_size_t (BufferSize
                - to_size_t (index_arith IndexT (head_ rb - tail_ rb)))).

Definition IsEmpty (rb : Ringbuffer) : bool := Size rb =? 0.
Definition IsFull (rb : Ringbuffer) : bool := Available rb =? 0.
Definition Capacity : Z := BufferSize.

End Ringbuffer.

(** ** utility::Ringbuffer, the original implementation kept in the repository

    It has the same members; of its operations only the two clear operations
    differ from their successors in [spsc::Ringbuffer]. *)

Section Utility.
Context {T : Type}.

Definition utility_ConsumerClear (rb : Ringbuffer (T:=T)) : Ringbuffer :=
  {| head_ := head_ rb; tail_ := head_ rb; data_buff_ := data_buff_ rb |}.

(** [void ProducerClear() noexcept { ConsumerClear(); }] *)
Definition utility_ProducerClear (rb : Ringbuffer (T:=T)) : Ringbuffer :=
  utility_ConsumerClear rb.
End Utility.

(** ** Sequences of operations *)

Section Executions.
Context {T : Type}.
Variable T_zero : T.
Variable IndexT : index_type.
Variable BufferSize : Z.

(** One call of the public interface by the producer or by the consumer.
    The callable of [PushFromCallback] captures nothing; [PopBatch] is given
    a fresh array of [count] elements. *)
Inductive op : Type :=
  | OpPush (v : T)
  | OpPushFromCallback (callback : callable (T:=T) unit)
  | OpPushBatch (buf : list T) (count : Z)
  | OpProducerClear
  | OpPop
  | OpPopBatch (count : Z)
  | OpDiscard (count : Z)
  | OpConsumerClear.

(** The arguments are values of their C++ types: a count is a
    [std::size_t] and the source array holds at least [count] elements. *)
Definition op_ok (o : op) : Prop :=
  match o with
  | OpPushBatch buf count =>
      0 <= count < 2 ^ size_t_bits /\ count <= Z.of_nat (length buf)
  | OpPopBatch count | OpDiscard count => 0 <= count < 2 ^ size_t_bits
  | _ => True
  end.

(** The operations that move elements through the buffer. *)
Definition is_transfer (o : op) : bool :=
  match o with
  | OpPush _ | OpPushFromCallback _ | OpPushBatch _ _ | OpPop | OpPopBatch _ =>
      true
  | _ => false
  end.

(** The outcome of an operation: the new state, the values the buffer has
    accepted from the producer and the values it has handed to the
    consumer. *)
Definition outcome : Type := Ringbuffer (T:=T) * list T * list T.

Definition exec (o : op) (rb : Ringbuffer) : result outcome :=
  match o with
  | OpPush v =>
      let '(rb', ok) := Push IndexT BufferSize rb v in
      Ok (rb', if ok then [v] else [], [])
  | OpPushFromCallback callback =>
      let '(rb', _, ok) := PushFromCallback IndexT BufferSize rb callback tt in
      Ok (rb', if ok then [fst (callback tt)] else [], [])
  | OpPushBatch buf count =>
      match PushBatch IndexT BufferSize rb buf count with
      | Ok (rb', k) => Ok (rb', take (Z.to_nat k) buf, [])
      | UB => UB
      | OutOfFuel => OutOfFuel
      end
  | OpProducerClear => Ok (ProducerClear rb, [], [])
  | OpPop =>
      let '(rb', x, ok) := Pop T_zero IndexT BufferSize rb T_zero in
      Ok (rb', [], if ok then [x] else [])
  | OpPopBatch count =>
      match PopBatch IndexT BufferSize rb
              (replicate (Z.to_nat count) T_zero) count with
      | Ok (rb', buf', k) => Ok (rb', [], take (Z.to_nat k) buf')
      | UB => UB
      | OutOfFuel => OutOfFuel
      end
  | OpDiscard count => Ok (fst (Discard IndexT rb count), [], [])
  | OpConsumerClear => Ok (ConsumerClear rb, [], [])
  end.

(** A sequence of operations, in the order in which they take effect. *)
Fixpoint run (ops : list op) (rb : Ringbuffer) : result outcome :=
  match ops with
  | [] => Ok (rb, [], [])
  | o :: ops' =>
      match exec o rb with
      | Ok (rb1, pushed1, popped1) =>
          match run ops' rb1 with
          | Ok (rb2, pushed2, popped2) =>
              Ok (rb2, pushed1 ++ pushed2, popped1 ++ popped2)
          | UB => UB
          | OutOfFuel => OutOfFuel
          end
      | UB => UB
      | OutOfFuel => OutOfFuel
      end
  end.

(** The states the buffer can be in. *)
Definition reachable (rb : Ringbuffer) : Prop :=
  exists ops pushed popped,
    Forall op_ok ops /\
    run ops (Ringbuffer_ctor T_zero BufferSize) = Ok (rb, pushed, popped).

(** Push/pop cycles: each value is pushed and popped at once; the result
    lists, per cycle, what [Push] returned, what [Pop] returned and the
    value [Pop] left in its argument. *)
Fixpoint cycles (rb : Ringbuffer) (vs : list T)
  : Ringbuffer * list (bool * bool * T) :=
  match vs with
  | [] => (rb, [])
  | v :: vs' =>
      let '(rb1, ok1) := Push IndexT BufferSize rb v in
      let '(rb2, x, ok2) := Pop T_zero IndexT BufferSize rb1 T_zero in
      let '(rb3, res) := cycles rb2 vs' in
      (rb3, (ok1, ok2, x) :: res)
  end.

(** A callable instrumented with the number of times it has been invoked. *)
Definition counted {E : Type} (callback : callable (T:=T) E)
  : callable (E * nat) :=
  fun '(env, n) => let '(v, env') := callback env in (v, (env', S n)).

(** The ghost view of a state: [hist] lists the values the buffer has
    accepted and not dropped again, [consumed] counts those that have left
    on the consumer side.  The counters are these two totals reduced to
    [IndexT], and the element accepted as number [j] sits in slot
    [j mod BufferSize] until it is consumed. *)
Definition Repr (rb : Ringbuffer) (hist : list T) (consumed : Z) : Prop :=
  wf IndexT BufferSize rb /\
  0 <= consumed <= Z.of_nat (length hist) /\
  Z.of_nat (length hist) <= consumed + BufferSize /\
  head_ rb = Z.of_nat (length hist) mod 2 ^ bits IndexT /\
  tail_ rb = consumed mod 2 ^ bits IndexT /\
  forall j, consumed <= j < Z.of_nat (length hist) ->
    data_buff_ rb !! Z.to_nat (j mod BufferSize) = hist !! Z.to_nat j.


(** The elements a state holds, oldest first. *)
Definition contents (hist : list T) (consumed : Z) : list T :=
  drop (Z.to_nat consumed) hist.

End Executions.

(** ** The rest of the interface of spsc::Ringbuffer *)

Section Remaining.
Context {T : Type}.
Variable T_zero : T.
Variable IndexT : index_type.
Variable BufferSize : Z.

(** [const T& operator[](std::size_t index) const noexcept]: the slot index
    is computed as in [At], without the bounds check. *)
Definition subscript (rb : Ringbuffer) (index : Z) : T :=
  slot T_zero rb
    (Z.land (to_size_t (tail_ rb + index)) (kMask IndexT BufferSize)).

(** A callable with signature [void()], as the batch calls take it for
    notification: it may use the buffer it has captured and change its
    environment [E]. *)
Definition notifier (E : Type) : Type :=
  Ringbuffer (T:=T) * E -> Ringbuffer (T:=T) * E.

(** The loop of [PushBatchCore(buf, count, callback)]: the loop of
    [PushBatchCore(buf, count)] with the call of the callback after the
    store to [head_]. *)
Fixpoint PushBatch_notify_loop {E : Type} (fuel : nat) (rb : Ringbuffer)
    (buf : list T) (count written current_head : Z)
    (callback : notifier E) (env : E) : result (Ringbuffer * Z * E) :=
  if written <? count then
    match fuel with
    | O => OutOfFuel
    | S fuel' =>
      let current_tail := tail_ rb in
      let space :=
        to_index IndexT
          (to_size_t (BufferSize
                      - to_size_t (index_arith IndexT
                                     (current_head - current_tail)))) in
      if space =? 0 then Ok (rb, written, env)
      else
        let to_write := Z.min (count - written) (to_size_t space) in
        let head_offset :=
          to_size_t (Z.land current_head (kMask IndexT BufferSize)) in
        let first_part :=
          Z.min to_write (to_size_t (BufferSize - head_offset)) in
        match memcpy (data_buff_ rb) head_offset buf written first_part with
        | None => UB
        | Some d1 =>
          let second :=
            if first_part <? to_write
            then memcpy d1 0 buf (written + first_part)
                        (to_size_t (to_write - first_part))
            else Some d1 in
          match second with
          | None => UB
          | Some d2 =>
            let written' := to_size_t (written + to_write) in
            let current_head' :=
              to_index IndexT
                (index_arith IndexT
                   (current_head + to_index IndexT to_write)) in
            let '(rb', env') :=
              callback ({| head_ := current_head'; tail_ := tail_ rb;
                           data_buff_ := d2 |}, env) in
            PushBatch_notify_loop fuel' rb' buf count written' current_head'
              callback env'
          end
        end
    end
  else Ok (rb, written, env).

Definition PushBatchCore_notify {E : Type} (rb : Ringbuffer) (buf : list T)
    (count : Z) (callback : notifier E) (env : E)
  : result (Ringbuffer * Z * E) :=
  PushBatch_notify_loop (Z.to_nat count) rb buf count 0 (head_ rb)
    callback env.

(** [PushBatch(buf, count, callback)] *)
Definition PushBatch_notify {E : Type} (rb : Ringbuffer) (buf : list T)
    (count : Z) (callback : notifier E) (env : E)
  : result (Ringbuffer * Z * E) :=
  PushBatchCore_notify rb buf count callback env.

(** The loop of [PopBatchCore(buf, count, callback)]. *)
Fixpoint PopBatch_notify_loop {E : Type} (fuel : nat) (rb : Ringbuffer)
    (buf : list T) (count read current_tail : Z)
    (callback : notifier E) (env : E)
  : result (Ringbuffer * list T * Z * E) :=
  if read <? count then
    match fuel with
    | O => OutOfFuel
    | S fuel' =>
      let current_head := head_ rb in
      let available :=
        to_index IndexT (index_arith IndexT (current_head - current_tail)) in
      if available =? 0 then Ok (rb, buf, read, env)
      else
        let to_read := Z.min (count - read) (to_size_t available) in
        let tail_offset :=
          to_size_t (Z.land current_tail (kMask IndexT BufferSize)) in
        let first_part :=
          Z.min to_read (to_size_t (BufferSize - tail_offset)) in
        match memcpy buf read (data_buff_ rb) tail_offset first_part with
        | None => UB
        | Some b1 =>
          let second :=
            if first_part <? to_read
            then memcpy b1 (read + first_part) (data_buff_ rb) 0
                        (to_size_t (to_read - first_part))
            else Some b1 in
          match second with
          | None => UB
          | Some b2 =>
            let read' := to_size_t (read + to_read) in
            let current_tail' :=
              to_index IndexT
                (index_arith IndexT
                   (current_tail + to_index IndexT to_read)) in
            let '(rb', env') :=
              callback ({| head_ := head_ rb; tail_ := current_tail';
                           data_buff_ := data_buff_ rb |}, env) in
            PopBatch_notify_loop fuel' rb' b2 count read' current_tail'
              callback env'
          end
        end
    end
  else Ok (rb, buf, read, env).

Definition PopBatchCore_notify {E : Type} (rb : Ringbuffer) (buf : list T)
    (count : Z) (callback : notifier E) (env : E)
  : result (Ringbuffer * list T * Z * E) :=
  PopBatch_notify_loop (Z.to_nat count) rb buf count 0 (tail_ rb)
    callback env.

(** [PopBatch(buf, count, callback)] *)
Definition PopBatch_notify {E : Type} (rb : Ringbuffer) (buf : list T)
    (count : Z) (callback : notifier E) (env : E)
  : result (Ringbuffer * list T * Z * E) :=
  PopBatchCore_notify rb buf count callback env.

(** A notifier instrumented with the number of times it has been invoked. *)
Definition counting {E : Type} (callback : notifier E) : notifier (E * nat) :=
  fun '(rb, (env, n)) =>
    let '(rb', env') := callback (rb, env) in (rb', (env', S n)).

(** A consumer that calls [Pop] up to [n] times and stops at the first
    failure, as in [while (rb.Pop(val)) ...]: the state it leaves and the
    values it has received. *)
Fixpoint pops (n : nat) (rb : Ringbuffer) : Ringbuffer * list T :=
  match n with
  | O => (rb, [])
  | S n' =>
      let '(rb1, x, ok) := Pop T_zero IndexT BufferSize rb T_zero in
      if ok
      then let '(rb2, xs) := pops n' rb1 in (rb2, x :: xs)
      else (rb, [])
  end.

(** The elements of the buffer as the consumer sees them: what [Size()]
    calls of [Pop] return. *)
Definition elements (rb : Ringbuffer) : list T :=
  snd (pops (Z.to_nat (Size IndexT rb)) rb).

(** A callback that lets the consumer run: it pops until [Pop] fails, as
    in [while (rb.Pop(val)) ...], and appends what it has received to the
    list it has captured. *)
Definition drain : notifier (list T) :=
  fun '(rb, got) =>
    let '(rb', xs) := pops (Z.to_nat (Size IndexT rb)) rb in (rb', got ++ xs).

(** What one pass through the body of a batch loop does: it leaves the
    loop, copies outside an array, or goes on with a new state and new
    values of the local variables. *)
Inductive iteration (A : Type) : Type :=
  | Stop
  | Fail
  | Continue (a : A).
#[global] Arguments Stop {A}.
#[global] Arguments Fail {A}.
#[global] Arguments Continue {A} a.

(** The body of the loops of [PushBatchCore], up to the store to [head_]:
    the new state, [written] and [current_head]. *)
Definition PushBatch_iteration (rb : Ringbuffer) (buf : list T)
    (count written current_head : Z) : iteration (Ringbuffer * Z * Z) :=
  let current_tail := tail_ rb in
  let space :=
    to_index IndexT
      (to_size_t (BufferSize
                  - to_size_t (index_arith IndexT
                                 (current_head - current_tail)))) in
  if space =? 0 then Stop
  else
    let to_write := Z.min (count - written) (to_size_t space) in
    let head_offset :=
      to_size_t (Z.land current_head (kMask IndexT BufferSize)) in
    let first_part :=
      Z.min to_write (to_size_t (BufferSize - head_offset)) in
    match memcpy (data_buff_ rb) head_offset buf written first_part with
    | None => Fail
    | Some d1 =>
      let second :=
        if first_part <? to_write
        then memcpy d1 0 buf (written + first_part)
                    (to_size_t (to_write - first_part))
        else Some d1 in
      match second with
      | None => Fail
      | Some d2 =>
        let written' := to_size_t (written + to_write) in
        let current_head' :=
          to_index IndexT
            (index_arith IndexT (current_head + to_index IndexT to_write)) in
        Continue ({| head_ := current_head'; tail_ := tail_ rb;
                     data_buff_ := d2 |}, written', current_head')
      end
    end.

(** The body of the loops of [PopBatchCore], up to the store to [tail_]:
    the new state, the caller's array, [read] and [current_tail]. *)
Definition PopBatch_iteration (rb : Ringbuffer) (buf : list T)
    (count read current_tail : Z)
  : iteration (Ringbuffer * list T * Z * Z) :=
  let current_head := head_ rb in
  let available :=
    to_index IndexT (index_arith IndexT (current_head - current_tail)) in
  if available =? 0 then Stop
  else
    let to_read := Z.min (count - read) (to_size_t available) in
    let tail_offset :=
      to_size_t (Z.land current_tail (kMask IndexT BufferSize)) in
    let first_part :=
      Z.min to_read (to_size_t (BufferSize - tail_offset)) in
    match memcpy buf read (data_buff_ rb) tail_offset first_part with
    | None => Fail
    | Some b1 =>
      let second :=
        if first_part <? to_read
        then memcpy b1 (read + first_part) (data_buff_ rb) 0
                    (to_size_t (to_read - first_part))
        else Some b1 in
      match second with
      | None => Fail
      | Some b2 =>
        let read' := to_size_t (read + to_read) in
        let current_tail' :=
          to_index IndexT
            (index_arith IndexT (current_tail + to_index IndexT to_read)) in
        Continue ({| head_ := head_ rb; tail_ := current_tail';
                     data_buff_ := data_buff_ rb |}, b2, read', current_tail')
      end
    end.

End Remaining.

(** ** The rest of utility::Ringbuffer

    The explicit [std::atomic_thread_fence] calls of the original have no
    effect on a sequence of whole operations and are left out. *)

Section UtilityRest.
Context {T : Type}.
Variable T_zero : T.
Variable IndexT : index_type.
Variable BufferSize : Z.

(** [static constexpr IndexT buffer_mask_ = BufferSize - 1u;] *)
Definition buffer_mask_ : Z := to_index IndexT (to_size_t (BufferSize - 1)).

Definition utility_ReadAvailable (rb : Ringbuffer (T:=T)) : Z :=
  let current_head := head_ rb in
  let current_tail := tail_ rb in
  to_index IndexT (index_arith IndexT (current_head - current_tail)).

Definition utility_WriteAvailable (rb : Ringbuffer (T:=T)) : Z :=
  let current_head := head_ rb in
  let current_tail := tail_ rb in
  to_index IndexT
    (to_size_t (BufferSize
                - to_size_t (index_arith IndexT (current_head - current_tail)))).

Definition utility_IsEmpty (rb : Ringbuffer (T:=T)) : bool :=
  utility_ReadAvailable rb =? 0.

Definition utility_IsFull (rb : Ringbuffer (T:=T)) : bool :=
  utility_WriteAvailable rb =? 0.

Definition utility_InsertImpl (rb : Ringbuffer) (data : T)
  : Ringbuffer * bool :=
  let current_head := head_ rb in
  let current_tail := tail_ rb in
  if to_size_t (index_arith IndexT (current_head - current_tail)) =? BufferSize
  then (rb, false)
  else
    ({| head_ := to_index IndexT (index_arith IndexT (current_head + 1));
        tail_ := tail_ rb;
        data_buff_ := <[Z.to_nat (Z.land current_head buffer_mask_) := data]>
                        (data_buff_ rb) |},
     true).

(** [Insert(const T& data)] and [Insert(const T* data)] *)
Definition utility_Insert (rb : Ringbuffer) (data : T) : Ringbuffer * bool :=
  utility_InsertImpl rb data.

Definition utility_InsertFromCallbackWhenAvailable {E : Type}
    (rb : Ringbuffer) (get_data_callback : callable (T:=T) E) (env : E)
  : Ringbuffer * E * bool :=
  let current_head := head_ rb in
  let current_tail := tail_ rb in
  if to_size_t (index_arith IndexT (current_head - current_tail)) =? BufferSize
  then (rb, env, false)
  else
    let '(v, env') := get_data_callback env in
    ({| head_ := to_index IndexT (index_arith IndexT (current_head + 1));
        tail_ := tail_ rb;
        data_buff_ := <[Z.to_nat (Z.land current_head buffer_mask_) := v]>
                        (data_buff_ rb) |},
     env', true).

(** [bool Remove()] *)
Definition utility_Remove_one (rb : Ringbuffer (T:=T)) : Ringbuffer * bool :=
  let current_tail := tail_ rb in
  let current_head := head_ rb in
  if current_tail =? current_head
  then (rb, false)
  else
    ({| head_ := head_ rb;
        tail_ := to_index IndexT (index_arith IndexT (current_tail + 1));
        data_buff_ := data_buff_ rb |},
     true).

(** [std::size_t Remove(std::size_t cnt)] *)
Definition utility_Remove_count (rb : Ringbuffer (T:=T)) (cnt : Z)
  : Ringbuffer * Z :=
  let current_tail := tail_ rb in
  let current_head := head_ rb in
  let available :=
    to_index IndexT (index_arith IndexT (current_head - current_tail)) in
  let to_remove := Z.min cnt (to_size_t available) in
  if 0 <? to_remove
  then ({| head_ := head_ rb;
           tail_ := to_index IndexT
                      (index_arith IndexT
                         (current_tail + to_index IndexT to_remove));
           data_buff_ := data_buff_ rb |},
        to_remove)
  else (rb, to_remove).

(** [bool Remove(T* data)] and [bool Remove(T& data)] *)
Definition utility_Remove (rb : Ringbuffer) (data : T)
  : Ringbuffer * T * bool :=
  let current_tail := tail_ rb in
  let current_head := head_ rb in
  if current_tail =? current_head
  then (rb, data, false)
  else
    ({| head_ := head_ rb;
        tail_ := to_index IndexT (index_arith IndexT (current_tail + 1));
        data_buff_ := data_buff_ rb |},
     slot T_zero rb (Z.land current_tail buffer_mask_),
     true).

(** [Peek()], [At(index)] and [operator[]], with pointers as in [Peek]
    and [At] of [spsc::Ringbuffer]. *)
Definition utility_Peek (rb : Ringbuffer (T:=T)) : option Z :=
  let current_tail := tail_ rb in
  let current_head := head_ rb in
  if current_tail =? current_head then None
  else Some (Z.land current_tail buffer_mask_).

Definition utility_At (rb : Ringbuffer (T:=T)) (index : Z) : option Z :=
  let current_tail := tail_ rb in
  let current_head := head_ rb in
  if index_arith IndexT (current_head - current_tail)
     <=? to_index IndexT index
  then None
  else Some (Z.land (to_size_t (current_tail + index)) buffer_mask_).

Definition utility_subscript (rb : Ringbuffer) (index : Z) : T :=
  slot T_zero rb (Z.land (to_size_t (tail_ rb + index)) buffer_mask_).

(** The loop of [WriteBuffImpl]; [None] stands for a null
    [execute_data_callback]. *)
Fixpoint utility_WriteBuffImpl_loop {E : Type} (fuel : nat) (rb : Ringbuffer)
    (buff : list T) (count : Z) (execute_data_callback : option (notifier E))
    (count_to_callback written current_head : Z) (env : E)
  : result (Ringbuffer * Z * E) :=
  if written <? count then
    match fuel with
    | O => OutOfFuel
    | S fuel' =>
      let current_tail := tail_ rb in
      let available :=
        to_index IndexT
          (to_size_t (BufferSize
                      - to_size_t (index_arith IndexT
                                     (current_head - current_tail)))) in
      if available =? 0 then Ok (rb, written, env)
      else
        let to_write := Z.min (count - written) (to_size_t available) in
        let first_part :=
          Z.min to_write
            (to_size_t (BufferSize
                        - to_size_t (Z.land current_head buffer_mask_))) in
        match memcpy (data_buff_ rb) (Z.land current_head buffer_mask_)
                buff written first_part with
        | None => UB
        | Some d1 =>
          let second :=
            if first_part <? to_write
            then memcpy d1 0 buff (written + first_part)
                        (to_size_t (to_write - first_part))
            else Some d1 in
          match second with
          | None => UB
          | Some d2 =>
            let written' := to_size_t (written + to_write) in
            let current_head' :=
              to_index IndexT
                (index_arith IndexT
                   (current_head + to_index IndexT to_write)) in
            let rb1 := {| head_ := current_head'; tail_ := tail_ rb;
                          data_buff_ := d2 |} in
            match execute_data_callback with
            | Some callback =>
              let '(rb', env') := callback (rb1, env) in
              if negb (count_to_callback =? 0)
                 && (count_to_callback <=? written')
              then Ok (rb', written', env')
              else utility_WriteBuffImpl_loop fuel' rb' buff count
                     execute_data_callback count_to_callback written'
                     current_head' env'
            | None =>
              utility_WriteBuffImpl_loop fuel' rb1 buff count
                execute_data_callback count_to_callback written'
                current_head' env
            end
          end
        end
    end
  else Ok (rb, written, env).

Definition utility_WriteBuffImpl {E : Type} (rb : Ringbuffer) (buff : list T)
    (count : Z) (execute_data_callback : option (notifier E))
    (count_to_callback : Z) (env : E) : result (Ringbuffer * Z * E) :=
  utility_WriteBuffImpl_loop (Z.to_nat count) rb buff count
    execute_data_callback count_to_callback 0 (head_ rb) env.

(** [WriteBuff(buff, count)] *)
Definition utility_WriteBuff (rb : Ringbuffer) (buff : list T) (count : Z)
  : result (Ringbuffer * Z * unit) :=
  utility_WriteBuffImpl rb buff count None 0 tt.

(** [WriteBuff(buff, count, count_to_callback, execute_data_callback)] *)
Definition utility_WriteBuff_callback {E : Type} (rb : Ringbuffer)
    (buff : list T) (count count_to_callback : Z)
    (execute_data_callback : option (notifier E)) (env : E)
  : result (Ringbuffer * Z * E) :=
  utility_WriteBuffImpl rb buff count execute_data_callback
    count_to_callback env.

(** The loop of [ReadBuffImpl]. *)
Fixpoint utility_ReadBuffImpl_loop {E : Type} (fuel : nat) (rb : Ringbuffer)
    (buff : list T) (count : Z) (execute_data_callback : option (notifier E))
    (count_to_callback read current_tail : Z) (env : E)
  : result (Ringbuffer * list T * Z * E) :=
  if read <? count then
    match fuel with
    | O => OutOfFuel
    | S fuel' =>
      let current_head := head_ rb in
      let available :=
        to_index IndexT (index_arith IndexT (current_head - current_tail)) in
      if available =? 0 then Ok (rb, buff, read, env)
      else
        let to_read := Z.min (count - read) (to_size_t available) in
        let first_part :=
          Z.min to_read
            (to_size_t (BufferSize
                        - to_size_t (Z.land current_tail buffer_mask_))) in
        match memcpy buff read (data_buff_ rb)
                (Z.land current_tail buffer_mask_) first_part with
        | None => UB
        | Some b1 =>
          let second :=
            if first_part <? to_read
            then memcpy b1 (read + first_part) (data_buff_ rb) 0
                        (to_size_t (to_read - first_part))
            else Some b1 in
          match second with
          | None => UB
          | Some b2 =>
            let read' := to_size_t (read + to_read) in
            let current_tail' :=
              to_index IndexT
                (index_arith IndexT
                   (current_tail + to_index IndexT to_read)) in
            let rb1 := {| head_ := head_ rb; tail_ := current_tail';
                          data_buff_ := data_buff_ rb |} in
            match execute_data_callback with
            | Some callback =>
              let '(rb', env') := callback (rb1, env) in
              if negb (count_to_callback =? 0)
                 && (count_to_callback <=? read')
              then Ok (rb', b2, read', env')
              else utility_ReadBuffImpl_loop fuel' rb' b2 count
                     execute_data_callback count_to_callback read'
                     current_tail' env'
            | None =>
              utility_ReadBuffImpl_loop fuel' rb1 b2 count
                execute_data_callback count_to_callback read'
                current_tail' env
            end
          end
        end
    end
  else Ok (rb, buff, read, env).

Definition utility_ReadBuffImpl {E : Type} (rb : Ringbuffer) (buff : list T)
    (count : Z) (execute_data_callback : option (notifier E))
    (count_to_callback : Z) (env : E)
  : result (Ringbuffer * list T * Z * E) :=
  utility_ReadBuffImpl_loop (Z.to_nat count) rb buff count
    execute_data_callback count_to_callback 0 (tail_ rb) env.

(** [ReadBuff(buff, count)] *)
Definition utility_ReadBuff (rb : Ringbuffer) (buff : list T) (count : Z)
  : result (Ringbuffer * list T * Z * unit) :=
  utility_ReadBuffImpl rb buff count None 0 tt.

(** [ReadBuff(buff, count, count_to_callback, execute_data_callback)] *)
Definition utility_ReadBuff_callback {E : Type} (rb : Ringbuffer)
    (buff : list T) (count count_to_callback : Z)
    (execute_data_callback : option (notifier E)) (env : E)
  : result (Ringbuffer * list T * Z * E) :=
  utility_ReadBuffImpl rb buff count execute_data_callback
    count_to_callback env.

End UtilityRest.

(** ** Instances used by the tests

    [Ringbuffer<int, 4, false, uint8_t>] as in the boundary tests, and the
    default index type. *)

Definition rb_u8 : Ringbuffer (T:=Z) := Ringbuffer_ctor 0 4.

(** [n] rounds of [Push(round); Pop(v)], as in "Index wraparound stress". *)
Definition stress (n : Z) : list (op (T:=Z)) :=
  flat_map (fun round => [OpPush round; OpPop]) (seqZ 0 n).

Definition state_of (r : result (outcome (T:=Z))) : Ringbuffer (T:=Z) :=
  match r with
  | Ok (rb, _, _) => rb
  | _ => rb_u8
  end.

(** 254 rounds, then four more pushes: the buffer is full and [head_] has
    wrapped around the range of [uint8_t] while [tail_] has not. *)
Definition full_wrapped_u8 : Ringbuffer (T:=Z) :=
  state_of (run 0 uint8_t 4
              (stress 254 ++ [OpPush 1001; OpPush 1002; OpPush 1003; OpPush 1004])
              rb_u8).

(** One more push, which the code accepts although the buffer is full. *)
Definition overfull_u8 : Ringbuffer (T:=Z) :=
  state_of (run 0 uint8_t 4
              (stress 254 ++ [OpPush 1001; OpPush 1002; OpPush 1003; OpPush 1004;
                              OpPush 1005])
              rb_u8).

(** The wrap-around test of the batch suite: capacity 16, twelve elements
    pushed and popped, then a batch of ten that straddles the end of the
    slot array. *)
Definition rb_after_12 : Ringbuffer (T:=Z) :=
  state_of (run 0 uint64_t 16
              [OpPushBatch (seqZ 0 12) 12; OpPopBatch 12]
              (Ringbuffer_ctor 0 16)).

(** After three pushes and one pop [head_] is 3 and [tail_] is 1. *)
Definition rb_3_1 : Ringbuffer (T:=Z) :=
  state_of (run 0 uint64_t 8 [OpPush 1; OpPush 2; OpPush 3; OpPop]
              (Ringbuffer_ctor 0 8)).

(** An 8-bit index after 255 push/pop cycles: both counters are 255 and
    the next push wraps [head_] to 0. *)
Definition rb_255 : Ringbuffer (T:=Z) :=
  state_of (run 0 uint8_t 4 (stress 255) rb_u8).

(** The callback of the batch tests, [[&call_count]() { ++call_count; }]:
    it does not touch the buffer. *)
Definition count_calls : notifier (T:=Z) nat :=
  fun '(rb, call_count) => (rb, S call_count).

(** ** Arithmetic of the index types *)

Lemma pow2_of_land (n : Z) :
  0 < n -> Z.land n (n - 1) = 0 -> n = 2 ^ Z.log2 n.
Proof.
  intros Hn Hl.
  destruct (Z.log2_spec n Hn) as [Hlo Hhi].
  destruct (Z.eq_dec n (2 ^ Z.log2 n)) as [|Hne]; [done|].
  assert (Hk : Z.log2 (n - 1) = Z.log2 n).
  { apply Z.log2_unique; [apply Z.log2_nonneg | lia]. }
  assert (Hb1 : Z.testbit n (Z.log2 n) = true) by (apply Z.bit_log2; lia).
  assert (Hb2 : Z.testbit (n - 1) (Z.log2 n) = true).
  { rewrite <- Hk. apply Z.bit_log2.
    pose proof (Z.pow_pos_nonneg 2 (Z.log2 n) ltac:(lia) (Z.log2_nonneg n)).
    lia. }
  assert (Hb : Z.testbit (Z.land n (n - 1)) (Z.log2 n) = true).
  { rewrite Z.land_spec, Hb1, Hb2. done. }
  rewrite Hl, Z.bits_0 in Hb. done.
Qed.

Lemma bits_range (I : index_type) : 8 <= bits I <= 64.
Proof. destruct I; simpl; lia. Qed.

Lemma modulus_pos (I : index_type) : 0 < 2 ^ bits I.
Proof. destruct I; simpl; lia. Qed.

Lemma modulus_le_size_t (I : index_type) : 2 ^ bits I <= 2 ^ size_t_bits.
Proof. destruct I; simpl; unfold size_t_bits; lia. Qed.

Lemma modulus_divides_size_t (I : index_type) :
  (2 ^ bits I | 2 ^ size_t_bits).
Proof.
  exists (2 ^ (size_t_bits - bits I)).
  rewrite <- Z.pow_add_r; [f_equal; lia | |];
    pose proof (bits_range I); unfold size_t_bits; lia.
Qed.

Lemma to_index_range (I : index_type) (x : Z) : 0 <= to_index I x < 2 ^ bits I.
Proof. apply Z.mod_pos_bound, modulus_pos. Qed.

Lemma to_size_t_small (x : Z) : 0 <= x < 2 ^ size_t_bits -> to_size_t x = x.
Proof. apply Z.mod_small. Qed.

Lemma to_index_small (I : index_type) (x : Z) :
  0 <= x < 2 ^ bits I -> to_index I x = x.
Proof. apply Z.mod_small. Qed.

Lemma to_index_to_size_t (I : index_type) (x : Z) :
  to_index I (to_size_t x) = to_index I x.
Proof. apply Z.mod_mod_divide, modulus_divides_size_t. Qed.

(** Whatever type an expression on [IndexT] operands is computed in, storing
    the result in an [IndexT] gives the result modulo [2 ^ bits]. *)
Lemma to_index_arith (I : index_type) (x : Z) :
  to_index I (index_arith I x) = to_index I x.
Proof.
  unfold index_arith. destruct (promoted I); [done|].
  unfold to_index. apply Z.mod_mod. pose proof (modulus_pos I). lia.
Qed.

Lemma promoted_bits (I : index_type) :
  promoted I = true -> 2 ^ bits I <= 2 ^ 16.
Proof. destruct I; simpl; try lia; discriminate. Qed.

Section Config.
Variable IndexT : index_type.
Variable BufferSize : Z.
Hypothesis Hcfg : valid_config IndexT BufferSize = true.

Lemma cfg_pos : 0 < BufferSize.
Proof using Hcfg.
  unfold valid_config, static_asserts in Hcfg.
  repeat (apply andb_prop in Hcfg as [Hcfg ?]).
  destruct (Z.eqb_spec BufferSize 0); [done | lia].
Qed.

Lemma cfg_lt_size_t : BufferSize < 2 ^ size_t_bits.
Proof using Hcfg.
  unfold valid_config in Hcfg.
  repeat (apply andb_prop in Hcfg as [Hcfg ?]). lia.
Qed.

Lemma cfg_pow2 : BufferSize = 2 ^ Z.log2 BufferSize.
Proof using Hcfg.
  pose proof cfg_pos as Hpos. pose proof cfg_lt_size_t as Hlt.
  unfold valid_config, static_asserts in Hcfg.
  repeat (apply andb_prop in Hcfg as [Hcfg ?]).
  apply pow2_of_land; [done|].
  rewrite to_size_t_small in * by lia. lia.
Qed.

Lemma cfg_half : 2 * BufferSize < 2 ^ bits IndexT.
Proof using Hcfg.
  unfold valid_config, static_asserts in Hcfg.
  repeat (apply andb_prop in Hcfg as [Hcfg ?]).
  assert (Hle : BufferSize <= Z.shiftr (index_max IndexT) 1) by lia.
  revert Hle. unfold index_max. rewrite Z.shiftr_div_pow2 by lia.
  destruct IndexT; cbn [bits]; intros Hle;
    Z.to_euclidean_division_equations; lia.
Qed.

Lemma cfg_divides : (BufferSize | 2 ^ bits IndexT).
Proof using Hcfg.
  pose proof cfg_half as Hh. pose proof cfg_pos as Hp.
  pose proof (bits_range IndexT) as Hb.
  rewrite cfg_pow2 in Hh |- *.
  assert (Hk : Z.log2 BufferSize < bits IndexT).
  { apply (Z.pow_lt_mono_r_iff 2); lia. }
  exists (2 ^ (bits IndexT - Z.log2 BufferSize)).
  rewrite <- Z.pow_add_r; [f_equal; lia | |];
    pose proof (Z.log2_nonneg BufferSize); lia.
Qed.

Lemma kMask_eq : kMask IndexT BufferSize = BufferSize - 1.
Proof using Hcfg.
  pose proof cfg_half. pose proof cfg_pos. pose proof cfg_lt_size_t.
  unfold kMask. rewrite to_size_t_small, to_index_small; lia.
Qed.

(** Masking with [kMask] is reduction modulo [BufferSize]. *)
Lemma land_kMask (x : Z) : Z.land x (kMask IndexT BufferSize) = x mod BufferSize.
Proof using Hcfg.
  rewrite kMask_eq. rewrite cfg_pow2 at 1 2.
  replace (2 ^ Z.log2 BufferSize - 1) with (Z.ones (Z.log2 BufferSize))
    by (rewrite Z.ones_equiv; lia).
  apply Z.land_ones, Z.log2_nonneg.
Qed.

Lemma mod_index_mod_size (x : Z) :
  (x mod 2 ^ bits IndexT) mod BufferSize = x mod BufferSize.
Proof using Hcfg. apply Z.mod_mod_divide, cfg_divides. Qed.

(** [head - tail] converted to [IndexT], as [Size()] and the batch loops
    compute it. *)
Lemma count_index (h t : Z) :
  to_index IndexT (index_arith IndexT (h - t)) = (h - t) mod 2 ^ bits IndexT.
Proof. apply to_index_arith. Qed.

(** [BufferSize - (head - tail)] converted to [IndexT], as [Available()]
    and [PushBatchCore] compute it. *)
Lemma space_index (h t : Z) :
  to_index IndexT
    (to_size_t (BufferSize - to_size_t (index_arith IndexT (h - t))))
  = (BufferSize - (h - t)) mod 2 ^ bits IndexT.
Proof.
  rewrite to_index_to_size_t. unfold to_index at 1.
  rewrite Zminus_mod. fold (to_index IndexT (to_size_t (index_arith IndexT (h - t)))).
  rewrite to_index_to_size_t, to_index_arith. unfold to_index.
  rewrite <- Zminus_mod. done.
Qed.

(** The comparison [(head - tail) == BufferSize] of [PushImpl] and
    [PushFromCallback]: in an index type of the rank of [int] or above the
    subtraction wraps and the test recognises the full buffer. *)
Lemma full_test_unpromoted (h t : Z) :
  promoted IndexT = false ->
  (to_size_t (index_arith IndexT (h - t)) =? BufferSize)
  = ((h - t) mod 2 ^ bits IndexT =? BufferSize).
Proof.
  intros Hp. unfold index_arith. rewrite Hp. unfold to_index.
  rewrite to_size_t_small; [done|].
  pose proof (Z.mod_pos_bound (h - t) _ (modulus_pos IndexT)).
  pose proof (modulus_le_size_t IndexT). lia.
Qed.

(** After promotion to [int] the difference is not reduced: the test
    compares the plain difference of the two counters with [BufferSize]. *)
Lemma full_test_promoted (h t : Z) :
  promoted IndexT = true ->
  0 <= h < 2 ^ bits IndexT -> 0 <= t < 2 ^ bits IndexT ->
  (to_size_t (index_arith IndexT (h - t)) =? BufferSize)
  = (h - t =? BufferSize).
Proof using Hcfg.
  intros Hp Hh Ht. unfold index_arith. rewrite Hp.
  pose proof (promoted_bits _ Hp) as Hb.
  pose proof cfg_half as Hhalf. pose proof cfg_pos as Hpos.
  unfold to_size_t, size_t_bits.
  destruct (Z.eqb_spec (h - t) BufferSize) as [->|Hne].
  - rewrite Z.mod_small by lia. apply Z.eqb_refl.
  - apply Z.eqb_neq. intros Heq.
    destruct (Z.le_gt_cases 0 (h - t)).
    + rewrite Z.mod_small in Heq by lia. done.
    + assert ((h - t) mod 2 ^ 64 = h - t + 2 ^ 64); [|lia].
      symmetry. apply (Z.mod_unique _ _ (-1)); lia.
Qed.
End Config.

(** ** Bulk copies *)

Section MemcpyFacts.
Context {T : Type}.
Implicit Types dst src : list T.

(** A copy that stays inside both arrays succeeds; it keeps the length of
    the destination, fills the target range from the source and leaves
    every other element alone. *)
Lemma memcpy_spec dst doff src soff len :
  0 <= doff -> 0 <= soff -> 0 <= len ->
  soff + len <= Z.of_nat (length src) ->
  doff + len <= Z.of_nat (length dst) ->
  exists d,
    memcpy dst doff src soff len = Some d /\
    length d = length dst /\
    (forall i, doff <= i < doff + len ->
       d !! Z.to_nat i = src !! Z.to_nat (soff + (i - doff))) /\
    (forall i, 0 <= i -> ~ (doff <= i < doff + len) ->
       d !! Z.to_nat i = dst !! Z.to_nat i).
Proof.
  intros Hd Hs Hl Hsrc Hdst. unfold memcpy.
  rewrite bool_decide_eq_true_2 by done.
  eexists; split; [done|].
  assert (Hlt : length (take (Z.to_nat doff) dst) = Z.to_nat doff)
    by (rewrite length_take; lia).
  assert (Hlm : length (take (Z.to_nat len) (drop (Z.to_nat soff) src))
                = Z.to_nat len)
    by (rewrite length_take, length_drop; lia).
  split; [|split].
  - rewrite !length_app, Hlt, Hlm, length_drop. lia.
  - intros i Hi.
    rewrite lookup_app_r by lia. rewrite Hlt.
    rewrite lookup_app_l by lia.
    rewrite lookup_take_lt by lia. rewrite lookup_drop. f_equal. lia.
  - intros i Hi0 Hi.
    destruct (Z.lt_ge_cases i doff).
    + rewrite lookup_app_l by lia. apply lookup_take_lt. lia.
    + rewrite lookup_app_r by lia. rewrite Hlt.
      rewrite lookup_app_r by lia. rewrite Hlm.
      rewrite lookup_drop. f_equal. lia.
Qed.

Lemma memcpy_zero dst doff src soff :
  0 <= doff -> 0 <= soff ->
  soff <= Z.of_nat (length src) -> doff <= Z.of_nat (length dst) ->
  memcpy dst doff src soff 0 = Some dst.
Proof.
  intros. unfold memcpy. rewrite bool_decide_eq_true_2 by lia.
  rewrite Z.add_0_r. simpl. by rewrite take_drop.
Qed.
End MemcpyFacts.

(** ** Modular arithmetic of ring positions *)

Lemma mod_neq_close (n a b : Z) :
  0 < n -> 0 < b - a < n -> a mod n <> b mod n.
Proof.
  intros Hn Hab Heq.
  assert (H0 : (b - a) mod n = 0).
  { rewrite Zminus_mod, Heq, Z.sub_diag. apply Z.mod_0_l. lia. }
  rewrite Z.mod_small in H0; lia.
Qed.

Lemma mod_add_wrap (n h d : Z) :
  0 < n -> 0 <= d < n ->
  (h + d) mod n
  = if h mod n + d <? n then h mod n + d else h mod n + d - n.
Proof.
  intros Hn Hd. pose proof (Z.mod_pos_bound h n Hn) as Hb.
  rewrite Zplus_mod, (Z.mod_small d n) by done.
  destruct (Z.ltb_spec (h mod n + d) n).
  - apply Z.mod_small. lia.
  - symmetry. apply (Z.mod_unique _ _ 1); lia.
Qed.

Lemma mod_sub_small (w a b : Z) :
  0 < w -> 0 <= a - b < w -> (a mod w - b mod w) mod w = a - b.
Proof. intros Hw Hab. rewrite <- Zminus_mod. by apply Z.mod_small. Qed.

(** ** The operations on represented states *)

Section Specs.
Context {T : Type}.
Variable T_zero : T.
Variable IndexT : index_type.
Variable BufferSize : Z.
Hypothesis Hcfg : valid_config IndexT BufferSize = true.

Local Abbreviation W := (2 ^ bits IndexT).
Local Abbreviation Rp := (Repr (T:=T) IndexT BufferSize).
Implicit Types (rb : Ringbuffer (T:=T)) (hist : list T).

Lemma Repr_count rb hist P :
  Rp rb hist P ->
  (head_ rb - tail_ rb) mod W = Z.of_nat (length hist) - P.
Proof using Hcfg.
  intros (_ & Hb & Hn & -> & -> & _).
  pose proof (cfg_half _ _ Hcfg). pose proof (cfg_pos _ _ Hcfg).
  apply mod_sub_small; lia.
Qed.

Lemma Repr_Size rb hist P :
  Rp rb hist P -> Size IndexT rb = Z.of_nat (length hist) - P.
Proof using Hcfg.
  intros HR. unfold Size. rewrite count_index. by apply Repr_count.
Qed.

Lemma Repr_space rb hist P :
  Rp rb hist P ->
  (BufferSize - (head_ rb - tail_ rb)) mod W
  = BufferSize - (Z.of_nat (length hist) - P).
Proof using Hcfg.
  intros HR. pose proof (Repr_count _ _ _ HR) as Hc.
  destruct HR as (_ & Hb & Hn & _).
  pose proof (cfg_half _ _ Hcfg). pose proof (cfg_pos _ _ Hcfg).
  rewrite Zminus_mod, Hc, (Z.mod_small BufferSize) by lia.
  apply Z.mod_small. lia.
Qed.

Lemma Repr_Available rb hist P :
  Rp rb hist P ->
  Available IndexT BufferSize rb = BufferSize - (Z.of_nat (length hist) - P).
Proof using Hcfg.
  intros HR. unfold Available. rewrite space_index. by apply Repr_space.
Qed.

Lemma Repr_ctor : Rp (Ringbuffer_ctor T_zero BufferSize) [] 0.
Proof using Hcfg.
  pose proof (cfg_pos _ _ Hcfg). pose proof (modulus_pos IndexT).
  unfold Repr, wf; simpl. rewrite length_replicate.
  repeat split; try lia; symmetry; by apply Z.mod_0_l.
Qed.

(** The slot of the element accepted as number [j]. *)
Lemma slot_index (j : Z) :
  Z.land (j mod W) (kMask IndexT BufferSize) = j mod BufferSize.
Proof using Hcfg. by rewrite land_kMask, mod_index_mod_size. Qed.

Lemma slot_in_range (j : Z) rb :
  wf IndexT BufferSize rb ->
  (Z.to_nat (j mod BufferSize) < length (data_buff_ rb))%nat.
Proof using Hcfg.
  intros (_ & _ & Hlen).
  pose proof (Z.mod_pos_bound j _ (cfg_pos _ _ Hcfg)). lia.
Qed.

(** The fullness test of [PushImpl] and [PushFromCallback]. *)
Lemma full_test_not_full rb hist P :
  Rp rb hist P -> Z.of_nat (length hist) - P < BufferSize ->
  (to_size_t (index_arith IndexT (head_ rb - tail_ rb)) =? BufferSize) = false.
Proof using Hcfg.
  intros HR Hlt. pose proof (Repr_count _ _ _ HR) as Hc.
  destruct HR as ((Hh & Ht & _) & Hb & Hn & _).
  pose proof (cfg_half _ _ Hcfg). pose proof (cfg_pos _ _ Hcfg).
  destruct (promoted IndexT) eqn:Hp.
  - rewrite (full_test_promoted _ _ Hcfg) by done.
    apply Z.eqb_neq. intros Heq. rewrite Heq, Z.mod_small in Hc; lia.
  - rewrite full_test_unpromoted by done. apply Z.eqb_neq. lia.
Qed.

Lemma full_test_full rb hist P :
  Rp rb hist P -> Z.of_nat (length hist) - P = BufferSize ->
  promoted IndexT = false \/ tail_ rb <= head_ rb ->
  (to_size_t (index_arith IndexT (head_ rb - tail_ rb)) =? BufferSize) = true.
Proof using Hcfg.
  intros HR Hlt Hor. pose proof (Repr_count _ _ _ HR) as Hc.
  destruct HR as ((Hh & Ht & _) & Hb & Hn & _).
  pose proof (cfg_half _ _ Hcfg). pose proof (cfg_pos _ _ Hcfg).
  destruct (promoted IndexT) eqn:Hp.
  - destruct Hor as [|Hle]; [done|].
    rewrite (full_test_promoted _ _ Hcfg) by done.
    apply Z.eqb_eq. rewrite Z.mod_small in Hc; lia.
  - rewrite full_test_unpromoted by done. apply Z.eqb_eq. lia.
Qed.

Lemma advance_index (h k : Z) :
  to_index IndexT (index_arith IndexT (h mod W + k)) = (h + k) mod W.
Proof. rewrite to_index_arith. unfold to_index. apply Zplus_mod_idemp_l. Qed.

(** Writing element number [length hist] into its slot. *)
Lemma Repr_push rb hist P v :
  Rp rb hist P -> Z.of_nat (length hist) - P < BufferSize ->
  Rp {| head_ := to_index IndexT (index_arith IndexT (head_ rb + 1));
          tail_ := tail_ rb;
          data_buff_ :=
            <[Z.to_nat (Z.land (head_ rb) (kMask IndexT BufferSize)) := v]>
              (data_buff_ rb) |}
       (hist ++ [v]) P.
Proof using Hcfg.
  intros HR Hlt. pose proof HR as (Hwf & Hb & Hn & Hh & Ht & Hd).
  pose proof (cfg_pos _ _ Hcfg) as Hpos.
  assert (Hlen : Z.of_nat (length (hist ++ [v])) = Z.of_nat (length hist) + 1)
    by (rewrite length_app; simpl; lia).
  split; [|split; [|split; [|split; [|split]]]]; simpl.
  - destruct Hwf as (? & ? & ?). unfold wf; simpl.
    split; [apply to_index_range|].
    split; [done|]. by rewrite length_insert.
  - lia.
  - lia.
  - rewrite Hh, advance_index. by rewrite Hlen.
  - done.
  - intros j Hj. rewrite Hh, slot_index.
    destruct (Z.eq_dec j (Z.of_nat (length hist))) as [->|Hne].
    + rewrite list_lookup_insert_eq by by apply slot_in_range.
      rewrite Nat2Z.id. symmetry. by apply list_lookup_middle.
    + assert (Hm : Z.of_nat (length hist) mod BufferSize <> j mod BufferSize).
      { apply not_eq_sym, mod_neq_close; lia. }
      pose proof (Z.mod_pos_bound j _ Hpos).
      pose proof (Z.mod_pos_bound (Z.of_nat (length hist)) _ Hpos).
      rewrite list_lookup_insert_ne by lia.
      rewrite Hd by lia. rewrite lookup_app_l by lia. done.
Qed.

Lemma PushImpl_spec rb hist P v :
  Rp rb hist P -> Z.of_nat (length hist) - P < BufferSize ->
  exists rb', PushImpl IndexT BufferSize rb v = (rb', true) /\
              Rp rb' (hist ++ [v]) P.
Proof using Hcfg.
  intros HR Hlt. unfold PushImpl.
  rewrite (full_test_not_full _ _ _ HR Hlt).
  eexists; split; [done|]. by apply Repr_push.
Qed.

Lemma PushImpl_full rb hist P v :
  Rp rb hist P -> Z.of_nat (length hist) - P = BufferSize ->
  promoted IndexT = false \/ tail_ rb <= head_ rb ->
  PushImpl IndexT BufferSize rb v = (rb, false).
Proof using Hcfg.
  intros HR Hf Hor. unfold PushImpl.
  by rewrite (full_test_full _ _ _ HR Hf Hor).
Qed.

Lemma PushFromCallback_spec {E : Type} rb hist P (f : callable E) env :
  Rp rb hist P -> Z.of_nat (length hist) - P < BufferSize ->
  exists rb', PushFromCallback IndexT BufferSize rb f env
              = (rb', snd (f env), true) /\
              Rp rb' (hist ++ [fst (f env)]) P.
Proof using Hcfg.
  intros HR Hlt. unfold PushFromCallback.
  rewrite (full_test_not_full _ _ _ HR Hlt).
  destruct (f env) as [v env'] eqn:Hf. simpl.
  eexists; split; [done|]. by apply Repr_push.
Qed.

Lemma PushFromCallback_full {E : Type} rb hist P (f : callable E) env :
  Rp rb hist P -> Z.of_nat (length hist) - P = BufferSize ->
  promoted IndexT = false \/ tail_ rb <= head_ rb ->
  PushFromCallback IndexT BufferSize rb f env = (rb, env, false).
Proof using Hcfg.
  intros HR Hf Hor. unfold PushFromCallback.
  by rewrite (full_test_full _ _ _ HR Hf Hor).
Qed.

Lemma Repr_empty_test rb hist P :
  Rp rb hist P ->
  (tail_ rb =? head_ rb) = (P =? Z.of_nat (length hist)).
Proof using Hcfg.
  intros (Hwf & Hb & Hn & Hh & Ht & Hd).
  pose proof (cfg_half _ _ Hcfg). pose proof (cfg_pos _ _ Hcfg).
  destruct (Z.eqb_spec P (Z.of_nat (length hist))) as [->|Hne].
  - rewrite Hh, Ht. apply Z.eqb_refl.
  - apply Z.eqb_neq. rewrite Hh, Ht. apply mod_neq_close; lia.
Qed.

Lemma Repr_front rb hist P :
  Rp rb hist P -> P < Z.of_nat (length hist) ->
  exists x, hist !! Z.to_nat P = Some x /\
            slot T_zero rb (Z.land (tail_ rb) (kMask IndexT BufferSize)) = x.
Proof using Hcfg.
  intros (Hwf & Hb & Hn & Hh & Ht & Hd) Hlt.
  destruct (lookup_lt_is_Some_2 hist (Z.to_nat P)) as [x Hx]; [lia|].
  exists x. split; [done|].
  unfold slot. rewrite Ht, slot_index, Hd, Hx by lia. done.
Qed.

Lemma Repr_consume rb hist P k :
  Rp rb hist P -> 0 <= k -> P + k <= Z.of_nat (length hist) ->
  Rp {| head_ := head_ rb;
          tail_ := to_index IndexT (index_arith IndexT (tail_ rb + k));
          data_buff_ := data_buff_ rb |}
       hist (P + k).
Proof using Hcfg.
  intros (Hwf & Hb & Hn & Hh & Ht & Hd) Hk Hle.
  split; [|split; [|split; [|split; [|split]]]]; simpl.
  - destruct Hwf as (? & ? & ?). unfold wf; simpl. split; [done|].
    split; [apply to_index_range | done].
  - lia.
  - lia.
  - done.
  - by rewrite Ht, advance_index.
  - intros j Hj. apply Hd. lia.
Qed.

Lemma Pop_spec rb hist P d :
  Rp rb hist P -> P < Z.of_nat (length hist) ->
  exists rb' x, Pop T_zero IndexT BufferSize rb d = (rb', x, true) /\
                hist !! Z.to_nat P = Some x /\
                Rp rb' hist (P + 1).
Proof using Hcfg.
  intros HR Hlt. unfold Pop.
  rewrite (Repr_empty_test _ _ _ HR).
  destruct (Z.eqb_spec P (Z.of_nat (length hist))); [lia|].
  destruct (Repr_front _ _ _ HR Hlt) as (x & Hx & Hs).
  eexists _, x. rewrite Hs. split; [done|]. split; [done|].
  apply Repr_consume; [done | lia | lia].
Qed.

Lemma Pop_empty rb hist P d :
  Rp rb hist P -> P = Z.of_nat (length hist) ->
  Pop T_zero IndexT BufferSize rb d = (rb, d, false).
Proof using Hcfg.
  intros HR Heq. unfold Pop.
  rewrite (Repr_empty_test _ _ _ HR), Heq, Z.eqb_refl. done.
Qed.

End Specs.

(** ** Batch transfers on represented states *)

Section BatchSpecs.
Context {T : Type}.
Variable T_zero : T.
Variable IndexT : index_type.
Variable BufferSize : Z.
Hypothesis Hcfg : valid_config IndexT BufferSize = true.

Local Abbreviation W := (2 ^ bits IndexT).
Local Abbreviation Rp := (Repr (T:=T) IndexT BufferSize).
Implicit Types (rb : Ringbuffer (T:=T)) (hist buf : list T).

(** The two runs written by one iteration of [PushBatchCore]: [w] elements
    of [buf], from position [written] on, land in the slots of the elements
    number [length hist], [length hist + 1], ... *)
Lemma ring_write_spec rb hist P buf written w :
  Rp rb hist P ->
  0 <= written -> 0 <= w -> written + w <= Z.of_nat (length buf) ->
  w <= BufferSize - (Z.of_nat (length hist) - P) ->
  let off := Z.of_nat (length hist) mod BufferSize in
  let first := Z.min w (BufferSize - off) in
  exists d1 d2,
    memcpy (data_buff_ rb) off buf written first = Some d1 /\
    (if first <? w then memcpy d1 0 buf (written + first) (w - first)
     else Some d1) = Some d2 /\
    length d2 = length (data_buff_ rb) /\
    forall j, P <= j < Z.of_nat (length hist) + w ->
      d2 !! Z.to_nat (j mod BufferSize)
      = (hist ++ take (Z.to_nat w) (drop (Z.to_nat written) buf)) !! Z.to_nat j.
Proof using Hcfg.
  intros (Hwf & Hb & Hn & Hh & Ht & Hd) Hwr Hw Hbuf Hspace off first.
  pose proof (cfg_pos _ _ Hcfg) as Hpos.
  destruct Hwf as (_ & _ & Hlen).
  pose proof (Z.mod_pos_bound (Z.of_nat (length hist)) _ Hpos) as Hoff.
  fold off in Hoff.
  assert (Hfirst : 0 <= first <= w /\ first <= BufferSize - off)
    by (unfold first; lia).
  destruct (memcpy_spec (data_buff_ rb) off buf written first)
    as (d1 & Hm1 & Hl1 & Hin1 & Hout1); try lia.
  assert (Hsecond : exists d2,
    (if first <? w then memcpy d1 0 buf (written + first) (w - first)
     else Some d1) = Some d2 /\
    length d2 = length d1 /\
    (forall i, 0 <= i < w - first ->
       d2 !! Z.to_nat i = buf !! Z.to_nat (written + first + i)) /\
    (forall i, w - first <= i -> d2 !! Z.to_nat i = d1 !! Z.to_nat i)).
  { destruct (Z.ltb_spec first w).
    - destruct (memcpy_spec d1 0 buf (written + first) (w - first))
        as (d2 & Hm2 & Hl2 & Hin2 & Hout2); try lia.
      exists d2. split; [done|]. split; [done|]. split.
      + intros i Hi. rewrite Hin2 by lia. f_equal. lia.
      + intros i Hi. apply Hout2; lia.
    - exists d1. split; [done|]. split; [done|]. split; [|done].
      intros i Hi. lia. }
  destruct Hsecond as (d2 & Hm2 & Hl2 & Hin2 & Hout2).
  exists d1, d2. split; [done|]. split; [done|]. split; [congruence|].
  intros j Hj.
  pose proof (Z.mod_pos_bound j _ Hpos) as Hs.
  destruct (Z.lt_ge_cases j (Z.of_nat (length hist))) as [Hold|Hnew].
  - (* an element that was already in the buffer: its slot is not touched *)
    rewrite lookup_app_l by lia. rewrite <- Hd by lia.
    assert (Hfree : forall d, 0 <= d < w ->
              (Z.of_nat (length hist) + d) mod BufferSize <> j mod BufferSize).
    { intros d Hd'. apply not_eq_sym, mod_neq_close; lia. }
    assert (Hne1 : ~ (off <= j mod BufferSize < off + first)).
    { intros Hr. apply (Hfree (j mod BufferSize - off)); [lia|].
      rewrite mod_add_wrap by lia. fold off.
      destruct (Z.ltb_spec (off + (j mod BufferSize - off)) BufferSize); lia. }
    assert (Hne2 : w - first <= j mod BufferSize).
    { destruct (Z.le_gt_cases (w - first) (j mod BufferSize)) as [|Hr]; [done|].
      exfalso. apply (Hfree (first + j mod BufferSize)); [lia|].
      rewrite mod_add_wrap by lia. fold off.
      destruct (Z.ltb_spec (off + (first + j mod BufferSize)) BufferSize); lia. }
    rewrite Hout2 by lia. apply Hout1; lia.
  - (* a new element *)
    rewrite lookup_app_r by lia.
    rewrite lookup_take_lt by lia. rewrite lookup_drop.
    replace j with (Z.of_nat (length hist) + (j - Z.of_nat (length hist)))
      at 1 by lia.
    rewrite mod_add_wrap by lia. fold off.
    destruct (Z.ltb_spec (off + (j - Z.of_nat (length hist))) BufferSize).
    + rewrite Hout2 by lia. rewrite Hin1 by lia. f_equal. lia.
    + rewrite Hin2 by lia. f_equal. lia.
Qed.

Lemma Repr_written rb hist P d (xs : list T) :
  Rp rb hist P ->
  Z.of_nat (length hist) + Z.of_nat (length xs) <= P + BufferSize ->
  length d = length (data_buff_ rb) ->
  (forall j, P <= j < Z.of_nat (length hist) + Z.of_nat (length xs) ->
     d !! Z.to_nat (j mod BufferSize) = (hist ++ xs) !! Z.to_nat j) ->
  Rp {| head_ := (Z.of_nat (length hist) + Z.of_nat (length xs)) mod W;
        tail_ := tail_ rb;
        data_buff_ := d |}
     (hist ++ xs) P.
Proof using Hcfg.
  intros (Hwf & Hb & Hn & Hh & Ht & Hd) Hfit Hlen Hdata.
  destruct Hwf as (? & ? & ?).
  unfold Repr, wf; simpl. rewrite length_app, Nat2Z.inj_add.
  repeat split; try lia; try done.
  - apply Z.mod_pos_bound, modulus_pos.
  - apply Z.mod_pos_bound, modulus_pos.
Qed.

Lemma PushBatch_loop_spec fuel : forall rb hist P buf count written,
  Rp rb hist P ->
  0 <= written <= count -> count <= Z.of_nat (length buf) ->
  count < 2 ^ size_t_bits ->
  (Z.to_nat (count - written) <= fuel)%nat ->
  let k := Z.min (count - written)
                 (BufferSize - (Z.of_nat (length hist) - P)) in
  exists rb',
    PushBatch_loop IndexT BufferSize fuel rb buf count written (head_ rb)
    = Ok (rb', written + k) /\
    Rp rb' (hist ++ take (Z.to_nat k) (drop (Z.to_nat written) buf)) P.
Proof using Hcfg.
  induction fuel as [|fuel IH]; intros rb hist P buf count written
    HR Hwr Hcount Hsz Hfuel k; cbn [PushBatch_loop];
    pose proof HR as (Hwf & Hb & Hn & Hh & Ht & Hd).
  - destruct (Z.ltb_spec written count); [lia|].
    exists rb. replace k with 0 by (unfold k; lia).
    rewrite Z.add_0_r, app_nil_r. done.
  - pose proof (cfg_pos _ _ Hcfg) as Hpos.
    pose proof (cfg_half _ _ Hcfg) as Hhalf.
    pose proof (modulus_le_size_t IndexT) as Hle.
    destruct (Z.ltb_spec written count) as [Hlt|Hge]; cycle 1.
    { exists rb. replace k with 0 by (unfold k; lia).
      rewrite Z.add_0_r, app_nil_r. done. }
    rewrite space_index, (Repr_space _ _ Hcfg _ _ _ HR).
    set (c := BufferSize - (Z.of_nat (length hist) - P)) in *.
    destruct (Z.eqb_spec c 0) as [Hc0|Hc0].
    { exists rb. replace k with 0 by (unfold k; lia).
      rewrite Z.add_0_r, app_nil_r. done. }
    rewrite (to_size_t_small c) by lia.
    set (w := Z.min (count - written) c).
    assert (Hmask : Z.land (head_ rb) (kMask IndexT BufferSize)
                    = Z.of_nat (length hist) mod BufferSize)
      by (rewrite Hh; apply (slot_index _ _ Hcfg)).
    rewrite !Hmask.
    pose proof (Z.mod_pos_bound (Z.of_nat (length hist)) _ Hpos) as Hoff.
    rewrite !(to_size_t_small (_ mod BufferSize)) by lia.
    rewrite !(to_size_t_small (BufferSize - _)) by lia.
    destruct (ring_write_spec rb hist P buf written w HR)
      as (d1 & d2 & Hm1 & Hm2 & Hl2 & Hdata); try lia.
    cbv zeta in Hm1, Hm2. rewrite Hm1.
    set (first := Z.min w (BufferSize - Z.of_nat (length hist) mod BufferSize))
      in *.
    assert (Hm2' : (if first <? w
                    then memcpy d1 0 buf (written + first)
                                (to_size_t (w - first))
                    else Some d1) = Some d2).
    { destruct (Z.ltb_spec first w); [|done].
      rewrite to_size_t_small; [done | lia]. }
    rewrite Hm2'.
    rewrite (to_size_t_small (written + w)) by lia.
    rewrite (to_index_small _ w) by lia.
    rewrite Hh, advance_index.
    assert (Hlw : Z.of_nat (length (take (Z.to_nat w)
                                      (drop (Z.to_nat written) buf))) = w)
      by (rewrite length_take, length_drop; lia).
    assert (HR1 : Rp {| head_ := (Z.of_nat (length hist) + w) mod W;
                        tail_ := tail_ rb; data_buff_ := d2 |}
                     (hist ++ take (Z.to_nat w) (drop (Z.to_nat written) buf))
                     P).
    { rewrite <- Hlw at 1. apply Repr_written; try done; rewrite Hlw;
        [lia | done]. }
    destruct (IH _ _ _ buf count (written + w) HR1) as (rb' & Hrun & HR');
      try lia.
    simpl head_ in Hrun. exists rb'.
    rewrite length_app, Nat2Z.inj_add, Hlw in Hrun, HR'.
    assert (Hk0 : Z.min (count - (written + w))
                    (BufferSize - (Z.of_nat (length hist) + w - P)) = 0)
      by lia.
    rewrite Hk0 in Hrun, HR'. rewrite Z.add_0_r in Hrun.
    rewrite app_nil_r in HR'. simpl take in HR'.
    replace k with w by (unfold k, w; lia). done.
Qed.

Lemma PushBatch_spec rb hist P buf count :
  Rp rb hist P ->
  0 <= count < 2 ^ size_t_bits -> count <= Z.of_nat (length buf) ->
  let k := Z.min count (BufferSize - (Z.of_nat (length hist) - P)) in
  exists rb',
    PushBatch IndexT BufferSize rb buf count = Ok (rb', k) /\
    Rp rb' (hist ++ take (Z.to_nat k) buf) P.
Proof using Hcfg.
  intros HR Hc Hbuf k. unfold PushBatch, PushBatchCore.
  destruct (PushBatch_loop_spec (Z.to_nat count) rb hist P buf count 0 HR)
    as (rb' & Hrun & HR'); try lia.
  rewrite Z.sub_0_r, Z.add_0_l in *. simpl drop in HR'. by exists rb'.
Qed.

(** The two runs read by one iteration of [PopBatchCore]: the [w] oldest
    elements are copied to [buf], from position [read] on. *)
Lemma ring_read_spec rb hist P buf read w :
  Rp rb hist P ->
  0 <= read -> 0 <= w -> read + w <= Z.of_nat (length buf) ->
  w <= Z.of_nat (length hist) - P ->
  let off := P mod BufferSize in
  let first := Z.min w (BufferSize - off) in
  exists b1 b2,
    memcpy buf read (data_buff_ rb) off first = Some b1 /\
    (if first <? w then memcpy b1 (read + first) (data_buff_ rb) 0 (w - first)
     else Some b1) = Some b2 /\
    length b2 = length buf /\
    (forall i, read <= i < read + w ->
       b2 !! Z.to_nat i = hist !! Z.to_nat (P + (i - read))) /\
    (forall i, 0 <= i -> ~ (read <= i < read + w) ->
       b2 !! Z.to_nat i = buf !! Z.to_nat i).
Proof using Hcfg.
  intros (Hwf & Hb & Hn & Hh & Ht & Hd) Hrd Hw Hbuf Havail off first.
  pose proof (cfg_pos _ _ Hcfg) as Hpos.
  destruct Hwf as (_ & _ & Hlen).
  pose proof (Z.mod_pos_bound P _ Hpos) as Hoff. fold off in Hoff.
  assert (Hfirst : 0 <= first <= w /\ first <= BufferSize - off)
    by (unfold first; lia).
  destruct (memcpy_spec buf read (data_buff_ rb) off first)
    as (b1 & Hm1 & Hl1 & Hin1 & Hout1); try lia.
  assert (Hsecond : exists b2,
    (if first <? w then memcpy b1 (read + first) (data_buff_ rb) 0 (w - first)
     else Some b1) = Some b2 /\
    length b2 = length b1 /\
    (forall i, read + first <= i < read + w ->
       b2 !! Z.to_nat i = data_buff_ rb !! Z.to_nat (i - (read + first))) /\
    (forall i, 0 <= i -> ~ (read + first <= i < read + w) ->
       b2 !! Z.to_nat i = b1 !! Z.to_nat i)).
  { destruct (Z.ltb_spec first w).
    - destruct (memcpy_spec b1 (read + first) (data_buff_ rb) 0 (w - first))
        as (b2 & Hm2 & Hl2 & Hin2 & Hout2); try lia.
      exists b2. split; [done|]. split; [done|]. split.
      + intros i Hi. rewrite Hin2 by lia. f_equal.
      + intros i Hi0 Hi. apply Hout2; lia.
    - exists b1. split; [done|]. split; [done|]. split; [|done].
      intros i Hi. lia. }
  destruct Hsecond as (b2 & Hm2 & Hl2 & Hin2 & Hout2).
  exists b1, b2. split; [done|]. split; [done|]. split; [congruence|]. split.
  - intros i Hi. rewrite <- Hd by lia.
    rewrite mod_add_wrap by lia. fold off.
    destruct (Z.ltb_spec (off + (i - read)) BufferSize).
    + rewrite Hout2 by lia. rewrite Hin1 by lia. done.
    + rewrite Hin2 by lia. f_equal. lia.
  - intros i Hi0 Hi. rewrite Hout2 by lia. apply Hout1; lia.
Qed.

Lemma PopBatch_loop_spec fuel : forall rb hist P buf count read,
  Rp rb hist P ->
  0 <= read <= count -> count <= Z.of_nat (length buf) ->
  count < 2 ^ size_t_bits ->
  (Z.to_nat (count - read) <= fuel)%nat ->
  let k := Z.min (count - read) (Z.of_nat (length hist) - P) in
  exists rb' buf',
    PopBatch_loop IndexT BufferSize fuel rb buf count read (tail_ rb)
    = Ok (rb', buf', read + k) /\
    Rp rb' hist (P + k) /\
    length buf' = length buf /\
    (forall i, read <= i < read + k ->
       buf' !! Z.to_nat i = hist !! Z.to_nat (P + (i - read))) /\
    (forall i, 0 <= i -> ~ (read <= i < read + k) ->
       buf' !! Z.to_nat i = buf !! Z.to_nat i).
Proof using Hcfg.
  induction fuel as [|fuel IH]; intros rb hist P buf count read
    HR Hrd Hcount Hsz Hfuel k; cbn [PopBatch_loop];
    pose proof HR as (Hwf & Hb & Hn & Hh & Ht & Hd).
  - destruct (Z.ltb_spec read count); [lia|].
    exists rb, buf. replace k with 0 by (unfold k; lia).
    rewrite !Z.add_0_r.
    split; [done|]. split; [done|]. split; [done|]. split; [|done].
    intros i Hi. lia.
  - pose proof (cfg_pos _ _ Hcfg) as Hpos.
    pose proof (cfg_half _ _ Hcfg) as Hhalf.
    pose proof (modulus_le_size_t IndexT) as Hle.
    destruct (Z.ltb_spec read count) as [Hlt|Hge]; cycle 1.
    { exists rb, buf. replace k with 0 by (unfold k; lia).
      rewrite !Z.add_0_r.
    split; [done|]. split; [done|]. split; [done|]. split; [|done].
    intros i Hi. lia. }
    rewrite count_index, (Repr_count _ _ Hcfg _ _ _ HR).
    set (c := Z.of_nat (length hist) - P) in *.
    destruct (Z.eqb_spec c 0) as [Hc0|Hc0].
    { exists rb, buf. replace k with 0 by (unfold k; lia).
      rewrite !Z.add_0_r.
    split; [done|]. split; [done|]. split; [done|]. split; [|done].
    intros i Hi. lia. }
    rewrite (to_size_t_small c) by lia.
    set (w := Z.min (count - read) c).
    assert (Hmask : Z.land (tail_ rb) (kMask IndexT BufferSize)
                    = P mod BufferSize)
      by (rewrite Ht; apply (slot_index _ _ Hcfg)).
    rewrite !Hmask.
    pose proof (Z.mod_pos_bound P _ Hpos) as Hoff.
    rewrite !(to_size_t_small (_ mod BufferSize)) by lia.
    rewrite !(to_size_t_small (BufferSize - _)) by lia.
    destruct (ring_read_spec rb hist P buf read w HR)
      as (b1 & b2 & Hm1 & Hm2 & Hl2 & Hin & Hout); try lia.
    cbv zeta in Hm1, Hm2. rewrite Hm1.
    set (first := Z.min w (BufferSize - P mod BufferSize)) in *.
    assert (Hm2' : (if first <? w
                    then memcpy b1 (read + first) (data_buff_ rb) 0
                                (to_size_t (w - first))
                    else Some b1) = Some b2).
    { destruct (Z.ltb_spec first w); [|done].
      rewrite to_size_t_small; [done | lia]. }
    rewrite Hm2'.
    rewrite (to_size_t_small (read + w)) by lia.
    rewrite (to_index_small _ w) by lia.
    assert (HR1 := Repr_consume _ _ Hcfg rb hist P w HR).
    destruct (IH _ _ _ b2 count (read + w) (HR1 ltac:(lia) ltac:(lia)))
      as (rb' & buf' & Hrun & HR' & Hl' & Hin' & Hout'); try lia.
    simpl tail_ in Hrun. exists rb', buf'.
    assert (Hk0 : Z.min (count - (read + w))
                    (Z.of_nat (length hist) - (P + w)) = 0) by lia.
    rewrite Hk0 in Hrun, HR', Hout'. rewrite Z.add_0_r in Hrun, HR', Hout'.
    replace k with w by (unfold k, w; lia).
    split; [done|]. split; [done|]. split; [congruence|]. split.
    + intros i Hi. rewrite Hout' by lia. by apply Hin.
    + intros i Hi0 Hi. rewrite Hout' by lia. by apply Hout.
Qed.

Lemma PopBatch_spec rb hist P buf count :
  Rp rb hist P ->
  0 <= count < 2 ^ size_t_bits -> count <= Z.of_nat (length buf) ->
  let k := Z.min count (Z.of_nat (length hist) - P) in
  exists rb' buf',
    PopBatch IndexT BufferSize rb buf count = Ok (rb', buf', k) /\
    Rp rb' hist (P + k) /\
    length buf' = length buf /\
    take (Z.to_nat k) buf' = take (Z.to_nat k) (drop (Z.to_nat P) hist) /\
    drop (Z.to_nat k) buf' = drop (Z.to_nat k) buf.
Proof using Hcfg.
  intros HR Hc Hbuf k. unfold PopBatch, PopBatchCore.
  pose proof HR as (Hwf & Hb & Hn & Hh & Ht & Hd).
  destruct (PopBatch_loop_spec (Z.to_nat count) rb hist P buf count 0 HR)
    as (rb' & buf' & Hrun & HR' & Hl' & Hin & Hout); try lia.
  rewrite Z.sub_0_r, Z.add_0_l in *. fold k in Hrun, HR', Hin, Hout.
  assert (Hk : 0 <= k <= count) by (unfold k; lia).
  exists rb', buf'. split; [done|]. split; [done|]. split; [done|]. split.
  - apply list_eq. intros i.
    destruct (Nat.lt_ge_cases i (Z.to_nat k)).
    + rewrite !lookup_take_lt by done. rewrite lookup_drop.
      specialize (Hin (Z.of_nat i) ltac:(lia)).
      rewrite Nat2Z.id in Hin. rewrite Hin. f_equal. lia.
    + by rewrite !lookup_take_ge.
  - apply list_eq. intros i. rewrite !lookup_drop.
    specialize (Hout (Z.of_nat (Z.to_nat k + i)) ltac:(lia) ltac:(lia)).
    by rewrite Nat2Z.id in Hout.
Qed.

End BatchSpecs.

(** ** Discarding, clearing and indexed access on represented states *)

Section MoreSpecs.
Context {T : Type}.
Variable T_zero : T.
Variable IndexT : index_type.
Variable BufferSize : Z.
Hypothesis Hcfg : valid_config IndexT BufferSize = true.

Local Abbreviation W := (2 ^ bits IndexT).
Local Abbreviation Rp := (Repr (T:=T) IndexT BufferSize).
Implicit Types (rb : Ringbuffer (T:=T)) (hist buf : list T).

Lemma Discard_spec rb hist P count :
  Rp rb hist P -> 0 <= count < 2 ^ size_t_bits ->
  let k := Z.min count (Z.of_nat (length hist) - P) in
  exists rb', Discard IndexT rb count = (rb', k) /\ Rp rb' hist (P + k).
Proof using Hcfg.
  intros HR Hc k. pose proof HR as (Hwf & Hb & Hn & Hh & Ht & Hd).
  pose proof (cfg_half _ _ Hcfg) as Hhalf.
  pose proof (modulus_le_size_t IndexT) as Hle.
  unfold Discard. rewrite count_index, (Repr_count _ _ Hcfg _ _ _ HR).
  rewrite (to_size_t_small (_ - _)) by lia. fold k.
  destruct (Z.ltb_spec 0 k).
  - eexists; split; [done|].
    rewrite (to_index_small _ k) by (unfold k in *; lia).
    apply Repr_consume; try done; unfold k; lia.
  - exists rb. split; [done|].
    replace k with 0 by (unfold k in *; lia). by rewrite Z.add_0_r.
Qed.

Lemma ConsumerClear_spec rb hist P :
  Rp rb hist P -> Rp (ConsumerClear rb) hist (Z.of_nat (length hist)).
Proof.
  intros ((? & ? & ?) & Hb & Hn & Hh & Ht & Hd).
  unfold Repr, wf, ConsumerClear; simpl.
  repeat split; try lia; done.
Qed.

Lemma ProducerClear_spec rb hist P :
  Rp rb hist P -> Rp (ProducerClear rb) (take (Z.to_nat P) hist) P.
Proof.
  intros ((? & ? & ?) & Hb & Hn & Hh & Ht & Hd).
  assert (Hl : Z.of_nat (length (take (Z.to_nat P) hist)) = P)
    by (rewrite length_take; lia).
  unfold Repr, wf, ProducerClear; simpl. rewrite Hl.
  repeat split; try lia; done.
Qed.

(** Every state the member types allow and whose [Size()] is within the
    capacity is represented. *)
Lemma Repr_of_wf rb :
  wf IndexT BufferSize rb -> Size IndexT rb <= BufferSize ->
  exists hist P, Rp rb hist P.
Proof using Hcfg T_zero.
  intros (Hh & Ht & Hlen) Hsz.
  pose proof (cfg_pos _ _ Hcfg) as Hpos.
  pose proof (modulus_pos IndexT) as HW.
  unfold Size in Hsz. rewrite count_index in Hsz.
  pose proof (Z.mod_pos_bound (head_ rb - tail_ rb) _ HW) as Hc.
  set (c := (head_ rb - tail_ rb) mod W) in *.
  exists ((fun j => slot T_zero rb (j mod BufferSize))
            <$> seqZ 0 (tail_ rb + c)), (tail_ rb).
  assert (Hl : Z.of_nat (length ((fun j => slot T_zero rb (j mod BufferSize))
                                   <$> seqZ 0 (tail_ rb + c)))
               = tail_ rb + c)
    by (rewrite length_fmap, length_seqZ; lia).
  unfold Repr, wf. rewrite Hl.
  split; [done|]. split; [lia|]. split; [lia|]. split; [|split].
  - unfold c. rewrite Zplus_mod_idemp_r.
    replace (tail_ rb + (head_ rb - tail_ rb)) with (head_ rb) by lia.
    symmetry. by apply Z.mod_small.
  - symmetry. by apply Z.mod_small.
  - intros j Hj. rewrite list_lookup_fmap.
    rewrite lookup_seqZ_lt by lia. simpl. rewrite Z.add_0_l, Z2Nat.id by lia.
    unfold slot.
    pose proof (Z.mod_pos_bound j _ Hpos).
    destruct (lookup_lt_is_Some_2 (data_buff_ rb) (Z.to_nat (j mod BufferSize)))
      as [x Hx]; [lia|].
    by rewrite Hx.
Qed.

(** [At] when the index fits [IndexT] and the subtraction of the two
    counters is not affected by promotion. *)
Lemma At_spec rb hist P index :
  Rp rb hist P -> 0 <= index < W ->
  promoted IndexT = false \/ tail_ rb <= head_ rb ->
  At IndexT BufferSize rb index
  = if Z.of_nat (length hist) - P <=? index then None
    else Some ((P + index) mod BufferSize).
Proof using Hcfg.
  intros HR Hi Hor. pose proof (Repr_count _ _ Hcfg _ _ _ HR) as Hc.
  destruct HR as ((Hh & Ht & _) & Hb & Hn & Hhe & Hta & _).
  pose proof (cfg_half _ _ Hcfg) as Hhalf.
  pose proof (modulus_le_size_t IndexT) as Hle.
  unfold At. rewrite (to_index_small _ index) by done.
  assert (Hd : index_arith IndexT (head_ rb - tail_ rb)
               = Z.of_nat (length hist) - P).
  { unfold index_arith. destruct (promoted IndexT).
    - destruct Hor as [|Hor]; [done|]. rewrite Z.mod_small in Hc; lia.
    - done. }
  rewrite Hd. destruct (Z.leb_spec (Z.of_nat (length hist) - P) index); [done|].
  f_equal. rewrite land_kMask by done.
  unfold to_size_t. rewrite Z.mod_mod_divide.
  - rewrite Hta. rewrite Zplus_mod, (mod_index_mod_size _ _ Hcfg).
    by rewrite <- Zplus_mod.
  - eapply Z.divide_trans; [apply (cfg_divides _ _ Hcfg)|].
    apply modulus_divides_size_t.
Qed.

End MoreSpecs.

(** ** Sequences of operations on represented states *)

Section Runs.
Context {T : Type}.
Variable T_zero : T.
Variable IndexT : index_type.
Variable BufferSize : Z.
Hypothesis Hcfg : valid_config IndexT BufferSize = true.
(** The index type has the rank of [int] or above: the counters are
    subtracted in [IndexT] itself. *)
Hypothesis Hrank : promoted IndexT = false.

Local Abbreviation W := (2 ^ bits IndexT).
Local Abbreviation Rp := (Repr (T:=T) IndexT BufferSize).
Local Abbreviation exec1 := (exec T_zero IndexT BufferSize).
Local Abbreviation runs := (run T_zero IndexT BufferSize).
Implicit Types (rb : Ringbuffer (T:=T)) (hist buf : list T) (o : op (T:=T)).

(** A transfer appends what it accepts to the history and hands out the
    oldest elements that have not been consumed. *)
Lemma exec_transfer o rb hist P :
  Rp rb hist P -> op_ok o -> is_transfer o = true ->
  exists rb' pushed popped,
    exec1 o rb = Ok (rb', pushed, popped) /\
    Rp rb' (hist ++ pushed) (P + Z.of_nat (length popped)) /\
    popped = take (length popped) (drop (Z.to_nat P) hist).
Proof using Hcfg Hrank.
  intros HR Hok Htr. pose proof HR as (Hwf & Hb & Hn & Hh & Ht & Hd).
  destruct o as [v|f|buf count| | |count|count| ]; try discriminate;
    unfold exec.
  - (* Push *)
    unfold Push.
    destruct (Z.eq_dec (Z.of_nat (length hist) - P) BufferSize) as [Hf|Hf].
    + rewrite (PushImpl_full _ _ Hcfg rb hist P v HR Hf (or_introl Hrank)).
      exists rb, [], []. simpl. rewrite app_nil_r, Z.add_0_r. done.
    + destruct (PushImpl_spec _ _ Hcfg rb hist P v HR) as (rb' & -> & HR');
        [lia|].
      exists rb', [v], []. simpl. rewrite Z.add_0_r. done.
  - (* PushFromCallback *)
    destruct (Z.eq_dec (Z.of_nat (length hist) - P) BufferSize) as [Hf|Hf].
    + rewrite (PushFromCallback_full _ _ Hcfg rb hist P f tt HR Hf
                 (or_introl Hrank)).
      exists rb, [], []. simpl. rewrite app_nil_r, Z.add_0_r. done.
    + destruct (PushFromCallback_spec _ _ Hcfg rb hist P f tt HR)
        as (rb' & -> & HR'); [lia|].
      exists rb', [fst (f tt)], []. simpl. rewrite Z.add_0_r. done.
  - (* PushBatch *)
    destruct Hok as [Hc Hbuf].
    destruct (PushBatch_spec _ _ Hcfg rb hist P buf count HR Hc Hbuf)
      as (rb' & -> & HR').
    eexists rb', _, []. simpl. rewrite Z.add_0_r. done.
  - (* Pop *)
    destruct (Z.eq_dec P (Z.of_nat (length hist))) as [He|He].
    + rewrite (Pop_empty T_zero _ _ Hcfg rb hist P T_zero HR He).
      exists rb, [], []. simpl. rewrite app_nil_r, Z.add_0_r. done.
    + destruct (Pop_spec T_zero _ _ Hcfg rb hist P T_zero HR)
        as (rb' & x & -> & Hx & HR'); [lia|].
      exists rb', [], [x]. rewrite app_nil_r. simpl length.
      split; [done|]. split; [done|].
      apply list_eq. intros [|i]; simpl.
      * rewrite lookup_take_lt by lia. rewrite lookup_drop, Nat.add_0_r.
        done.
      * by rewrite lookup_take_ge by lia.
  - (* PopBatch *)
    simpl in Hok.
    destruct (PopBatch_spec _ _ Hcfg rb hist P
                (replicate (Z.to_nat count) T_zero) count HR Hok)
      as (rb' & buf' & -> & HR' & Hl & Htake & _).
    { rewrite length_replicate. lia. }
    set (k := Z.min count (Z.of_nat (length hist) - P)) in *.
    rewrite length_replicate in Hl.
    assert (Hlk : length (take (Z.to_nat k) buf') = Z.to_nat k)
      by (rewrite length_take; unfold k; lia).
    eexists rb', [], _. split; [done|].
    rewrite app_nil_r, Hlk, Z2Nat.id by (unfold k; lia). done.
Qed.

Lemma run_transfer ops : forall rb hist P,
  Rp rb hist P -> Forall op_ok ops -> Forall (fun o => is_transfer o = true) ops ->
  exists rb' pushed popped,
    runs ops rb = Ok (rb', pushed, popped) /\
    Rp rb' (hist ++ pushed) (P + Z.of_nat (length popped)) /\
    popped = take (length popped) (drop (Z.to_nat P) (hist ++ pushed)).
Proof using Hcfg Hrank.
  induction ops as [|o ops IH]; intros rb hist P HR Hok Htr.
  - exists rb, [], []. simpl. rewrite app_nil_r, Z.add_0_r. done.
  - apply Forall_cons in Hok as [Hok1 Hok]. apply Forall_cons in Htr as [Htr1 Htr].
    destruct (exec_transfer o rb hist P HR Hok1 Htr1)
      as (rb1 & pushed1 & popped1 & He & HR1 & Hp1).
    destruct (IH rb1 _ _ HR1 Hok Htr)
      as (rb2 & pushed2 & popped2 & Hr & HR2 & Hp2).
    cbn [run].
    rewrite He, Hr.
    exists rb2, (pushed1 ++ pushed2), (popped1 ++ popped2).
    split; [done|]. rewrite app_assoc, length_app, Nat2Z.inj_add, Z.add_assoc.
    split; [done|].
    pose proof HR as (_ & Hb & _).
    assert (Hl1 : (length popped1 <= length (drop (Z.to_nat P) hist))%nat).
    { rewrite Hp1 at 1. rewrite length_take. lia. }
    rewrite length_drop in Hl1.
    rewrite <- take_take_drop. f_equal.
    + rewrite Hp1 at 1. rewrite <- app_assoc, drop_app_le by lia.
      by rewrite take_app_le by (rewrite length_drop; lia).
    + rewrite Hp2 at 1. rewrite drop_drop. do 2 f_equal. lia.
Qed.

(** Every operation keeps the state represented. *)
Lemma exec_Repr o rb hist P :
  Rp rb hist P -> op_ok o ->
  exists rb' pushed popped hist' P',
    exec1 o rb = Ok (rb', pushed, popped) /\ Rp rb' hist' P'.
Proof using Hcfg Hrank.
  intros HR Hok.
  destruct (is_transfer o) eqn:Htr.
  - destruct (exec_transfer o rb hist P HR Hok Htr)
      as (rb' & pushed & popped & He & HR' & _).
    by eexists rb', pushed, popped, _, _.
  - destruct o as [v|f|buf count| | |count|count| ]; try discriminate.
    + eexists _, [], [], _, _. split; [done|].
      by apply (ProducerClear_spec _ _ rb hist P).
    + destruct (Discard_spec _ _ Hcfg rb hist P count HR Hok)
        as (rb' & Hdis & HR').
      eexists rb', [], [], _, _. unfold exec. rewrite Hdis.
      split; [done|]. done.
    + eexists _, [], [], _, _. split; [done|].
      by apply (ConsumerClear_spec _ _ rb hist P).
Qed.

Lemma run_Repr ops : forall rb hist P,
  Rp rb hist P -> Forall op_ok ops ->
  exists rb' pushed popped hist' P',
    runs ops rb = Ok (rb', pushed, popped) /\ Rp rb' hist' P'.
Proof using Hcfg Hrank.
  induction ops as [|o ops IH]; intros rb hist P HR Hok.
  - by exists rb, [], [], hist, P.
  - apply Forall_cons in Hok as [Hok1 Hok].
    destruct (exec_Repr o rb hist P HR Hok1)
      as (rb1 & pushed1 & popped1 & hist1 & P1 & He & HR1).
    destruct (IH rb1 _ _ HR1 Hok)
      as (rb2 & pushed2 & popped2 & hist2 & P2 & Hr & HR2).
    exists rb2, (pushed1 ++ pushed2), (popped1 ++ popped2), hist2, P2.
    split; [|done]. cbn [run].
    by rewrite He, Hr.
Qed.

Lemma reachable_Repr rb :
  reachable T_zero IndexT BufferSize rb -> exists hist P, Rp rb hist P.
Proof using Hcfg Hrank.
  intros (ops & pushed & popped & Hok & Hrun).
  destruct (run_Repr ops _ _ _ (Repr_ctor T_zero _ _ Hcfg) Hok)
    as (rb' & pushed' & popped' & hist & P & Hr & HR).
  rewrite Hrun in Hr. injection Hr as -> _ _. by exists hist, P.
Qed.

End Runs.

(** ** Batch transfers (claim C3) *)

(** In every state within the capacity, [PushBatch(src, n)] and
    [PopBatch(dst, n)] return a count between [0] and [n], which is zero
    for a non-empty request exactly when the buffer is full, respectively
    empty; and on an empty buffer, wherever its counters stand, a
    [PushBatch(src, n)] that returns [k] followed by [PopBatch(dst, k)]
    returns [k] and leaves [src[0..k)] in [dst[0..k)].  Neither call leaves
    the bounds of an array, although a batch that straddles the end of the
    slot array is copied in two runs. *)
Theorem batch_conservation_within_capacity {T : Type} (T_zero : T) (IndexT : index_type)
    (BufferSize : Z) (rb : Ringbuffer) (src dst : list T) (n : Z) :
  valid_config IndexT BufferSize = true ->
  wf IndexT BufferSize rb ->
  Size IndexT rb <= Capacity BufferSize ->
  0 <= n < 2 ^ size_t_bits ->
  n <= Z.of_nat (length src) ->
  n <= Z.of_nat (length dst) ->
  (exists rb1 k,
     PushBatch IndexT BufferSize rb src n = Ok (rb1, k) /\
     0 <= k <= n /\
     (0 < n -> (k = 0 <-> IsFull IndexT BufferSize rb = true)) /\
     (IsEmpty IndexT rb = true ->
      exists rb2 dst',
        PopBatch IndexT BufferSize rb1 dst k = Ok (rb2, dst', k) /\
        take (Z.to_nat k) dst' = take (Z.to_nat k) src)) /\
  (exists rb1 dst' k,
     PopBatch IndexT BufferSize rb dst n = Ok (rb1, dst', k) /\
     0 <= k <= n /\
     (0 < n -> (k = 0 <-> IsEmpty IndexT rb = true))).
Proof.
  intros Hcfg Hwf Hsz Hn Hsrc Hdst.
  destruct (Repr_of_wf T_zero _ _ Hcfg rb Hwf Hsz) as (hist & P & HR).
  pose proof HR as (_ & Hb & Hcap & _).
  pose proof (Repr_Size _ _ Hcfg _ _ _ HR) as HS.
  pose proof (Repr_Available _ _ Hcfg _ _ _ HR) as HA.
  split.
  - destruct (PushBatch_spec _ _ Hcfg rb hist P src n HR Hn Hsrc)
      as (rb1 & Hpush & HR1).
    set (k := Z.min n (BufferSize - (Z.of_nat (length hist) - P))) in *.
    exists rb1, k. split; [done|]. split; [unfold k; lia|]. split.
    + intros Hpos. unfold IsFull. rewrite HA, Z.eqb_eq. unfold k. lia.
    + intros Hempty. unfold IsEmpty in Hempty. rewrite HS, Z.eqb_eq in Hempty.
      assert (Hk : 0 <= k <= n) by (unfold k; lia).
      assert (Hlk : length (take (Z.to_nat k) src) = Z.to_nat k)
        by (rewrite length_take; lia).
      destruct (PopBatch_spec _ _ Hcfg rb1 _ P dst k HR1)
        as (rb2 & dst' & Hpop & _ & _ & Htake & _); [lia | lia |].
      rewrite length_app, Hlk in Hpop, Htake.
      replace (Z.min k (Z.of_nat (length hist + Z.to_nat k) - P)) with k
        in Hpop, Htake by lia.
      exists rb2, dst'. split; [done|]. rewrite Htake.
      replace (Z.to_nat P) with (length hist) by lia.
      rewrite drop_app_length. rewrite take_take. f_equal. lia.
  - destruct (PopBatch_spec _ _ Hcfg rb hist P dst n HR Hn Hdst)
      as (rb1 & dst' & Hpop & _).
    set (k := Z.min n (Z.of_nat (length hist) - P)) in *.
    exists rb1, dst', k. split; [done|]. split; [unfold k; lia|].
    intros Hpos. unfold IsEmpty. rewrite HS, Z.eqb_eq. unfold k. lia.
Qed.


Lemma batch_conservation_within_capacity_witness :
  valid_config uint64_t 16 = true /\
  wf uint64_t 16 rb_after_12 /\
  Size uint64_t rb_after_12 <= Capacity 16 /\
  0 <= 10 < 2 ^ size_t_bits /\
  10 <= Z.of_nat (length (seqZ 100 10)) /\
  10 <= Z.of_nat (length (replicate 10 0)) /\
  ((exists rb1 k,
     PushBatch uint64_t 16 rb_after_12 (seqZ 100 10) 10 = Ok (rb1, k) /\
     0 <= k <= 10 /\
     (0 < 10 -> (k = 0 <-> IsFull uint64_t 16 rb_after_12 = true)) /\
     (IsEmpty uint64_t rb_after_12 = true ->
      exists rb2 dst',
        PopBatch uint64_t 16 rb1 (replicate 10 0) k = Ok (rb2, dst', k) /\
        take (Z.to_nat k) dst' = take (Z.to_nat k) (seqZ 100 10))) /\
   (exists rb1 dst' k,
     PopBatch uint64_t 16 rb_after_12 (replicate 10 0) 10
     = Ok (rb1, dst', k) /\
     0 <= k <= 10 /\
     (0 < 10 -> (k = 0 <-> IsEmpty uint64_t rb_after_12 = true)))).
Proof.
  assert (H1 : valid_config uint64_t 16 = true) by reflexivity.
  assert (H2 : wf uint64_t 16 rb_after_12)
    by (unfold wf; vm_compute; intuition congruence).
  assert (H3 : Size uint64_t rb_after_12 <= Capacity 16)
    by (vm_compute; congruence).
  assert (H4 : 0 <= 10 < 2 ^ size_t_bits) by (unfold size_t_bits; lia).
  assert (H5 : 10 <= Z.of_nat (length (seqZ 100 10))) by (vm_compute; congruence).
  assert (H6 : 10 <= Z.of_nat (length (replicate 10 0)))
    by (vm_compute; congruence).
  repeat (split; [assumption|]).
  exact (batch_conservation_within_capacity 0 uint64_t 16 rb_after_12 (seqZ 100 10)
           (replicate 10 0) 10 H1 H2 H3 H4 H5 H6).
Defined.

(** ** Counter wrap-around (claim C4) *)

Lemma cycles_spec {T : Type} (T_zero : T) (IndexT : index_type)
    (BufferSize : Z) (vs : list T) :
  valid_config IndexT BufferSize = true ->
  forall rb hist,
    Repr IndexT BufferSize rb hist (Z.of_nat (length hist)) ->
    snd (cycles T_zero IndexT BufferSize rb vs)
    = (fun v => (true, true, v)) <$> vs.
Proof.
  intros Hcfg. pose proof (cfg_pos _ _ Hcfg) as Hpos.
  induction vs as [|v vs IH]; intros rb hist HR; [done|].
  cbn [cycles]. unfold Push.
  destruct (PushImpl_spec _ _ Hcfg rb hist _ v HR) as (rb1 & -> & HR1);
    [lia|].
  destruct (Pop_spec T_zero _ _ Hcfg rb1 _ _ T_zero HR1)
    as (rb2 & x & -> & Hx & HR2); [rewrite length_app; simpl; lia|].
  rewrite Nat2Z.id, list_lookup_middle in Hx by done. injection Hx as <-.
  assert (HR3 : Repr IndexT BufferSize rb2 (hist ++ [v])
                  (Z.of_nat (length (hist ++ [v])))).
  { replace (Z.of_nat (length (hist ++ [v])))
      with (Z.of_nat (length hist) + 1); [done|].
    rewrite length_app. simpl. lia. }
  specialize (IH rb2 _ HR3).
  destruct (cycles T_zero IndexT BufferSize rb2 vs) as [rb3 res].
  simpl in *. by rewrite IH.
Qed.

(** For every index type and capacity the static assertions admit,
    a successful [Push] or [Pop] advances its counter modulo the range of
    the index type and not modulo the capacity; whenever the number of
    elements pushed exceeds the number popped by at most the capacity,
    [Size()], the difference of the two wrapped counters, is exactly that
    number; and in any number of cycles of one [Push] followed by one
    [Pop] on a new buffer every call succeeds and every [Pop] returns the
    value just pushed. *)
Theorem index_wrap_soundness {T : Type} (T_zero : T)
    (IndexT : index_type) (BufferSize : Z) :
  valid_config IndexT BufferSize = true ->
  (forall (rb : Ringbuffer) (v : T),
     snd (Push IndexT BufferSize rb v) = true ->
     head_ (fst (Push IndexT BufferSize rb v))
     = (head_ rb + 1) mod 2 ^ bits IndexT) /\
  (forall (rb : Ringbuffer) (d : T),
     snd (Pop T_zero IndexT BufferSize rb d) = true ->
     tail_ (fst (fst (Pop T_zero IndexT BufferSize rb d)))
     = (tail_ rb + 1) mod 2 ^ bits IndexT) /\
  (forall (rb : Ringbuffer (T:=T)) (pushes pops : Z),
     head_ rb = pushes mod 2 ^ bits IndexT ->
     tail_ rb = pops mod 2 ^ bits IndexT ->
     0 <= pushes - pops <= BufferSize ->
     Size IndexT rb = pushes - pops) /\
  (forall (rb : Ringbuffer) (vs : list T),
     wf IndexT BufferSize rb -> tail_ rb = head_ rb ->
     snd (cycles T_zero IndexT BufferSize rb vs)
     = (fun v => (true, true, v)) <$> vs).
Proof.
  intros Hcfg. split; [|split; [|split]].
  - intros rb v. unfold Push, PushImpl.
    destruct (_ =? _); [discriminate|]. intros _. simpl.
    apply to_index_arith.
  - intros rb d. unfold Pop.
    destruct (_ =? _); [discriminate|]. intros _. simpl.
    apply to_index_arith.
  - intros rb pushes pops Hh Ht Hc. unfold Size. rewrite count_index, Hh, Ht.
    pose proof (cfg_half _ _ Hcfg). pose proof (cfg_pos _ _ Hcfg).
    apply mod_sub_small; lia.
  - intros rb vs Hwf Hempty.
    assert (Hsz : Size IndexT rb = 0).
    { unfold Size. rewrite Hempty, Z.sub_diag. by destruct IndexT. }
    pose proof (cfg_pos _ _ Hcfg) as Hpos.
    destruct (Repr_of_wf T_zero _ _ Hcfg rb Hwf) as (hist & P & HR); [lia|].
    rewrite (Repr_Size _ _ Hcfg _ _ _ HR) in Hsz.
    apply (cycles_spec T_zero _ _ vs Hcfg rb hist).
    by replace (Z.of_nat (length hist)) with P by lia.
Qed.

(** Capacity 4 with an 8-bit index, 1000 cycles, starting with both
    counters at 255. *)
Lemma index_wrap_soundness_witness :
  valid_config uint8_t 4 = true /\
  wf uint8_t 4 rb_255 /\
  tail_ rb_255 = head_ rb_255 /\
  snd (cycles 0 uint8_t 4 rb_255 (seqZ 0 1000))
  = (fun v => (true, true, v)) <$> seqZ 0 1000.
Proof.
  assert (H1 : valid_config uint8_t 4 = true) by reflexivity.
  assert (H2 : wf uint8_t 4 rb_255)
    by (unfold wf; vm_compute; intuition congruence).
  assert (H3 : tail_ rb_255 = head_ rb_255) by reflexivity.
  repeat (split; [assumption|]).
  exact (proj2 (proj2 (proj2 (index_wrap_soundness 0 uint8_t 4 H1)))
           rb_255 (seqZ 0 1000) H2 H3).
Defined.

(** In an index type of the rank of [int] or above the difference that
    [PushImpl] compares with [BufferSize] is the number of elements. *)
Lemma difference_is_count_unpromoted {T : Type} (IndexT : index_type)
    (BufferSize : Z) (rb : Ringbuffer (T:=T)) (hist : list T) (P : Z) :
  valid_config IndexT BufferSize = true ->
  promoted IndexT = false ->
  Repr IndexT BufferSize rb hist P ->
  to_size_t (index_arith IndexT (head_ rb - tail_ rb))
  = Z.of_nat (length hist) - P.
Proof.
  intros Hcfg Hrank HR.
  pose proof (Repr_count _ _ Hcfg _ _ _ HR) as Hc.
  destruct HR as (_ & Hb & Hn & _).
  pose proof (cfg_lt_size_t _ _ Hcfg).
  unfold index_arith. rewrite Hrank. unfold to_index. rewrite Hc.
  apply to_size_t_small. lia.
Qed.

(** C4 fails for [Ringbuffer<int, 4, false, uint8_t>]: 254 push/pop cycles
    and four pushes leave four elements in the buffer, with [head_ = 2] and
    [tail_ = 254].  The operands of [current_head - current_tail] in
    [PushImpl] are promoted to [int], so the subtraction is not an unsigned
    one: it yields [-252], which converted to [std::size_t] for the
    comparison with [BufferSize] is [2^64 - 252], not the element count 4,
    and the fifth element is accepted.  [Size()], which converts the
    difference to [IndexT], returns 4. *)
Theorem C4_difference_not_count_uint8 :
  run 0 uint8_t 4
    (stress 254 ++ [OpPush 1001; OpPush 1002; OpPush 1003; OpPush 1004])
    rb_u8
  = Ok (full_wrapped_u8, seqZ 0 254 ++ [1001; 1002; 1003; 1004],
        seqZ 0 254) /\
  Z.of_nat (length (seqZ 0 254 ++ [1001; 1002; 1003; 1004]))
  - Z.of_nat (length (seqZ 0 254)) = 4 /\
  head_ full_wrapped_u8 = 2 /\
  tail_ full_wrapped_u8 = 254 /\
  index_arith uint8_t (head_ full_wrapped_u8 - tail_ full_wrapped_u8)
  = -252 /\
  to_size_t (index_arith uint8_t
               (head_ full_wrapped_u8 - tail_ full_wrapped_u8))
  = 2 ^ 64 - 252 /\
  Size uint8_t full_wrapped_u8 = 4 /\
  PushImpl uint8_t 4 full_wrapped_u8 1005
  = ({| head_ := 3; tail_ := 254; data_buff_ := [1003; 1004; 1005; 1002] |},
     true).
Proof. repeat split; vm_compute; reflexivity. Qed.

(** ** The clear operations (claim C6) *)

(** C6: [ProducerClear] stores [tail_] into [head_] and [ConsumerClear]
    stores [head_] into [tail_]; each leaves the other counter and the slots
    as they are, and [Size()] is zero afterwards. *)
Theorem C6_clear_owned_counter {T : Type} (IndexT : index_type)
    (rb : Ringbuffer (T:=T)) :
  (head_ (ProducerClear rb) = tail_ rb /\
   tail_ (ProducerClear rb) = tail_ rb /\
   data_buff_ (ProducerClear rb) = data_buff_ rb /\
   Size IndexT (ProducerClear rb) = 0) /\
  (tail_ (ConsumerClear rb) = head_ rb /\
   head_ (ConsumerClear rb) = head_ rb /\
   data_buff_ (ConsumerClear rb) = data_buff_ rb /\
   Size IndexT (ConsumerClear rb) = 0).
Proof.
  unfold Size, ProducerClear, ConsumerClear; simpl. rewrite !Z.sub_diag.
  repeat split; destruct IndexT; reflexivity.
Qed.

(** The original [utility::Ringbuffer::ProducerClear] is [ConsumerClear]: it
    stores into [tail_], the counter of the other role. *)
Lemma utility_ProducerClear_writes_tail {T : Type} (rb : Ringbuffer (T:=T)) :
  tail_ (utility_ProducerClear rb) = head_ rb /\
  head_ (utility_ProducerClear rb) = head_ rb.
Proof. done. Qed.

(** ** [Pop] on an empty buffer (claim C10) *)

(** C10: [Pop] returns [false] exactly when the two counters are equal,
    and then neither the caller's variable nor the buffer is changed. *)
Theorem C10_failed_pop_keeps_argument {T : Type} (T_zero : T)
    (IndexT : index_type) (BufferSize : Z) (rb : Ringbuffer) (data : T) :
  snd (Pop T_zero IndexT BufferSize rb data) = false ->
  tail_ rb = head_ rb /\
  Pop T_zero IndexT BufferSize rb data = (rb, data, false).
Proof.
  unfold Pop. destruct (Z.eqb_spec (tail_ rb) (head_ rb)); [done|].
  discriminate.
Qed.

Lemma C10_failed_pop_keeps_argument_witness :
  snd (Pop 0 uint8_t 4 rb_u8 42) = false /\
  tail_ rb_u8 = head_ rb_u8 /\
  Pop 0 uint8_t 4 rb_u8 42 = (rb_u8, 42, false).
Proof.
  split; [reflexivity|].
  exact (C10_failed_pop_keeps_argument 0 uint8_t 4 rb_u8 42 eq_refl).
Defined.

(** A [Pop] on a buffer whose counters are equal fails. *)
Lemma Pop_on_empty {T : Type} (T_zero : T) (IndexT : index_type)
    (BufferSize : Z) (rb : Ringbuffer) (data : T) :
  tail_ rb = head_ rb ->
  Pop T_zero IndexT BufferSize rb data = (rb, data, false).
Proof. intros He. unfold Pop. by rewrite He, Z.eqb_refl. Qed.

(** ** Direction of the counters (claim C7) *)





(** On the full buffer whose [head_] has wrapped around, [ProducerClear]
    raises [head_] from 2 to 254. *)
Example ProducerClear_after_wrap :
  head_ full_wrapped_u8 = 2 /\
  Size uint8_t full_wrapped_u8 = 4 /\
  head_ (ProducerClear full_wrapped_u8) = 254 /\
  Size uint8_t (ProducerClear full_wrapped_u8) = 0.
Proof. repeat split; vm_compute; reflexivity. Qed.

(** ** The fullness test and index types narrower than [int]

    [PushImpl], [PushFromCallback] and [At] compare [head - tail] without
    converting the difference back to [IndexT].  For [uint8_t] and
    [uint16_t] the operands are promoted to [int], so the difference is
    negative once [head_] has wrapped around and [tail_] has not, and the
    comparisons with [BufferSize] and with the index go wrong.  The
    properties of this part hold for [uint32_t] and [uint64_t]; for the
    narrow types the failing runs are evaluated. *)

Lemma stress_ok (n : Z) : Forall (op_ok (T:=Z)) (stress n).
Proof.
  apply Forall_forall. intros o Ho. unfold stress in Ho.
  apply list_elem_of_In, in_flat_map in Ho as (r & _ & Hin).
  destruct Hin as [<-|[<-|[]]]; exact I.
Qed.

(** *** Claim C1 *)

(** In an index type of the rank of [int] or above, whatever sequence of
    pushes and pops, single or batched, the two roles perform on a new
    buffer, the values handed to the consumer are a prefix of the values
    accepted from the producer. *)
Lemma fifo_prefix_unpromoted {T : Type} (T_zero : T) (IndexT : index_type)
    (BufferSize : Z) (ops : list op) :
  valid_config IndexT BufferSize = true ->
  promoted IndexT = false ->
  Forall op_ok ops -> Forall (fun o => is_transfer o = true) ops ->
  exists rb pushed popped,
    run T_zero IndexT BufferSize ops (Ringbuffer_ctor T_zero BufferSize)
    = Ok (rb, pushed, popped) /\
    popped `prefix_of` pushed.
Proof.
  intros Hcfg Hrank Hok Htr.
  destruct (run_transfer T_zero _ _ Hcfg Hrank ops _ [] 0
              (Repr_ctor T_zero _ _ Hcfg) Hok Htr)
    as (rb & pushed & popped & Hrun & _ & Hp).
  exists rb, pushed, popped. split; [done|].
  rewrite Hp. simpl. apply prefix_take.
Qed.

(** C1 fails for [Ringbuffer<int, 4, false, uint8_t>]: after 254 push/pop
    cycles five pushes in a row are all accepted, the fifth overwrites the
    oldest element, and the next [Pop] returns 1005 where 1001 is due. *)
Theorem C1_fifo_order_lost_uint8 :
  run 0 uint8_t 4
    (stress 254 ++ [OpPush 1001; OpPush 1002; OpPush 1003; OpPush 1004;
                    OpPush 1005; OpPop])
    rb_u8
  = Ok ({| head_ := 3; tail_ := 255;
           data_buff_ := [1003; 1004; 1005; 1002] |},
        seqZ 0 254 ++ [1001; 1002; 1003; 1004; 1005],
        seqZ 0 254 ++ [1005]) /\
  ~ (seqZ 0 254 ++ [1005])
      `prefix_of` (seqZ 0 254 ++ [1001; 1002; 1003; 1004; 1005]).
Proof.
  split; [vm_compute; reflexivity|].
  intros Hp. apply prefix_app_inv in Hp as [k Hk]. discriminate.
Qed.

(** *** Claim C2 *)

(** [Push] on a full buffer fails and changes nothing when the index type
    is not promoted, and also in a narrow index type as long as [head_] has
    not wrapped past [tail_]. *)
Lemma Push_on_full {T : Type} (IndexT : index_type) (BufferSize : Z)
    (rb : Ringbuffer) (v : T) :
  valid_config IndexT BufferSize = true ->
  wf IndexT BufferSize rb ->
  Size IndexT rb = Capacity BufferSize ->
  promoted IndexT = false \/ tail_ rb <= head_ rb ->
  Push IndexT BufferSize rb v = (rb, false).
Proof.
  intros Hcfg Hwf Hsz Hor.
  destruct (Repr_of_wf v _ _ Hcfg rb Hwf) as (hist & P & HR);
    [unfold Capacity in Hsz; lia|].
  rewrite (Repr_Size _ _ Hcfg _ _ _ HR) in Hsz.
  by apply (PushImpl_full _ _ Hcfg rb hist P).
Qed.

(** C2 fails for [Ringbuffer<int, 4, false, uint8_t>]: 254 push/pop cycles
    leave the buffer empty, four pushes fill it, and the fifth push returns
    [true], advances [head_] and overwrites the oldest element. *)
Theorem C2_push_on_full_accepted_uint8 :
  run 0 uint8_t 4
    (stress 254 ++ [OpPush 1001; OpPush 1002; OpPush 1003; OpPush 1004])
    rb_u8
  = Ok (full_wrapped_u8, seqZ 0 254 ++ [1001; 1002; 1003; 1004],
        seqZ 0 254) /\
  full_wrapped_u8
  = {| head_ := 2; tail_ := 254; data_buff_ := [1003; 1004; 1001; 1002] |} /\
  Size uint8_t full_wrapped_u8 = Capacity 4 /\
  IsFull uint8_t 4 full_wrapped_u8 = true /\
  Push uint8_t 4 full_wrapped_u8 1005
  = ({| head_ := 3; tail_ := 254; data_buff_ := [1003; 1004; 1005; 1002] |},
     true).
Proof. repeat split; vm_compute; reflexivity. Qed.

(** *** Claim C5 *)

(** [At] with an index that fits the index type, when the subtraction is
    not affected by promotion: out of range it returns [nullptr], in range
    a pointer to the slot [(tail + index) & kMask], which holds the element
    number [index] from the front. *)
Lemma At_in_range {T : Type} (IndexT : index_type) (BufferSize : Z)
    (rb : Ringbuffer) (hist : list T) (P index : Z) :
  valid_config IndexT BufferSize = true ->
  Repr IndexT BufferSize rb hist P ->
  0 <= index < 2 ^ bits IndexT ->
  promoted IndexT = false \/ tail_ rb <= head_ rb ->
  (Size IndexT rb <= index -> At IndexT BufferSize rb index = None) /\
  (index < Size IndexT rb ->
   At IndexT BufferSize rb index
   = Some (Z.land (to_size_t (tail_ rb + index)) (kMask IndexT BufferSize)) /\
   data_buff_ rb
     !! Z.to_nat (Z.land (to_size_t (tail_ rb + index))
                    (kMask IndexT BufferSize))
   = contents hist P !! Z.to_nat index).
Proof.
  intros Hcfg HR Hi Hor.
  pose proof (At_spec _ _ Hcfg rb hist P index HR Hi Hor) as HAt.
  rewrite (Repr_Size _ _ Hcfg _ _ _ HR).
  pose proof HR as (_ & Hb & _ & _ & _ & Hd).
  split.
  - intros Hge. rewrite HAt.
    by destruct (Z.leb_spec (Z.of_nat (length hist) - P) index); [|lia].
  - intros Hlt. rewrite HAt in *.
    destruct (Z.leb_spec (Z.of_nat (length hist) - P) index); [lia|].
    unfold At in HAt. destruct (_ <=? _); [done|]. injection HAt as ->.
    split; [done|]. rewrite Hd by lia. unfold contents.
    rewrite lookup_drop. f_equal. lia.
Qed.

(** C5 fails for [Ringbuffer<int, 4, false, uint8_t>]: with one element in
    the buffer [At(256)] converts the index to [uint8_t], i.e. to 0, and
    returns a pointer to slot 0; and once [head_] has wrapped to 0 while
    [tail_] is 255, [At(0)] returns [nullptr] although the buffer holds one
    element. *)
Theorem C5_At_bounds_check_uint8 :
  Size uint8_t (fst (Push uint8_t 4 rb_u8 7)) = 1 /\
  At uint8_t 4 (fst (Push uint8_t 4 rb_u8 7)) 256 = Some 0 /\
  fst (Push uint8_t 4 rb_255 7)
  = {| head_ := 0; tail_ := 255; data_buff_ := [252; 253; 254; 7] |} /\
  Size uint8_t (fst (Push uint8_t 4 rb_255 7)) = 1 /\
  At uint8_t 4 (fst (Push uint8_t 4 rb_255 7)) 0 = None.
Proof. repeat split; vm_compute; reflexivity. Qed.

(** *** Claim C8 *)

(** The callable is invoked exactly when the element is pushed: either the
    call returns [true], the callable has run once, its value is in slot
    [head & kMask] and [head_] has advanced by one, or the call returns
    [false] and neither the callable's environment nor the buffer has
    changed. *)
Lemma PushFromCallback_invokes_iff {T E : Type} (IndexT : index_type)
    (BufferSize : Z) (rb : Ringbuffer) (f : callable (T:=T) E) (env : E)
    (n : nat) :
  PushFromCallback IndexT BufferSize rb (counted f) (env, n)
  = ({| head_ := to_index IndexT (head_ rb + 1);
        tail_ := tail_ rb;
        data_buff_ :=
          <[Z.to_nat (Z.land (head_ rb) (kMask IndexT BufferSize))
            := fst (f env)]> (data_buff_ rb) |},
     (snd (f env), S n), true) \/
  PushFromCallback IndexT BufferSize rb (counted f) (env, n)
  = (rb, (env, n), false).
Proof.
  unfold PushFromCallback. destruct (_ =? _); [by right|]. left.
  unfold counted. destruct (f env) as [v env']. simpl.
  by rewrite to_index_arith.
Qed.

Lemma PushFromCallback_on_full {T E : Type} (IndexT : index_type)
    (BufferSize : Z) (rb : Ringbuffer) (f : callable (T:=T) E) (env : E) :
  valid_config IndexT BufferSize = true ->
  wf IndexT BufferSize rb ->
  Size IndexT rb = Capacity BufferSize ->
  promoted IndexT = false \/ tail_ rb <= head_ rb ->
  PushFromCallback IndexT BufferSize rb f env = (rb, env, false).
Proof.
  intros Hcfg Hwf Hsz Hor.
  destruct (Repr_of_wf (fst (f env)) _ _ Hcfg rb Hwf) as (hist & P & HR);
    [unfold Capacity in Hsz; lia|].
  rewrite (Repr_Size _ _ Hcfg _ _ _ HR) in Hsz.
  by apply (PushFromCallback_full _ _ Hcfg rb hist P).
Qed.

(** C8 fails for [Ringbuffer<int, 4, false, uint8_t>]: on the full buffer
    reached by 254 push/pop cycles and four pushes, [PushFromCallback]
    invokes the callable once, stores its value over the oldest element
    and returns [true]. *)
Theorem C8_callback_invoked_on_full_uint8 :
  IsFull uint8_t 4 full_wrapped_u8 = true /\
  PushFromCallback uint8_t 4 full_wrapped_u8
    (counted (fun _ : unit => (999, tt))) (tt, 0%nat)
  = ({| head_ := 3; tail_ := 254; data_buff_ := [1003; 1004; 999; 1002] |},
     (tt, 1%nat), true).
Proof. split; vm_compute; reflexivity. Qed.

(** *** Claim C9 *)

(** In an index type of the rank of [int] or above every reachable state
    has [0 <= Size() <= Capacity()] and [Size() + Available() = Capacity()]. *)
Lemma size_invariant_unpromoted {T : Type} (T_zero : T)
    (IndexT : index_type) (BufferSize : Z) (rb : Ringbuffer) :
  valid_config IndexT BufferSize = true ->
  promoted IndexT = false ->
  reachable T_zero IndexT BufferSize rb ->
  0 <= Size IndexT rb <= Capacity BufferSize /\
  Size IndexT rb + Available IndexT BufferSize rb = Capacity BufferSize.
Proof.
  intros Hcfg Hrank Hreach.
  destruct (reachable_Repr T_zero _ _ Hcfg Hrank rb Hreach) as (hist & P & HR).
  rewrite (Repr_Size _ _ Hcfg _ _ _ HR), (Repr_Available _ _ Hcfg _ _ _ HR).
  destruct HR as (_ & Hb & Hcap & _). unfold Capacity. lia.
Qed.

(** C9 fails for [Ringbuffer<int, 4, false, uint8_t>]: the state reached by
    254 push/pop cycles and five pushes has [Size() = 5] with capacity 4,
    and [Available() = 255]. *)
Theorem C9_size_exceeds_capacity_uint8 :
  exists rb : Ringbuffer (T:=Z),
    reachable 0 uint8_t 4 rb /\
    rb = {| head_ := 3; tail_ := 254;
            data_buff_ := [1003; 1004; 1005; 1002] |} /\
    Size uint8_t rb = 5 /\
    Capacity 4 = 4 /\
    Available uint8_t 4 rb = 255.
Proof.
  eexists. split; [|repeat split; vm_compute; reflexivity].
  exists (stress 254 ++ [OpPush 1001; OpPush 1002; OpPush 1003; OpPush 1004;
                         OpPush 1005]),
         (seqZ 0 254 ++ [1001; 1002; 1003; 1004; 1005]), (seqZ 0 254).
  split.
  - apply Forall_app. split; [apply stress_ok | repeat constructor].
  - vm_compute. reflexivity.
Qed.

(** *** Claim C3 *)

(** C3 fails for [Ringbuffer<int, 4, false, uint8_t>]: in the state reached
    by 254 push/pop cycles and five pushes, of which [PushImpl] accepts the
    fifth on a full buffer, the loop of [PushBatchCore] computes
    [space = 255].  [PushBatch(src, 3)] returns 3 and overwrites three
    elements that have not been read; [PushBatch(src, 10)] copies one
    element to slot 3 and then asks [memcpy] to copy nine elements to
    [&data_buff_[0]], an array of four. *)
Theorem C3_batch_overruns_array_uint8 :
  reachable 0 uint8_t 4 overfull_u8 /\
  overfull_u8
  = {| head_ := 3; tail_ := 254; data_buff_ := [1003; 1004; 1005; 1002] |} /\
  Size uint8_t overfull_u8 = 5 /\
  Available uint8_t 4 overfull_u8 = 255 /\
  PushBatch uint8_t 4 overfull_u8 [11; 12; 13] 3
  = Ok ({| head_ := 6; tail_ := 254; data_buff_ := [12; 13; 1005; 11] |}, 3) /\
  PushBatch uint8_t 4 overfull_u8 (seqZ 0 10) 10 = UB.
Proof.
  split; [|repeat split; vm_compute; reflexivity].
  exists (stress 254 ++ [OpPush 1001; OpPush 1002; OpPush 1003; OpPush 1004;
                         OpPush 1005]),
         (seqZ 0 254 ++ [1001; 1002; 1003; 1004; 1005]), (seqZ 0 254).
  split.
  - apply Forall_app. split; [apply stress_ok | repeat constructor].
  - vm_compute. reflexivity.
Qed.

(** ** The batch loops finish within their fuel

    Whatever the state, also one outside the capacity, an iteration that
    continues has transferred at least one element, so [count] iterations
    always suffice. *)

Section Fuel.
Context {T : Type}.
Variable IndexT : index_type.
Variable BufferSize : Z.
Implicit Types (rb : Ringbuffer (T:=T)) (buf : list T).

Lemma batch_progress (count done space : Z) (fuel : nat) :
  0 <= done < count -> count < 2 ^ size_t_bits ->
  (to_index IndexT space =? 0) = false ->
  (Z.to_nat (count - done) <= S fuel)%nat ->
  let step := Z.min (count - done) (to_size_t (to_index IndexT space)) in
  0 <= to_size_t (done + step) /\
  (Z.to_nat (count - to_size_t (done + step)) <= fuel)%nat.
Proof.
  intros Hd Hc Hsp Hfuel step.
  pose proof (to_index_range IndexT space) as Hr.
  pose proof (modulus_le_size_t IndexT) as Hle.
  apply Z.eqb_neq in Hsp.
  assert (Hstep : 1 <= step <= count - done).
  { unfold step. rewrite to_size_t_small by lia. lia. }
  rewrite to_size_t_small by lia. lia.
Qed.

Lemma PushBatch_loop_fuel fuel : forall rb buf count written current_head,
  0 <= written -> count < 2 ^ size_t_bits ->
  (Z.to_nat (count - written) <= fuel)%nat ->
  PushBatch_loop IndexT BufferSize fuel rb buf count written current_head
  <> OutOfFuel.
Proof.
  induction fuel as [|fuel IH]; intros rb buf count written current_head
    Hw Hc Hfuel; cbn [PushBatch_loop].
  - destruct (Z.ltb_spec written count); [lia | done].
  - destruct (Z.ltb_spec written count) as [Hlt|]; [|done].
    destruct (_ =? 0) eqn:Hsp; [done|].
    destruct (memcpy _ _ _ _ _); [|done].
    destruct (if _ <? _ then _ else _); [|done].
    apply IH; try done;
      apply (batch_progress count written _ fuel); try done; lia.
Qed.

Lemma PopBatch_loop_fuel fuel : forall rb buf count read current_tail,
  0 <= read -> count < 2 ^ size_t_bits ->
  (Z.to_nat (count - read) <= fuel)%nat ->
  PopBatch_loop IndexT BufferSize fuel rb buf count read current_tail
  <> OutOfFuel.
Proof.
  induction fuel as [|fuel IH]; intros rb buf count read current_tail
    Hr Hc Hfuel; cbn [PopBatch_loop].
  - destruct (Z.ltb_spec read count); [lia | done].
  - destruct (Z.ltb_spec read count) as [Hlt|]; [|done].
    destruct (_ =? 0) eqn:Hsp; [done|].
    destruct (memcpy _ _ _ _ _); [|done].
    destruct (if _ <? _ then _ else _); [|done].
    apply IH; try done;
      apply (batch_progress count read _ fuel); try done; lia.
Qed.

Lemma PushBatch_finishes rb buf count :
  0 <= count < 2 ^ size_t_bits ->
  PushBatch IndexT BufferSize rb buf count <> OutOfFuel.
Proof.
  intros Hc. unfold PushBatch, PushBatchCore.
  apply PushBatch_loop_fuel; lia.
Qed.

Lemma PopBatch_finishes rb buf count :
  0 <= count < 2 ^ size_t_bits ->
  PopBatch IndexT BufferSize rb buf count <> OutOfFuel.
Proof.
  intros Hc. unfold PopBatch, PopBatchCore.
  apply PopBatch_loop_fuel; lia.
Qed.

End Fuel.

(** ** The scenarios of the unit tests *)

(** Capacity 8: the pushes of 0..7 succeed, the next push fails, eight pops
    return 0..7 and the next pop fails. *)
Example test_fill_and_drain :
  run 0 uint64_t 8
    ((OpPush <$> seqZ 0 8) ++ [OpPush 999] ++ replicate 9 OpPop)
    (Ringbuffer_ctor 0 8)
  = Ok ({| head_ := 8; tail_ := 8; data_buff_ := seqZ 0 8 |},
        seqZ 0 8, seqZ 0 8).
Proof. vm_compute. reflexivity. Qed.

(** Capacity 16: a batch of 8 is pushed and popped back. *)
Example test_batch_push_pop :
  run 0 uint64_t 16
    [OpPushBatch [10; 20; 30; 40; 50; 60; 70; 80] 8; OpPopBatch 8]
    (Ringbuffer_ctor 0 16)
  = Ok ({| head_ := 8; tail_ := 8;
           data_buff_ := [10; 20; 30; 40; 50; 60; 70; 80] ++ replicate 8 0 |},
        [10; 20; 30; 40; 50; 60; 70; 80], [10; 20; 30; 40; 50; 60; 70; 80]).
Proof. vm_compute. reflexivity. Qed.

(** Capacity 16: of a batch of 20 only 16 elements are accepted and the
    buffer is full. *)
Example test_batch_exceeding_capacity :
  exists rb, PushBatch uint64_t 16 (Ringbuffer_ctor 0 16) (seqZ 0 20) 20
             = Ok (rb, 16) /\
             IsFull uint64_t 16 rb = true.
Proof. eexists. split; [vm_compute; reflexivity|]. vm_compute. reflexivity. Qed.

(** Capacity 16: after twelve elements have gone through, a batch of ten
    wraps around the end of the slot array and is read back unchanged. *)
Example test_batch_wraps :
  exists rb1 rb2,
    PushBatch uint64_t 16 rb_after_12 (seqZ 100 10) 10 = Ok (rb1, 10) /\
    data_buff_ rb1
    = [104; 105; 106; 107; 108; 109; 6; 7; 8; 9; 10; 11; 100; 101; 102; 103] /\
    PopBatch uint64_t 16 rb1 (replicate 10 0) 10
    = Ok (rb2, seqZ 100 10, 10).
Proof.
  eexists _, _. split; [vm_compute; reflexivity|].
  split; vm_compute; reflexivity.
Qed.

(** [uint8_t] index, capacity 4: a hundred rounds of four pushes and four
    pops deliver every value in order. *)
Example test_uint8_rounds :
  exists rb,
    run 0 uint8_t 4
      (flat_map (fun round =>
                   (OpPush <$> seqZ (round * 4) 4) ++ replicate 4 OpPop)
                (seqZ 0 100))
      rb_u8
    = Ok (rb, seqZ 0 400, seqZ 0 400).
Proof. eexists. vm_compute. reflexivity. Qed.

(** Capacity 4: [PushFromCallback] on a full buffer does not invoke the
    callable. *)
Example test_callback_not_called_when_full :
  exists rb,
    run 0 uint64_t 4 (OpPush <$> seqZ 0 4) (Ringbuffer_ctor 0 4)
    = Ok (rb, seqZ 0 4, []) /\
    PushFromCallback uint64_t 4 rb (counted (fun _ : unit => (999, tt)))
      (tt, 0%nat)
    = (rb, (tt, 0%nat), false).
Proof. eexists. split; [vm_compute; reflexivity|]. vm_compute. reflexivity. Qed.

(** [At] on five elements 0, 10, ..., 40 in a buffer of capacity 8. *)
Example test_At :
  exists rb,
    run 0 uint64_t 8 (OpPush <$> [0; 10; 20; 30; 40]) (Ringbuffer_ctor 0 8)
    = Ok (rb, [0; 10; 20; 30; 40], []) /\
    (slot 0 rb <$> At uint64_t 8 rb 0) = Some 0 /\
    (slot 0 rb <$> At uint64_t 8 rb 2) = Some 20 /\
    (slot 0 rb <$> At uint64_t 8 rb 4) = Some 40 /\
    At uint64_t 8 rb 5 = None.
Proof.
  eexists. split; [vm_compute; reflexivity|].
  repeat split; vm_compute; reflexivity.
Qed.

(** * Further properties of the code *)

(** ** The static assertions and the mask *)

Lemma land_pow2_pred (k : Z) : 0 <= k -> Z.land (2 ^ k) (2 ^ k - 1) = 0.
Proof.
  intros Hk.
  replace (2 ^ k - 1) with (Z.ones k) by (rewrite Z.ones_equiv; lia).
  rewrite Z.land_ones by done. apply Z.mod_same.
  pose proof (Z.pow_pos_nonneg 2 k ltac:(lia) Hk). lia.
Qed.

(** X1: the [static_assert]s on [BufferSize] and [IndexT] accept exactly
    the capacities [2 ^ k] with [0 <= k <= bits - 2], where [bits] is the
    width of the index type; capacity 1 is among them. *)
Theorem static_asserts_admit_powers_of_two (IndexT : index_type)
    (BufferSize : Z) :
  valid_config IndexT BufferSize = true <->
  exists k, 0 <= k <= bits IndexT - 2 /\ BufferSize = 2 ^ k.
Proof.
  split.
  - intros Hcfg. exists (Z.log2 BufferSize).
    pose proof (cfg_pow2 _ _ Hcfg) as Hp. pose proof (cfg_half _ _ Hcfg) as Hh.
    pose proof (Z.log2_nonneg BufferSize) as Hl.
    split; [|done]. split; [done|].
    rewrite Hp in Hh.
    replace (2 * 2 ^ Z.log2 BufferSize) with (2 ^ (Z.log2 BufferSize + 1))
      in Hh by (rewrite Z.pow_add_r by lia; lia).
    apply Z.pow_lt_mono_r_iff in Hh; [lia | lia |].
    pose proof (bits_range IndexT). lia.
  - intros (k & Hk & ->).
    pose proof (bits_range IndexT) as Hb.
    assert (Hpos : 0 < 2 ^ k) by (apply Z.pow_pos_nonneg; lia).
    assert (Hle : 2 ^ k <= 2 ^ (bits IndexT - 2))
      by (apply Z.pow_le_mono_r; lia).
    assert (Hsz : 2 ^ (bits IndexT - 2) <= 2 ^ 62)
      by (apply Z.pow_le_mono_r; lia).
    unfold valid_config, static_asserts.
    rewrite !andb_true_iff. repeat split.
    + apply Z.leb_le. lia.
    + apply Z.ltb_lt. unfold size_t_bits. lia.
    + apply negb_true_iff, Z.eqb_neq. lia.
    + apply Z.eqb_eq. rewrite to_size_t_small by (unfold size_t_bits; lia).
      apply land_pow2_pred. lia.
    + destruct IndexT; reflexivity.
    + apply Z.leb_le. unfold index_max.
      rewrite Z.shiftr_div_pow2 by lia.
      revert Hle. destruct IndexT; cbn [bits]; intros Hle;
        Z.to_euclidean_division_equations; lia.
Qed.

(** X2: masking a counter with [kMask] reduces it modulo [BufferSize], so
    every slot index the class computes lies inside [data_buff_]. *)
Theorem kMask_index_in_bounds (IndexT : index_type) (BufferSize x : Z) :
  valid_config IndexT BufferSize = true ->
  Z.land x (kMask IndexT BufferSize) = x mod BufferSize /\
  0 <= Z.land x (kMask IndexT BufferSize) < BufferSize.
Proof.
  intros Hcfg. rewrite (land_kMask _ _ Hcfg). split; [done|].
  apply Z.mod_pos_bound, (cfg_pos _ _ Hcfg).
Qed.

Lemma kMask_index_in_bounds_witness :
  valid_config uint8_t 4 = true /\
  Z.land 254 (kMask uint8_t 4) = 254 mod 4 /\
  0 <= Z.land 254 (kMask uint8_t 4) < 4.
Proof.
  split; [reflexivity|].
  exact (kMask_index_in_bounds uint8_t 4 254 eq_refl).
Defined.

(** ** The query functions *)

Lemma mod_zero_small (w x : Z) :
  0 < w -> - w < x < w -> x mod w = 0 -> x = 0.
Proof.
  intros Hw Hx H0.
  destruct (Z.le_gt_cases 0 x).
  - rewrite Z.mod_small in H0; lia.
  - assert (x mod w = x + w); [|lia].
    symmetry. apply (Z.mod_unique _ _ (-1)); lia.
Qed.

Lemma Size_value {T : Type} (IndexT : index_type) (rb : Ringbuffer (T:=T)) :
  Size IndexT rb = (head_ rb - tail_ rb) mod 2 ^ bits IndexT.
Proof. unfold Size. apply count_index. Qed.

Lemma Available_value {T : Type} (IndexT : index_type) (BufferSize : Z)
    (rb : Ringbuffer (T:=T)) :
  Available IndexT BufferSize rb
  = (BufferSize - Size IndexT rb) mod 2 ^ bits IndexT.
Proof.
  unfold Available. rewrite space_index, Size_value.
  by rewrite Zminus_mod_idemp_r.
Qed.

(** X3: in every state, whatever the index type, [IsEmpty()] holds exactly
    when the two counters are equal and [IsFull()] exactly when [Size()]
    equals [Capacity()]; a buffer is never both; and while [Size()] is
    within the capacity, [Available()] is [Capacity() - Size()]. *)
Theorem query_functions_agree {T : Type} (IndexT : index_type)
    (BufferSize : Z) (rb : Ringbuffer (T:=T)) :
  valid_config IndexT BufferSize = true ->
  wf IndexT BufferSize rb ->
  (IsEmpty IndexT rb = true <-> tail_ rb = head_ rb) /\
  (IsFull IndexT BufferSize rb = true <->
   Size IndexT rb = Capacity BufferSize) /\
  (IsEmpty IndexT rb = true -> IsFull IndexT BufferSize rb = false) /\
  (Size IndexT rb <= Capacity BufferSize ->
   Available IndexT BufferSize rb = Capacity BufferSize - Size IndexT rb).
Proof.
  intros Hcfg (Hh & Ht & _).
  pose proof (cfg_pos _ _ Hcfg) as Hpos.
  pose proof (cfg_half _ _ Hcfg) as Hhalf.
  pose proof (modulus_pos IndexT) as HW.
  pose proof (Z.mod_pos_bound (head_ rb - tail_ rb) _ HW) as Hc.
  unfold IsEmpty, IsFull, Capacity.
  rewrite Available_value, Size_value.
  set (c := (head_ rb - tail_ rb) mod 2 ^ bits IndexT) in *.
  assert (Hc0 : c = 0 <-> tail_ rb = head_ rb).
  { unfold c. split.
    - intros H0. apply mod_zero_small in H0; lia.
    - intros ->. rewrite Z.sub_diag. apply Z.mod_0_l. lia. }
  assert (Hfull : (BufferSize - c) mod 2 ^ bits IndexT = 0 <-> c = BufferSize).
  { split.
    - intros H0. apply mod_zero_small in H0; lia.
    - intros ->. rewrite Z.sub_diag. apply Z.mod_0_l. lia. }
  repeat split.
  - intros He. apply Hc0. by apply Z.eqb_eq.
  - intros He. apply Z.eqb_eq. by apply Hc0.
  - intros Hf. apply Hfull. by apply Z.eqb_eq.
  - intros Hf. apply Z.eqb_eq. by apply Hfull.
  - intros He. apply Z.eqb_eq in He. apply Z.eqb_neq. rewrite Hfull. lia.
  - intros Hle. apply Z.mod_small. lia.
Qed.

Lemma query_functions_agree_witness :
  valid_config uint8_t 4 = true /\
  wf uint8_t 4 full_wrapped_u8 /\
  (IsEmpty uint8_t full_wrapped_u8 = true <->
   tail_ full_wrapped_u8 = head_ full_wrapped_u8) /\
  (IsFull uint8_t 4 full_wrapped_u8 = true <->
   Size uint8_t full_wrapped_u8 = Capacity 4) /\
  (IsEmpty uint8_t full_wrapped_u8 = true ->
   IsFull uint8_t 4 full_wrapped_u8 = false) /\
  (Size uint8_t full_wrapped_u8 <= Capacity 4 ->
   Available uint8_t 4 full_wrapped_u8
   = Capacity 4 - Size uint8_t full_wrapped_u8).
Proof.
  assert (H1 : valid_config uint8_t 4 = true) by reflexivity.
  assert (H2 : wf uint8_t 4 full_wrapped_u8)
    by (unfold wf; vm_compute; intuition congruence).
  repeat (split; [assumption|]).
  exact (query_functions_agree uint8_t 4 full_wrapped_u8 H1 H2).
Defined.

(** ** The elements of the buffer and how the operations change them *)

Section Elements.
Context {T : Type}.
Variable T_zero : T.
Variable IndexT : index_type.
Variable BufferSize : Z.
Hypothesis Hcfg : valid_config IndexT BufferSize = true.

Local Abbreviation Rp := (Repr (T:=T) IndexT BufferSize).
Implicit Types (rb : Ringbuffer (T:=T)) (hist buf : list T).

Lemma pops_Repr n : forall rb hist P,
  Rp rb hist P ->
  exists rb',
    pops T_zero IndexT BufferSize n rb
    = (rb', take n (drop (Z.to_nat P) hist)) /\
    Rp rb' hist (P + Z.min (Z.of_nat n) (Z.of_nat (length hist) - P)).
Proof using Hcfg.
  induction n as [|n IH]; intros rb hist P HR;
    pose proof HR as (_ & Hb & _).
  - exists rb. split; [done|].
    by replace (P + Z.min (Z.of_nat 0) (Z.of_nat (length hist) - P)) with P
      by lia.
  - cbn [pops].
    destruct (Z.eq_dec P (Z.of_nat (length hist))) as [He|He].
    + rewrite (Pop_empty T_zero _ _ Hcfg rb hist P T_zero HR He).
      exists rb. rewrite drop_ge by lia. split; [done|].
      by replace (P + Z.min (Z.of_nat (S n)) (Z.of_nat (length hist) - P))
        with P by lia.
    + destruct (Pop_spec T_zero _ _ Hcfg rb hist P T_zero HR)
        as (rb1 & x & -> & Hx & HR1); [lia|].
      destruct (IH rb1 hist (P + 1) HR1) as (rb2 & -> & HR2).
      exists rb2. split.
      * rewrite (drop_S _ _ _ Hx). simpl. repeat f_equal. lia.
      * by replace (P + Z.min (Z.of_nat (S n)) (Z.of_nat (length hist) - P))
          with (P + 1 + Z.min (Z.of_nat n) (Z.of_nat (length hist) - (P + 1)))
          by lia.
Qed.

Lemma elements_Repr rb hist P :
  Rp rb hist P ->
  elements T_zero IndexT BufferSize rb = drop (Z.to_nat P) hist.
Proof using Hcfg.
  intros HR. unfold elements. rewrite (Repr_Size _ _ Hcfg _ _ _ HR).
  destruct (pops_Repr (Z.to_nat (Z.of_nat (length hist) - P)) rb hist P HR)
    as (rb' & -> & _).
  simpl. apply take_ge. rewrite length_drop. lia.
Qed.

Lemma length_elements rb hist P :
  Rp rb hist P ->
  Z.of_nat (length (elements T_zero IndexT BufferSize rb)) = Size IndexT rb.
Proof using Hcfg.
  intros HR. pose proof HR as (_ & Hb & _).
  rewrite (elements_Repr _ _ _ HR), (Repr_Size _ _ Hcfg _ _ _ HR), length_drop.
  lia.
Qed.

End Elements.

(** X4: on a buffer that is not full, in every index type, [Push] and
    [PushFromCallback] succeed and append their value behind the elements
    already in the buffer; [Size()] grows by one. *)
Theorem Push_appends {T E : Type} (T_zero : T) (IndexT : index_type)
    (BufferSize : Z) (rb : Ringbuffer) (v : T) (f : callable (T:=T) E)
    (env : E) :
  valid_config IndexT BufferSize = true ->
  wf IndexT BufferSize rb ->
  Size IndexT rb < Capacity BufferSize ->
  (exists rb',
     Push IndexT BufferSize rb v = (rb', true) /\
     elements T_zero IndexT BufferSize rb'
     = elements T_zero IndexT BufferSize rb ++ [v] /\
     Size IndexT rb' = Size IndexT rb + 1) /\
  (exists rb',
     PushFromCallback IndexT BufferSize rb f env = (rb', snd (f env), true) /\
     elements T_zero IndexT BufferSize rb'
     = elements T_zero IndexT BufferSize rb ++ [fst (f env)] /\
     Size IndexT rb' = Size IndexT rb + 1).
Proof.
  intros Hcfg Hwf Hsz. unfold Capacity in Hsz.
  destruct (Repr_of_wf T_zero _ _ Hcfg rb Hwf) as (hist & P & HR); [lia|].
  pose proof HR as (_ & Hb & _).
  rewrite (Repr_Size _ _ Hcfg _ _ _ HR) in *.
  rewrite (elements_Repr T_zero _ _ Hcfg _ _ _ HR).
  split.
  - destruct (PushImpl_spec _ _ Hcfg rb hist P v HR Hsz) as (rb' & Hp & HR').
    exists rb'. split; [done|].
    rewrite (elements_Repr T_zero _ _ Hcfg _ _ _ HR'),
      (Repr_Size _ _ Hcfg _ _ _ HR'), length_app.
    split; [by rewrite drop_app_le by lia | simpl; lia].
  - destruct (PushFromCallback_spec _ _ Hcfg rb hist P f env HR Hsz)
      as (rb' & Hp & HR').
    exists rb'. split; [done|].
    rewrite (elements_Repr T_zero _ _ Hcfg _ _ _ HR'),
      (Repr_Size _ _ Hcfg _ _ _ HR'), length_app.
    split; [by rewrite drop_app_le by lia | simpl; lia].
Qed.

Lemma Push_appends_witness :
  valid_config uint8_t 4 = true /\
  wf uint8_t 4 rb_255 /\
  Size uint8_t rb_255 < Capacity 4 /\
  (exists rb',
     Push uint8_t 4 rb_255 7 = (rb', true) /\
     elements 0 uint8_t 4 rb' = elements 0 uint8_t 4 rb_255 ++ [7] /\
     Size uint8_t rb' = Size uint8_t rb_255 + 1) /\
  (exists rb',
     PushFromCallback uint8_t 4 rb_255 (fun n : Z => (n, n + 1)) 8
     = (rb', snd (8, 8 + 1), true) /\
     elements 0 uint8_t 4 rb'
     = elements 0 uint8_t 4 rb_255 ++ [fst (8, 8 + 1)] /\
     Size uint8_t rb' = Size uint8_t rb_255 + 1).
Proof.
  assert (H1 : valid_config uint8_t 4 = true) by reflexivity.
  assert (H2 : wf uint8_t 4 rb_255)
    by (unfold wf; vm_compute; intuition congruence).
  assert (H3 : Size uint8_t rb_255 < Capacity 4) by (vm_compute; congruence).
  repeat (split; [assumption|]).
  exact (Push_appends 0 uint8_t 4 rb_255 7 (fun n : Z => (n, n + 1)) 8
           H1 H2 H3).
Defined.

(** X5: on a buffer that is not empty and within its capacity, in every
    index type, [Pop] succeeds, returns the oldest element and leaves the
    other elements in their order. *)
Theorem Pop_removes_front {T : Type} (T_zero : T) (IndexT : index_type)
    (BufferSize : Z) (rb : Ringbuffer) (d : T) :
  valid_config IndexT BufferSize = true ->
  wf IndexT BufferSize rb ->
  0 < Size IndexT rb <= Capacity BufferSize ->
  exists rb' x,
    Pop T_zero IndexT BufferSize rb d = (rb', x, true) /\
    elements T_zero IndexT BufferSize rb
    = x :: elements T_zero IndexT BufferSize rb' /\
    Size IndexT rb' = Size IndexT rb - 1.
Proof.
  intros Hcfg Hwf Hsz. unfold Capacity in Hsz.
  destruct (Repr_of_wf T_zero _ _ Hcfg rb Hwf) as (hist & P & HR); [lia|].
  pose proof HR as (_ & Hb & _).
  rewrite (Repr_Size _ _ Hcfg _ _ _ HR) in *.
  rewrite (elements_Repr T_zero _ _ Hcfg _ _ _ HR).
  destruct (Pop_spec T_zero _ _ Hcfg rb hist P d HR)
    as (rb' & x & Hp & Hx & HR'); [lia|].
  exists rb', x. split; [done|].
  rewrite (elements_Repr T_zero _ _ Hcfg _ _ _ HR'),
    (Repr_Size _ _ Hcfg _ _ _ HR').
  split; [|lia]. rewrite (drop_S _ _ _ Hx). repeat f_equal. lia.
Qed.

Lemma Pop_removes_front_witness :
  valid_config uint8_t 4 = true /\
  wf uint8_t 4 full_wrapped_u8 /\
  0 < Size uint8_t full_wrapped_u8 <= Capacity 4 /\
  exists rb' x,
    Pop 0 uint8_t 4 full_wrapped_u8 0 = (rb', x, true) /\
    elements 0 uint8_t 4 full_wrapped_u8 = x :: elements 0 uint8_t 4 rb' /\
    Size uint8_t rb' = Size uint8_t full_wrapped_u8 - 1.
Proof.
  assert (H1 : valid_config uint8_t 4 = true) by reflexivity.
  assert (H2 : wf uint8_t 4 full_wrapped_u8)
    by (unfold wf; vm_compute; intuition congruence).
  assert (H3 : 0 < Size uint8_t full_wrapped_u8 <= Capacity 4)
    by (vm_compute; intuition congruence).
  repeat (split; [assumption|]).
  exact (Pop_removes_front 0 uint8_t 4 full_wrapped_u8 0 H1 H2 H3).
Defined.

(** X6: on a state within the capacity, in every index type,
    [PushBatch(src, n)] accepts exactly [min(n, Available())] elements and
    appends them, in order, behind the elements already in the buffer. *)
Theorem PushBatch_appends {T : Type} (T_zero : T) (IndexT : index_type)
    (BufferSize : Z) (rb : Ringbuffer) (src : list T) (n : Z) :
  valid_config IndexT BufferSize = true ->
  wf IndexT BufferSize rb ->
  Size IndexT rb <= Capacity BufferSize ->
  0 <= n < 2 ^ size_t_bits ->
  n <= Z.of_nat (length src) ->
  exists rb',
    PushBatch IndexT BufferSize rb src n
    = Ok (rb', Z.min n (Available IndexT BufferSize rb)) /\
    elements T_zero IndexT BufferSize rb'
    = elements T_zero IndexT BufferSize rb
      ++ take (Z.to_nat (Z.min n (Available IndexT BufferSize rb))) src.
Proof.
  intros Hcfg Hwf Hsz Hn Hsrc.
  destruct (Repr_of_wf T_zero _ _ Hcfg rb Hwf Hsz) as (hist & P & HR).
  pose proof HR as (_ & Hb & _).
  rewrite (Repr_Available _ _ Hcfg _ _ _ HR).
  rewrite (elements_Repr T_zero _ _ Hcfg _ _ _ HR).
  destruct (PushBatch_spec _ _ Hcfg rb hist P src n HR Hn Hsrc)
    as (rb' & Hp & HR').
  exists rb'. split; [done|].
  rewrite (elements_Repr T_zero _ _ Hcfg _ _ _ HR').
  by rewrite drop_app_le by lia.
Qed.

Lemma PushBatch_appends_witness :
  valid_config uint8_t 4 = true /\
  wf uint8_t 4 (fst (Push uint8_t 4 rb_255 7)) /\
  Size uint8_t (fst (Push uint8_t 4 rb_255 7)) <= Capacity 4 /\
  0 <= 5 < 2 ^ size_t_bits /\
  5 <= Z.of_nat (length [10; 20; 30; 40; 50]) /\
  exists rb',
    PushBatch uint8_t 4 (fst (Push uint8_t 4 rb_255 7)) [10; 20; 30; 40; 50] 5
    = Ok (rb', Z.min 5 (Available uint8_t 4 (fst (Push uint8_t 4 rb_255 7))))
    /\
    elements 0 uint8_t 4 rb'
    = elements 0 uint8_t 4 (fst (Push uint8_t 4 rb_255 7))
      ++ take (Z.to_nat
                 (Z.min 5 (Available uint8_t 4
                             (fst (Push uint8_t 4 rb_255 7)))))
           [10; 20; 30; 40; 50].
Proof.
  assert (H1 : valid_config uint8_t 4 = true) by reflexivity.
  assert (H2 : wf uint8_t 4 (fst (Push uint8_t 4 rb_255 7)))
    by (unfold wf; vm_compute; intuition congruence).
  assert (H3 : Size uint8_t (fst (Push uint8_t 4 rb_255 7)) <= Capacity 4)
    by (vm_compute; congruence).
  assert (H4 : 0 <= 5 < 2 ^ size_t_bits) by (unfold size_t_bits; lia).
  assert (H5 : 5 <= Z.of_nat (length [10; 20; 30; 40; 50]))
    by (vm_compute; congruence).
  repeat (split; [assumption|]).
  exact (PushBatch_appends 0 uint8_t 4 (fst (Push uint8_t 4 rb_255 7))
           [10; 20; 30; 40; 50] 5 H1 H2 H3 H4 H5).
Defined.

(** X7: on a state within the capacity, in every index type,
    [PopBatch(dst, n)] returns [k = min(n, Size())], writes the [k] oldest
    elements to [dst[0..k)] in order, leaves the rest of [dst] untouched
    and leaves the remaining elements in the buffer. *)
Theorem PopBatch_takes_front {T : Type} (T_zero : T) (IndexT : index_type)
    (BufferSize : Z) (rb : Ringbuffer) (dst : list T) (n : Z) :
  valid_config IndexT BufferSize = true ->
  wf IndexT BufferSize rb ->
  Size IndexT rb <= Capacity BufferSize ->
  0 <= n < 2 ^ size_t_bits ->
  n <= Z.of_nat (length dst) ->
  exists rb',
    PopBatch IndexT BufferSize rb dst n
    = Ok (rb',
          take (Z.to_nat (Z.min n (Size IndexT rb)))
            (elements T_zero IndexT BufferSize rb)
          ++ drop (Z.to_nat (Z.min n (Size IndexT rb))) dst,
          Z.min n (Size IndexT rb)) /\
    elements T_zero IndexT BufferSize rb'
    = drop (Z.to_nat (Z.min n (Size IndexT rb)))
        (elements T_zero IndexT BufferSize rb).
Proof.
  intros Hcfg Hwf Hsz Hn Hdst.
  destruct (Repr_of_wf T_zero _ _ Hcfg rb Hwf Hsz) as (hist & P & HR).
  pose proof HR as (_ & Hb & _).
  rewrite (Repr_Size _ _ Hcfg _ _ _ HR).
  rewrite (elements_Repr T_zero _ _ Hcfg _ _ _ HR).
  destruct (PopBatch_spec _ _ Hcfg rb hist P dst n HR Hn Hdst)
    as (rb' & dst' & Hp & HR' & _ & Htake & Hdrop).
  set (k := Z.min n (Z.of_nat (length hist) - P)) in *.
  exists rb'. split.
  - rewrite Hp, <- Htake, <- Hdrop, take_drop. done.
  - rewrite (elements_Repr T_zero _ _ Hcfg _ _ _ HR'), drop_drop.
    f_equal. unfold k. lia.
Qed.

Lemma PopBatch_takes_front_witness :
  valid_config uint8_t 4 = true /\
  wf uint8_t 4 full_wrapped_u8 /\
  Size uint8_t full_wrapped_u8 <= Capacity 4 /\
  0 <= 3 < 2 ^ size_t_bits /\
  3 <= Z.of_nat (length [0; 0; 0; 9; 9]) /\
  exists rb',
    PopBatch uint8_t 4 full_wrapped_u8 [0; 0; 0; 9; 9] 3
    = Ok (rb',
          take (Z.to_nat (Z.min 3 (Size uint8_t full_wrapped_u8)))
            (elements 0 uint8_t 4 full_wrapped_u8)
          ++ drop (Z.to_nat (Z.min 3 (Size uint8_t full_wrapped_u8)))
               [0; 0; 0; 9; 9],
          Z.min 3 (Size uint8_t full_wrapped_u8)) /\
    elements 0 uint8_t 4 rb'
    = drop (Z.to_nat (Z.min 3 (Size uint8_t full_wrapped_u8)))
        (elements 0 uint8_t 4 full_wrapped_u8).
Proof.
  assert (H1 : valid_config uint8_t 4 = true) by reflexivity.
  assert (H2 : wf uint8_t 4 full_wrapped_u8)
    by (unfold wf; vm_compute; intuition congruence).
  assert (H3 : Size uint8_t full_wrapped_u8 <= Capacity 4)
    by (vm_compute; congruence).
  assert (H4 : 0 <= 3 < 2 ^ size_t_bits) by (unfold size_t_bits; lia).
  assert (H5 : 3 <= Z.of_nat (length [0; 0; 0; 9; 9]))
    by (vm_compute; congruence).
  repeat (split; [assumption|]).
  exact (PopBatch_takes_front 0 uint8_t 4 full_wrapped_u8 [0; 0; 0; 9; 9] 3
           H1 H2 H3 H4 H5).
Defined.

(** ** Discarding and clearing *)

Lemma record_eta {T : Type} (rb : Ringbuffer (T:=T)) :
  rb = {| head_ := head_ rb; tail_ := tail_ rb; data_buff_ := data_buff_ rb |}.
Proof. by destruct rb. Qed.

Lemma pops_state {T : Type} (T_zero : T) (IndexT : index_type)
    (BufferSize : Z) (n : nat) : forall rb : Ringbuffer (T:=T),
  0 <= head_ rb < 2 ^ bits IndexT -> 0 <= tail_ rb < 2 ^ bits IndexT ->
  Z.of_nat n <= Size IndexT rb ->
  fst (pops T_zero IndexT BufferSize n rb)
  = {| head_ := head_ rb;
       tail_ := (tail_ rb + Z.of_nat n) mod 2 ^ bits IndexT;
       data_buff_ := data_buff_ rb |} /\
  length (snd (pops T_zero IndexT BufferSize n rb)) = n.
Proof.
  pose proof (modulus_pos IndexT) as HW.
  induction n as [|n IH]; intros rb Hh Ht Hsz.
  - simpl. rewrite Z.add_0_r, Z.mod_small by done. split; [|done].
    apply record_eta.
  - rewrite Size_value in Hsz.
    pose proof (Z.mod_pos_bound (head_ rb - tail_ rb) _ HW) as Hc.
    cbn [pops]. unfold Pop.
    destruct (Z.eqb_spec (tail_ rb) (head_ rb)) as [He|He].
    { rewrite He, Z.sub_diag, Z.mod_0_l in Hsz; lia. }
    rewrite to_index_arith. unfold to_index.
    set (rb1 := {| head_ := head_ rb;
                   tail_ := (tail_ rb + 1) mod 2 ^ bits IndexT;
                   data_buff_ := data_buff_ rb |}).
    destruct (IH rb1) as [Hst Hlen]; simpl; try done.
    { apply Z.mod_pos_bound. lia. }
    { rewrite Size_value. simpl. rewrite Zminus_mod_idemp_r.
      replace (head_ rb - (tail_ rb + 1)) with (head_ rb - tail_ rb - 1)
        by lia.
      rewrite <- Zminus_mod_idemp_l, Z.mod_small; lia. }
    destruct (pops T_zero IndexT BufferSize n rb1) as [rb2 xs].
    simpl in *. subst rb2. split; [|by rewrite Hlen].
    f_equal. rewrite Zplus_mod_idemp_l. f_equal. lia.
Qed.

(** X8: [Discard(count)] removes [k = min(count, Size())] elements and
    returns [k]; it leaves the buffer in the state in which [k] successful
    calls of [Pop] leave it, and the elements that remain are the old ones
    without the [k] oldest. *)
Theorem Discard_is_repeated_Pop {T : Type} (T_zero : T)
    (IndexT : index_type) (BufferSize : Z) (rb : Ringbuffer) (count : Z) :
  valid_config IndexT BufferSize = true ->
  wf IndexT BufferSize rb ->
  Size IndexT rb <= Capacity BufferSize ->
  0 <= count < 2 ^ size_t_bits ->
  Discard IndexT rb count
  = (fst (pops T_zero IndexT BufferSize
            (Z.to_nat (Z.min count (Size IndexT rb))) rb),
     Z.min count (Size IndexT rb)) /\
  length (snd (pops T_zero IndexT BufferSize
                 (Z.to_nat (Z.min count (Size IndexT rb))) rb))
  = Z.to_nat (Z.min count (Size IndexT rb)) /\
  elements T_zero IndexT BufferSize (fst (Discard IndexT rb count))
  = drop (Z.to_nat (Z.min count (Size IndexT rb)))
      (elements T_zero IndexT BufferSize rb).
Proof.
  intros Hcfg Hwf Hsz Hc.
  destruct (Repr_of_wf T_zero _ _ Hcfg rb Hwf Hsz) as (hist & P & HR).
  pose proof HR as (_ & Hb & _).
  pose proof Hwf as (Hh & Ht & _).
  destruct (Discard_spec _ _ Hcfg rb hist P count HR Hc) as (rb' & Hd & HR').
  rewrite (elements_Repr T_zero _ _ Hcfg _ _ _ HR).
  pose proof (Repr_Size _ _ Hcfg _ _ _ HR) as HS. rewrite HS.
  set (k := Z.min count (Z.of_nat (length hist) - P)) in *.
  destruct (pops_state T_zero IndexT BufferSize (Z.to_nat k) rb Hh Ht)
    as [Hst Hlen]; [unfold k; lia|].
  split; [|split; [done|]].
  - rewrite Hst, Z2Nat.id by (unfold k; lia).
    unfold Discard. rewrite count_index, <- Size_value, HS.
    pose proof (cfg_half _ _ Hcfg) as Hhalf.
    pose proof (modulus_le_size_t IndexT) as Hle.
    destruct HR as (_ & _ & Hcap & _).
    rewrite (to_size_t_small (_ - _)) by lia. fold k.
    destruct (Z.ltb_spec 0 k).
    + rewrite to_index_arith, (to_index_small _ k) by (unfold k in *; lia).
      done.
    + replace k with 0 by (unfold k in *; lia).
      rewrite Z.add_0_r, Z.mod_small by done.
      f_equal. apply record_eta.
  - rewrite Hd. simpl.
    rewrite (elements_Repr T_zero _ _ Hcfg _ _ _ HR'), drop_drop.
    f_equal. unfold k. lia.
Qed.

Lemma Discard_is_repeated_Pop_witness :
  valid_config uint8_t 4 = true /\
  wf uint8_t 4 full_wrapped_u8 /\
  Size uint8_t full_wrapped_u8 <= Capacity 4 /\
  0 <= 3 < 2 ^ size_t_bits /\
  Discard uint8_t full_wrapped_u8 3
  = (fst (pops 0 uint8_t 4
            (Z.to_nat (Z.min 3 (Size uint8_t full_wrapped_u8)))
            full_wrapped_u8),
     Z.min 3 (Size uint8_t full_wrapped_u8)) /\
  length (snd (pops 0 uint8_t 4
                 (Z.to_nat (Z.min 3 (Size uint8_t full_wrapped_u8)))
                 full_wrapped_u8))
  = Z.to_nat (Z.min 3 (Size uint8_t full_wrapped_u8)) /\
  elements 0 uint8_t 4 (fst (Discard uint8_t full_wrapped_u8 3))
  = drop (Z.to_nat (Z.min 3 (Size uint8_t full_wrapped_u8)))
      (elements 0 uint8_t 4 full_wrapped_u8).
Proof.
  assert (H1 : valid_config uint8_t 4 = true) by reflexivity.
  assert (H2 : wf uint8_t 4 full_wrapped_u8)
    by (unfold wf; vm_compute; intuition congruence).
  assert (H3 : Size uint8_t full_wrapped_u8 <= Capacity 4)
    by (vm_compute; congruence).
  assert (H4 : 0 <= 3 < 2 ^ size_t_bits) by (unfold size_t_bits; lia).
  repeat (split; [assumption|]).
  exact (Discard_is_repeated_Pop 0 uint8_t 4 full_wrapped_u8 3 H1 H2 H3 H4).
Defined.

(** X9: [ConsumerClear()] leaves exactly the state [Discard(Size())]
    leaves, in every state and every index type, and the buffer is empty
    afterwards. *)
Theorem ConsumerClear_is_Discard_all {T : Type} (IndexT : index_type)
    (BufferSize : Z) (rb : Ringbuffer (T:=T)) :
  wf IndexT BufferSize rb ->
  ConsumerClear rb = fst (Discard IndexT rb (Size IndexT rb)) /\
  IsEmpty IndexT (ConsumerClear rb) = true.
Proof.
  intros (Hh & Ht & _). split; cycle 1.
  { unfold IsEmpty, Size, ConsumerClear. simpl. rewrite Z.sub_diag.
    by destruct IndexT. }
  pose proof (modulus_pos IndexT) as HW.
  pose proof (modulus_le_size_t IndexT) as Hle.
  unfold Discard. rewrite count_index, Size_value.
  pose proof (Z.mod_pos_bound (head_ rb - tail_ rb) _ HW) as Hc.
  set (c := (head_ rb - tail_ rb) mod 2 ^ bits IndexT) in *.
  rewrite (to_size_t_small c), Z.min_id by lia.
  unfold ConsumerClear.
  destruct (Z.ltb_spec 0 c); simpl.
  - f_equal. rewrite to_index_arith, (to_index_small _ c) by lia.
    unfold to_index, c. rewrite Zplus_mod_idemp_r.
    replace (tail_ rb + (head_ rb - tail_ rb)) with (head_ rb) by lia.
    symmetry. by apply Z.mod_small.
  - assert (Heq : head_ rb - tail_ rb = 0).
    { apply (mod_zero_small (2 ^ bits IndexT)); [lia | lia |]. fold c. lia. }
    destruct rb as [h t d]. simpl in *. f_equal. lia.
Qed.

Lemma ConsumerClear_is_Discard_all_witness :
  wf uint8_t 4 full_wrapped_u8 /\
  ConsumerClear full_wrapped_u8
  = fst (Discard uint8_t full_wrapped_u8 (Size uint8_t full_wrapped_u8)) /\
  IsEmpty uint8_t (ConsumerClear full_wrapped_u8) = true.
Proof.
  assert (H2 : wf uint8_t 4 full_wrapped_u8)
    by (unfold wf; vm_compute; intuition congruence).
  split; [assumption|].
  exact (ConsumerClear_is_Discard_all uint8_t 4 full_wrapped_u8 H2).
Defined.

(** ** Looking at elements without removing them *)

Lemma subscript_index {T : Type} (IndexT : index_type) (BufferSize : Z)
    (rb : Ringbuffer (T:=T)) (hist : list T) (P i : Z) :
  valid_config IndexT BufferSize = true ->
  Repr IndexT BufferSize rb hist P ->
  Z.land (to_size_t (tail_ rb + i)) (kMask IndexT BufferSize)
  = (P + i) mod BufferSize.
Proof.
  intros Hcfg (_ & _ & _ & _ & Ht & _).
  rewrite land_kMask by done. unfold to_size_t.
  rewrite Z.mod_mod_divide.
  - rewrite Ht, Zplus_mod, (mod_index_mod_size _ _ Hcfg).
    by rewrite <- Zplus_mod.
  - eapply Z.divide_trans; [apply (cfg_divides _ _ Hcfg)|].
    apply modulus_divides_size_t.
Qed.

(** X10: on a state within the capacity, in every index type, the
    unchecked [operator[]] applied to an index below [Size()] yields the
    element at that position from the front, i.e. the value the
    [index + 1]-th of the following calls of [Pop] returns; and whenever
    [At(index)] returns a pointer, it points to that same slot. *)
Theorem subscript_is_element {T : Type} (T_zero : T) (IndexT : index_type)
    (BufferSize : Z) (rb : Ringbuffer) (index : Z) :
  valid_config IndexT BufferSize = true ->
  wf IndexT BufferSize rb ->
  Size IndexT rb <= Capacity BufferSize ->
  0 <= index < Size IndexT rb ->
  elements T_zero IndexT BufferSize rb !! Z.to_nat index
  = Some (subscript T_zero IndexT BufferSize rb index) /\
  (forall s, At IndexT BufferSize rb index = Some s ->
             slot T_zero rb s = subscript T_zero IndexT BufferSize rb index).
Proof.
  intros Hcfg Hwf Hsz Hi.
  destruct (Repr_of_wf T_zero _ _ Hcfg rb Hwf Hsz) as (hist & P & HR).
  pose proof HR as (_ & Hb & _ & _ & _ & Hd).
  rewrite (Repr_Size _ _ Hcfg _ _ _ HR) in Hi.
  rewrite (elements_Repr T_zero _ _ Hcfg _ _ _ HR).
  split.
  - unfold subscript, slot.
    rewrite (subscript_index _ _ _ hist P index Hcfg HR), Hd by lia.
    rewrite lookup_drop.
    replace (Z.to_nat P + Z.to_nat index)%nat with (Z.to_nat (P + index))
      by lia.
    destruct (lookup_lt_is_Some_2 hist (Z.to_nat (P + index))) as [x Hx];
      [lia|].
    by rewrite Hx.
  - intros s Hs. unfold At in Hs. destruct (_ <=? _); [done|].
    by injection Hs as <-.
Qed.

Lemma subscript_is_element_witness :
  valid_config uint8_t 4 = true /\
  wf uint8_t 4 full_wrapped_u8 /\
  Size uint8_t full_wrapped_u8 <= Capacity 4 /\
  0 <= 3 < Size uint8_t full_wrapped_u8 /\
  elements 0 uint8_t 4 full_wrapped_u8 !! Z.to_nat 3
  = Some (subscript 0 uint8_t 4 full_wrapped_u8 3) /\
  (forall s, At uint8_t 4 full_wrapped_u8 3 = Some s ->
             slot 0 full_wrapped_u8 s = subscript 0 uint8_t 4 full_wrapped_u8 3).
Proof.
  assert (H1 : valid_config uint8_t 4 = true) by reflexivity.
  assert (H2 : wf uint8_t 4 full_wrapped_u8)
    by (unfold wf; vm_compute; intuition congruence).
  assert (H3 : Size uint8_t full_wrapped_u8 <= Capacity 4)
    by (vm_compute; congruence).
  assert (H4 : 0 <= 3 < Size uint8_t full_wrapped_u8)
    by (vm_compute; intuition congruence).
  repeat (split; [assumption|]).
  exact (subscript_is_element 0 uint8_t 4 full_wrapped_u8 3 H1 H2 H3 H4).
Defined.

(** X11: [Peek()] returns [nullptr] exactly when the buffer is empty, and
    then [Pop] fails; otherwise it points to the slot whose value the next
    [Pop] returns, which is also the value of [operator[](0)].  In an index
    type that is not promoted, [At(0)] returns the same pointer as
    [Peek()]. *)
Theorem Peek_shows_next_Pop {T : Type} (T_zero : T) (IndexT : index_type)
    (BufferSize : Z) (rb : Ringbuffer) (d : T) :
  wf IndexT BufferSize rb ->
  match Peek IndexT BufferSize rb with
  | None =>
      IsEmpty IndexT rb = true /\
      Pop T_zero IndexT BufferSize rb d = (rb, d, false)
  | Some s =>
      IsEmpty IndexT rb = false /\
      snd (Pop T_zero IndexT BufferSize rb d) = true /\
      snd (fst (Pop T_zero IndexT BufferSize rb d)) = slot T_zero rb s /\
      subscript T_zero IndexT BufferSize rb 0 = slot T_zero rb s
  end /\
  (promoted IndexT = false ->
   At IndexT BufferSize rb 0 = Peek IndexT BufferSize rb).
Proof.
  intros (Hh & Ht & _).
  pose proof (modulus_pos IndexT) as HW.
  pose proof (modulus_le_size_t IndexT) as Hle.
  assert (Hempty : (Size IndexT rb =? 0) = (tail_ rb =? head_ rb)).
  { rewrite Size_value.
    destruct (Z.eqb_spec (tail_ rb) (head_ rb)) as [->|Hne].
    - rewrite Z.sub_diag, Z.mod_0_l by lia. done.
    - apply Z.eqb_neq. intros H0. apply mod_zero_small in H0; lia. }
  split.
  - unfold Peek, Pop, IsEmpty. rewrite Hempty.
    destruct (Z.eqb_spec (tail_ rb) (head_ rb)); [done|].
    simpl. repeat split. unfold subscript.
    by rewrite Z.add_0_r, to_size_t_small by lia.
  - intros Hp. unfold At, Peek, index_arith. rewrite Hp.
    unfold to_index at 2. rewrite Z.mod_0_l by lia.
    unfold to_index. rewrite <- Size_value.
    pose proof (Z.mod_pos_bound (head_ rb - tail_ rb) _ HW) as Hc.
    rewrite <- Size_value in Hc.
    rewrite Z.add_0_r, to_size_t_small by lia.
    destruct (Z.eqb_spec (tail_ rb) (head_ rb)).
    + apply Z.eqb_eq in Hempty.
      by destruct (Z.leb_spec (Size IndexT rb) 0); [|lia].
    + apply Z.eqb_neq in Hempty.
      by destruct (Z.leb_spec (Size IndexT rb) 0); [lia|].
Qed.

Lemma Peek_shows_next_Pop_witness :
  wf uint64_t 8 rb_3_1 /\
  match Peek uint64_t 8 rb_3_1 with
  | None =>
      IsEmpty uint64_t rb_3_1 = true /\
      Pop 0 uint64_t 8 rb_3_1 0 = (rb_3_1, 0, false)
  | Some s =>
      IsEmpty uint64_t rb_3_1 = false /\
      snd (Pop 0 uint64_t 8 rb_3_1 0) = true /\
      snd (fst (Pop 0 uint64_t 8 rb_3_1 0)) = slot 0 rb_3_1 s /\
      subscript 0 uint64_t 8 rb_3_1 0 = slot 0 rb_3_1 s
  end /\
  (promoted uint64_t = false ->
   At uint64_t 8 rb_3_1 0 = Peek uint64_t 8 rb_3_1).
Proof.
  assert (H2 : wf uint64_t 8 rb_3_1)
    by (unfold wf; vm_compute; intuition congruence).
  split; [assumption|].
  exact (Peek_shows_next_Pop 0 uint64_t 8 rb_3_1 0 H2).
Defined.

(** ** Full buffers *)

(** X12: on a full buffer [Push] and [PushFromCallback] return [false],
    without changing the buffer or invoking the callable, exactly when the
    index type is not promoted to [int] or [head_] has not wrapped below
    [tail_]; in the remaining case, a [uint8_t] or [uint16_t] index with
    [head_ < tail_], both calls succeed. *)
Theorem full_buffer_rejected_iff {T E : Type} (IndexT : index_type)
    (BufferSize : Z) (rb : Ringbuffer) (v : T) (f : callable (T:=T) E)
    (env : E) :
  valid_config IndexT BufferSize = true ->
  wf IndexT BufferSize rb ->
  Size IndexT rb = Capacity BufferSize ->
  (snd (Push IndexT BufferSize rb v) = false <->
   promoted IndexT = false \/ tail_ rb <= head_ rb) /\
  (snd (PushFromCallback IndexT BufferSize rb f env) = false <->
   promoted IndexT = false \/ tail_ rb <= head_ rb) /\
  (promoted IndexT = false \/ tail_ rb <= head_ rb ->
   Push IndexT BufferSize rb v = (rb, false) /\
   PushFromCallback IndexT BufferSize rb f env = (rb, env, false)).
Proof.
  intros Hcfg Hwf Hsz.
  pose proof Hwf as (Hh & Ht & _).
  pose proof (cfg_pos _ _ Hcfg) as Hpos.
  assert (Hsound : promoted IndexT = false \/ tail_ rb <= head_ rb ->
    Push IndexT BufferSize rb v = (rb, false) /\
    PushFromCallback IndexT BufferSize rb f env = (rb, env, false)).
  { intros Hor. split.
    - by apply Push_on_full.
    - by apply PushFromCallback_on_full. }
  assert (Hbad : ~ (promoted IndexT = false \/ tail_ rb <= head_ rb) ->
    (to_size_t (index_arith IndexT (head_ rb - tail_ rb)) =? BufferSize)
    = false).
  { intros Hn. destruct (promoted IndexT) eqn:Hp; [|tauto].
    rewrite (full_test_promoted _ _ Hcfg) by done.
    apply Z.eqb_neq. lia. }
  split; [|split; [|done]].
  - split.
    + intros Hfalse.
      destruct (decide (promoted IndexT = false \/ tail_ rb <= head_ rb))
        as [|Hn]; [done|].
      unfold Push, PushImpl in Hfalse. by rewrite (Hbad Hn) in Hfalse.
    + intros Hor. by rewrite (proj1 (Hsound Hor)).
  - split.
    + intros Hfalse.
      destruct (decide (promoted IndexT = false \/ tail_ rb <= head_ rb))
        as [|Hn]; [done|].
      unfold PushFromCallback in Hfalse. rewrite (Hbad Hn) in Hfalse.
      by destruct (f env).
    + intros Hor. by rewrite (proj2 (Hsound Hor)).
Qed.

Lemma full_buffer_rejected_iff_witness :
  valid_config uint8_t 4 = true /\
  wf uint8_t 4 full_wrapped_u8 /\
  Size uint8_t full_wrapped_u8 = Capacity 4 /\
  (snd (Push uint8_t 4 full_wrapped_u8 5) = false <->
   promoted uint8_t = false \/ tail_ full_wrapped_u8 <= head_ full_wrapped_u8)
  /\
  (snd (PushFromCallback uint8_t 4 full_wrapped_u8
          (fun n : Z => (n, n + 1)) 8) = false <->
   promoted uint8_t = false \/ tail_ full_wrapped_u8 <= head_ full_wrapped_u8)
  /\
  (promoted uint8_t = false \/ tail_ full_wrapped_u8 <= head_ full_wrapped_u8
   ->
   Push uint8_t 4 full_wrapped_u8 5 = (full_wrapped_u8, false) /\
   PushFromCallback uint8_t 4 full_wrapped_u8 (fun n : Z => (n, n + 1)) 8
   = (full_wrapped_u8, 8, false)).
Proof.
  assert (H1 : valid_config uint8_t 4 = true) by reflexivity.
  assert (H2 : wf uint8_t 4 full_wrapped_u8)
    by (unfold wf; vm_compute; intuition congruence).
  assert (H3 : Size uint8_t full_wrapped_u8 = Capacity 4) by reflexivity.
  repeat (split; [assumption|]).
  exact (full_buffer_rejected_iff uint8_t 4 full_wrapped_u8 5
           (fun n : Z => (n, n + 1)) 8 H1 H2 H3).
Defined.

(** ** A new buffer *)

Lemma run_app {T : Type} (T_zero : T) (IndexT : index_type) (BufferSize : Z)
    (a b : list op) : forall rb : Ringbuffer (T:=T),
  run T_zero IndexT BufferSize (a ++ b) rb
  = match run T_zero IndexT BufferSize a rb with
    | Ok (rb1, pushed1, popped1) =>
        match run T_zero IndexT BufferSize b rb1 with
        | Ok (rb2, pushed2, popped2) =>
            Ok (rb2, pushed1 ++ pushed2, popped1 ++ popped2)
        | UB => UB
        | OutOfFuel => OutOfFuel
        end
    | UB => UB
    | OutOfFuel => OutOfFuel
    end.
Proof.
  induction a as [|o a IH]; intros rb.
  - simpl. by destruct (run _ _ _ b rb) as [[[rb2 p2] q2]| |].
  - cbn [app run]. destruct (exec _ _ _ o rb) as [[[rb1 p1] q1]| |]; try done.
    rewrite IH.
    destruct (run _ _ _ a rb1) as [[[rb2 p2] q2]| |]; try done.
    destruct (run _ _ _ b rb2) as [[[rb3 p3] q3]| |]; try done.
    by rewrite !app_assoc.
Qed.

Section NewBuffer.
Context {T : Type}.
Variable T_zero : T.
Variable IndexT : index_type.
Variable BufferSize : Z.
Hypothesis Hcfg : valid_config IndexT BufferSize = true.

Local Abbreviation Rp := (Repr (T:=T) IndexT BufferSize).
Local Abbreviation runs := (run T_zero IndexT BufferSize).

Lemma run_pushes (vs : list T) : forall rb hist P,
  Rp rb hist P ->
  Z.of_nat (length hist) - P + Z.of_nat (length vs) <= BufferSize ->
  exists rb', runs (OpPush <$> vs) rb = Ok (rb', vs, []) /\
              Rp rb' (hist ++ vs) P.
Proof using Hcfg.
  induction vs as [|v vs IH]; intros rb hist P HR Hfit.
  - exists rb. by rewrite app_nil_r.
  - simpl in Hfit.
    destruct (PushImpl_spec _ _ Hcfg rb hist P v HR) as (rb1 & Hp & HR1);
      [lia|].
    destruct (IH rb1 (hist ++ [v]) P HR1) as (rb2 & Hr & HR2).
    { rewrite length_app. simpl. lia. }
    exists rb2. rewrite fmap_cons. cbn [run exec]. unfold Push.
    rewrite Hp, Hr. split; [done|]. by rewrite <- app_assoc in HR2.
Qed.

Lemma run_pops (n : nat) : forall rb hist P,
  Rp rb hist P ->
  exists rb',
    runs (replicate n OpPop) rb
    = Ok (rb', [], take n (drop (Z.to_nat P) hist)) /\
    Rp rb' hist (P + Z.min (Z.of_nat n) (Z.of_nat (length hist) - P)).
Proof using Hcfg.
  induction n as [|n IH]; intros rb hist P HR;
    pose proof HR as (_ & Hb & _).
  - exists rb. split; [done|].
    by replace (P + Z.min (Z.of_nat 0) (Z.of_nat (length hist) - P)) with P
      by lia.
  - cbn [replicate run exec].
    destruct (Z.eq_dec P (Z.of_nat (length hist))) as [He|He].
    + rewrite (Pop_empty T_zero _ _ Hcfg rb hist P T_zero HR He).
      destruct (IH rb hist P HR) as (rb' & -> & HR').
      exists rb'. rewrite !drop_ge by lia. rewrite !take_nil.
      split; [done|].
      replace (P + Z.min (Z.of_nat (S n)) (Z.of_nat (length hist) - P))
        with (P + Z.min (Z.of_nat n) (Z.of_nat (length hist) - P)) by lia.
      done.
    + destruct (Pop_spec T_zero _ _ Hcfg rb hist P T_zero HR)
        as (rb1 & x & -> & Hx & HR1); [lia|].
      destruct (IH rb1 hist (P + 1) HR1) as (rb2 & -> & HR2).
      exists rb2. split.
      * rewrite (drop_S _ _ _ Hx). simpl. repeat f_equal. lia.
      * by replace (P + Z.min (Z.of_nat (S n)) (Z.of_nat (length hist) - P))
          with (P + 1 + Z.min (Z.of_nat n) (Z.of_nat (length hist) - (P + 1)))
          by lia.
Qed.

End NewBuffer.

(** X13: for every index type and capacity the static assertions admit, a
    newly constructed buffer accepts [BufferSize] pushes and refuses the
    next one, then returns the pushed values in order in [BufferSize] pops,
    refuses the next pop and is empty. *)
Theorem new_buffer_fill_and_drain {T : Type} (T_zero : T)
    (IndexT : index_type) (BufferSize : Z) (vs : list T) (extra : T) :
  valid_config IndexT BufferSize = true ->
  Z.of_nat (length vs) = BufferSize ->
  exists rb,
    run T_zero IndexT BufferSize
      ((OpPush <$> vs) ++ [OpPush extra] ++ replicate (S (length vs)) OpPop)
      (Ringbuffer_ctor T_zero BufferSize)
    = Ok (rb, vs, vs) /\
    IsEmpty IndexT rb = true.
Proof.
  intros Hcfg Hlen.
  pose proof (cfg_pos _ _ Hcfg) as Hpos.
  pose proof (cfg_half _ _ Hcfg) as Hhalf.
  destruct (run_pushes T_zero _ _ Hcfg vs _ [] 0 (Repr_ctor T_zero _ _ Hcfg))
    as (rb1 & Hr1 & HR1); [simpl; lia|].
  simpl in HR1.
  assert (Hfull : exec T_zero IndexT BufferSize (OpPush extra) rb1
                  = Ok (rb1, [], [])).
  { unfold exec, Push.
    rewrite (PushImpl_full _ _ Hcfg rb1 vs 0 extra HR1); [done | lia |].
    right. destruct HR1 as (_ & _ & _ & -> & -> & _).
    rewrite Z.mod_0_l by lia. apply Z.mod_pos_bound. lia. }
  destruct (run_pops T_zero _ _ Hcfg (S (length vs)) rb1 vs 0 HR1)
    as (rb2 & Hr2 & HR2).
  exists rb2. split.
  - rewrite run_app, Hr1. cbn [app run]. rewrite Hfull, Hr2.
    change (Z.to_nat 0) with 0%nat. rewrite drop_0, take_ge by lia.
    by rewrite !app_nil_r.
  - unfold IsEmpty. rewrite (Repr_Size _ _ Hcfg _ _ _ HR2).
    apply Z.eqb_eq. lia.
Qed.

Lemma new_buffer_fill_and_drain_witness :
  valid_config uint16_t 64 = true /\
  Z.of_nat (length (seqZ 0 64)) = 64 /\
  exists rb,
    run 0 uint16_t 64
      ((OpPush <$> seqZ 0 64) ++ [OpPush 999]
       ++ replicate (S (length (seqZ 0 64))) OpPop)
      (Ringbuffer_ctor 0 64)
    = Ok (rb, seqZ 0 64, seqZ 0 64) /\
    IsEmpty uint16_t rb = true.
Proof.
  assert (H1 : valid_config uint16_t 64 = true) by reflexivity.
  assert (H2 : Z.of_nat (length (seqZ 0 64)) = 64) by reflexivity.
  repeat (split; [assumption|]).
  exact (new_buffer_fill_and_drain 0 uint16_t 64 (seqZ 0 64) 999 H1 H2).
Defined.

(** ** The batch loops, one iteration at a time

    The four loops that write ([PushBatchCore] with and without callback,
    [WriteBuffImpl] with and without callback) run the same body, and so do
    the four loops that read. *)

Section Iterations.
Context {T : Type}.
Variable IndexT : index_type.
Variable BufferSize : Z.
Implicit Types (rb : Ringbuffer (T:=T)) (buf : list T).

Lemma land_mask_size_t (x : Z) :
  to_size_t (Z.land x (kMask IndexT BufferSize))
  = Z.land x (kMask IndexT BufferSize).
Proof.
  unfold to_size_t.
  rewrite <- Z.land_ones by (unfold size_t_bits; lia).
  rewrite <- Z.land_assoc. f_equal.
  rewrite Z.land_ones by (unfold size_t_bits; lia).
  apply Z.mod_small. unfold kMask.
  pose proof (to_index_range IndexT (to_size_t (BufferSize - 1))).
  pose proof (modulus_le_size_t IndexT). lia.
Qed.

Lemma PushBatch_loop_step fuel rb buf count written h :
  PushBatch_loop IndexT BufferSize (S fuel) rb buf count written h
  = if written <? count then
      match PushBatch_iteration IndexT BufferSize rb buf count written h with
      | Stop => Ok (rb, written)
      | Fail => UB
      | Continue (rb1, w1, h1) =>
          PushBatch_loop IndexT BufferSize fuel rb1 buf count w1 h1
      end
    else Ok (rb, written).
Proof.
  cbn [PushBatch_loop]. unfold PushBatch_iteration.
  destruct (written <? count); [|done].
  destruct (_ =? 0); [done|].
  destruct (memcpy _ _ _ _ _); [|done].
  by destruct (if _ <? _ then _ else _).
Qed.

Lemma utility_WriteBuffImpl_loop_step {E : Type} fuel rb buf count
    (cbo : option (notifier E)) c2c written h env :
  utility_WriteBuffImpl_loop IndexT BufferSize (S fuel) rb buf count cbo c2c
    written h env
  = if written <? count then
      match PushBatch_iteration IndexT BufferSize rb buf count written h with
      | Stop => Ok (rb, written, env)
      | Fail => UB
      | Continue (rb1, w1, h1) =>
          match cbo with
          | Some callback =>
              let '(rb', env') := callback (rb1, env) in
              if negb (c2c =? 0) && (c2c <=? w1)
              then Ok (rb', w1, env')
              else utility_WriteBuffImpl_loop IndexT BufferSize fuel rb' buf
                     count cbo c2c w1 h1 env'
          | None =>
              utility_WriteBuffImpl_loop IndexT BufferSize fuel rb1 buf
                count cbo c2c w1 h1 env
          end
      end
    else Ok (rb, written, env).
Proof.
  cbn [utility_WriteBuffImpl_loop]. unfold PushBatch_iteration, buffer_mask_.
  fold (kMask IndexT BufferSize). rewrite !land_mask_size_t.
  destruct (written <? count); [|done].
  destruct (_ =? 0); [done|].
  destruct (memcpy _ _ _ _ _); [|done].
  by destruct (if _ <? _ then _ else _).
Qed.

(** [PushBatchCore(buf, count, callback)] is [WriteBuffImpl] with a
    callback and [count_to_callback = 0]. *)
Lemma PushBatch_notify_loop_legacy {E : Type} (callback : notifier E) buf
    count fuel : forall rb written h env,
  PushBatch_notify_loop IndexT BufferSize fuel rb buf count written h
    callback env
  = utility_WriteBuffImpl_loop IndexT BufferSize fuel rb buf count
      (Some callback) 0 written h env.
Proof.
  induction fuel as [|fuel IH]; intros rb written h env; [done|].
  rewrite utility_WriteBuffImpl_loop_step.
  cbn [PushBatch_notify_loop]. unfold PushBatch_iteration.
  destruct (written <? count); [|done].
  destruct (_ =? 0); [done|].
  destruct (memcpy _ _ _ _ _); [|done].
  destruct (if _ <? _ then _ else _); [|done].
  destruct (callback _) as [rb' env']. cbn [negb andb Z.eqb]. apply IH.
Qed.

(** [PushBatchCore(buf, count)] is [WriteBuffImpl] with a null callback. *)
Lemma PushBatch_loop_legacy {E : Type} buf count c2c fuel :
  forall rb written h (env : E),
  utility_WriteBuffImpl_loop IndexT BufferSize fuel rb buf count None c2c
    written h env
  = match PushBatch_loop IndexT BufferSize fuel rb buf count written h with
    | Ok (rb', k) => Ok (rb', k, env)
    | UB => UB
    | OutOfFuel => OutOfFuel
    end.
Proof.
  induction fuel as [|fuel IH]; intros rb written h env.
  - cbn. by destruct (written <? count).
  - rewrite utility_WriteBuffImpl_loop_step, PushBatch_loop_step.
    destruct (written <? count); [|done].
    destruct (PushBatch_iteration _ _ _ _ _ _ _) as [| |[[rb1 w1] h1]];
      [done | done | apply IH].
Qed.

(** An iteration that goes on has written at least one element and not
    more than were left to write. *)
Lemma PushBatch_iteration_progress rb buf count written h rb1 w1 h1 :
  PushBatch_iteration IndexT BufferSize rb buf count written h
  = Continue (rb1, w1, h1) ->
  0 <= written < count -> count < 2 ^ size_t_bits ->
  written < w1 <= count /\
  w1 = written
       + Z.min (count - written)
           (to_index IndexT
              (to_size_t (BufferSize
                          - to_size_t (index_arith IndexT (h - tail_ rb))))).
Proof.
  unfold PushBatch_iteration. intros Hit Hw Hc.
  destruct (_ =? 0) eqn:Hsp; [done|].
  destruct (memcpy _ _ _ _ _); [|done].
  destruct (if _ <? _ then _ else _); [|done].
  injection Hit as <- <- <-.
  set (space := to_index IndexT _) in *.
  pose proof (to_index_range IndexT
                (to_size_t (BufferSize
                            - to_size_t (index_arith IndexT (h - tail_ rb)))))
    as Hr.
  fold space in Hr.
  pose proof (modulus_le_size_t IndexT) as Hle.
  apply Z.eqb_neq in Hsp.
  rewrite (to_size_t_small space) by lia.
  rewrite to_size_t_small by lia. lia.
Qed.

Lemma PushBatch_loop_ge fuel : forall rb buf count written h rb' w,
  PushBatch_loop IndexT BufferSize fuel rb buf count written h = Ok (rb', w) ->
  0 <= written -> count < 2 ^ size_t_bits ->
  written <= w.
Proof.
  induction fuel as [|fuel IH]; intros rb buf count written h rb' w Hrun Hw Hc.
  - cbn [PushBatch_loop] in Hrun.
    destruct (written <? count); [done|]. injection Hrun as _ <-. lia.
  - rewrite PushBatch_loop_step in Hrun.
    destruct (Z.ltb_spec written count); [|injection Hrun as _ <-; lia].
    destruct (PushBatch_iteration _ _ _ _ _ _ _) as [| |[[rb1 w1] h1]] eqn:Hit;
      [injection Hrun as _ <-; lia | done |].
    destruct (PushBatch_iteration_progress _ _ _ _ _ _ _ _ Hit) as (? & _);
      [lia | done |].
    apply IH in Hrun; lia.
Qed.

(** A loop that returns the value of [written] it was entered with has
    left at its first test, before any callback. *)
Lemma PushBatch_loop_stationary {E : Type} fuel rb buf count written h rb'
    (cbo : option (notifier E)) c2c env :
  PushBatch_loop IndexT BufferSize fuel rb buf count written h
  = Ok (rb', written) ->
  0 <= written -> count < 2 ^ size_t_bits ->
  rb' = rb /\
  utility_WriteBuffImpl_loop IndexT BufferSize fuel rb buf count cbo c2c
    written h env
  = Ok (rb, written, env).
Proof.
  intros Hrun Hw Hc. destruct fuel as [|fuel].
  - cbn [PushBatch_loop utility_WriteBuffImpl_loop] in *.
    destruct (written <? count); [done|]. by injection Hrun as <-.
  - rewrite PushBatch_loop_step in Hrun.
    rewrite utility_WriteBuffImpl_loop_step.
    destruct (Z.ltb_spec written count); [|by injection Hrun as <-].
    destruct (PushBatch_iteration _ _ _ _ _ _ _) as [| |[[rb1 w1] h1]] eqn:Hit;
      [by injection Hrun as <- | done |].
    destruct (PushBatch_iteration_progress _ _ _ _ _ _ _ _ Hit) as (? & _);
      [lia | done |].
    apply PushBatch_loop_ge in Hrun; lia.
Qed.

(** Whatever the callback does to the buffer, the loop ends within its
    fuel, [written] stays within [count], and the callback has run at
    least once if anything was written and at most once per element. *)
Lemma WriteBuff_loop_bounds {E : Type} (callback : notifier E) buf count c2c
    fuel : forall rb written h env (m : nat),
  0 <= written -> count < 2 ^ size_t_bits ->
  (Z.to_nat (count - written) <= fuel)%nat ->
  match utility_WriteBuffImpl_loop IndexT BufferSize fuel rb buf count
          (Some (counting callback)) c2c written h (env, m) with
  | OutOfFuel => False
  | UB => True
  | Ok (_, w, (_, m')) =>
      written <= w <= Z.max written count /\
      (m <= m')%nat /\
      Z.of_nat (m' - m) <= w - written /\
      (written < w -> (m < m')%nat)
  end.
Proof.
  induction fuel as [|fuel IH]; intros rb written h env m Hw Hc Hfuel.
  - cbn [utility_WriteBuffImpl_loop].
    destruct (Z.ltb_spec written count); [lia|]. lia.
  - rewrite utility_WriteBuffImpl_loop_step.
    destruct (Z.ltb_spec written count); [|lia].
    destruct (PushBatch_iteration _ _ _ _ _ _ _) as [| |[[rb1 w1] h1]] eqn:Hit;
      [lia | done |].
    destruct (PushBatch_iteration_progress _ _ _ _ _ _ _ _ Hit) as (? & _);
      [lia | done |].
    unfold counting at 1. destruct (callback (rb1, env)) as [rb2 env2].
    destruct (negb (c2c =? 0) && (c2c <=? w1)); [lia|].
    specialize (IH rb2 w1 h1 env2 (S m) ltac:(lia) Hc ltac:(lia)).
    destruct (utility_WriteBuffImpl_loop _ _ _ _ _ _ _ _ _ _ _)
      as [[[rb3 w3] [env3 m3]]| |]; [lia | done | done].
Qed.

End Iterations.

Section ReadIterations.
Context {T : Type}.
Variable IndexT : index_type.
Variable BufferSize : Z.
Implicit Types (rb : Ringbuffer (T:=T)) (buf : list T).

Lemma PopBatch_loop_step fuel rb buf count read t :
  PopBatch_loop IndexT BufferSize (S fuel) rb buf count read t
  = if read <? count then
      match PopBatch_iteration IndexT BufferSize rb buf count read t with
      | Stop => Ok (rb, buf, read)
      | Fail => UB
      | Continue (rb1, b1, r1, t1) =>
          PopBatch_loop IndexT BufferSize fuel rb1 b1 count r1 t1
      end
    else Ok (rb, buf, read).
Proof.
  cbn [PopBatch_loop]. unfold PopBatch_iteration.
  destruct (read <? count); [|done].
  destruct (_ =? 0); [done|].
  destruct (memcpy _ _ _ _ _); [|done].
  by destruct (if _ <? _ then _ else _).
Qed.

Lemma utility_ReadBuffImpl_loop_step {E : Type} fuel rb buf count
    (cbo : option (notifier E)) c2c read t env :
  utility_ReadBuffImpl_loop IndexT BufferSize (S fuel) rb buf count cbo c2c
    read t env
  = if read <? count then
      match PopBatch_iteration IndexT BufferSize rb buf count read t with
      | Stop => Ok (rb, buf, read, env)
      | Fail => UB
      | Continue (rb1, b1, r1, t1) =>
          match cbo with
          | Some callback =>
              let '(rb', env') := callback (rb1, env) in
              if negb (c2c =? 0) && (c2c <=? r1)
              then Ok (rb', b1, r1, env')
              else utility_ReadBuffImpl_loop IndexT BufferSize fuel rb' b1
                     count cbo c2c r1 t1 env'
          | None =>
              utility_ReadBuffImpl_loop IndexT BufferSize fuel rb1 b1
                count cbo c2c r1 t1 env
          end
      end
    else Ok (rb, buf, read, env).
Proof.
  cbn [utility_ReadBuffImpl_loop]. unfold PopBatch_iteration, buffer_mask_.
  fold (kMask IndexT BufferSize). rewrite !land_mask_size_t.
  destruct (read <? count); [|done].
  destruct (_ =? 0); [done|].
  destruct (memcpy _ _ _ _ _); [|done].
  by destruct (if _ <? _ then _ else _).
Qed.

(** [PopBatchCore(buf, count, callback)] is [ReadBuffImpl] with a callback
    and [count_to_callback = 0]. *)
Lemma PopBatch_notify_loop_legacy {E : Type} (callback : notifier E) count
    fuel : forall rb buf read t env,
  PopBatch_notify_loop IndexT BufferSize fuel rb buf count read t
    callback env
  = utility_ReadBuffImpl_loop IndexT BufferSize fuel rb buf count
      (Some callback) 0 read t env.
Proof.
  induction fuel as [|fuel IH]; intros rb buf read t env; [done|].
  rewrite utility_ReadBuffImpl_loop_step.
  cbn [PopBatch_notify_loop]. unfold PopBatch_iteration.
  destruct (read <? count); [|done].
  destruct (_ =? 0); [done|].
  destruct (memcpy _ _ _ _ _); [|done].
  destruct (if _ <? _ then _ else _); [|done].
  destruct (callback _) as [rb' env']. cbn [negb andb Z.eqb]. apply IH.
Qed.

(** [PopBatchCore(buf, count)] is [ReadBuffImpl] with a null callback. *)
Lemma PopBatch_loop_legacy {E : Type} count c2c fuel :
  forall rb buf read t (env : E),
  utility_ReadBuffImpl_loop IndexT BufferSize fuel rb buf count None c2c
    read t env
  = match PopBatch_loop IndexT BufferSize fuel rb buf count read t with
    | Ok (rb', buf', k) => Ok (rb', buf', k, env)
    | UB => UB
    | OutOfFuel => OutOfFuel
    end.
Proof.
  induction fuel as [|fuel IH]; intros rb buf read t env.
  - cbn. by destruct (read <? count).
  - rewrite utility_ReadBuffImpl_loop_step, PopBatch_loop_step.
    destruct (read <? count); [|done].
    destruct (PopBatch_iteration _ _ _ _ _ _ _) as [| |[[[rb1 b1] r1] t1]];
      [done | done | apply IH].
Qed.

Lemma PopBatch_iteration_progress rb buf count read t rb1 b1 r1 t1 :
  PopBatch_iteration IndexT BufferSize rb buf count read t
  = Continue (rb1, b1, r1, t1) ->
  0 <= read < count -> count < 2 ^ size_t_bits ->
  read < r1 <= count /\
  r1 = read
       + Z.min (count - read)
           (to_index IndexT (index_arith IndexT (head_ rb - t))).
Proof.
  unfold PopBatch_iteration. intros Hit Hw Hc.
  destruct (_ =? 0) eqn:Hsp; [done|].
  destruct (memcpy _ _ _ _ _); [|done].
  destruct (if _ <? _ then _ else _); [|done].
  injection Hit as <- <- <- <-.
  set (available := to_index IndexT _) in *.
  pose proof (to_index_range IndexT (index_arith IndexT (head_ rb - t)))
    as Hr.
  fold available in Hr.
  pose proof (modulus_le_size_t IndexT) as Hle.
  apply Z.eqb_neq in Hsp.
  rewrite (to_size_t_small available) by lia.
  rewrite to_size_t_small by lia. lia.
Qed.

Lemma PopBatch_loop_ge fuel : forall rb buf count read t rb' buf' r,
  PopBatch_loop IndexT BufferSize fuel rb buf count read t
  = Ok (rb', buf', r) ->
  0 <= read -> count < 2 ^ size_t_bits ->
  read <= r.
Proof.
  induction fuel as [|fuel IH];
    intros rb buf count read t rb' buf' r Hrun Hw Hc.
  - cbn [PopBatch_loop] in Hrun.
    destruct (read <? count); [done|]. injection Hrun as _ _ <-. lia.
  - rewrite PopBatch_loop_step in Hrun.
    destruct (Z.ltb_spec read count); [|injection Hrun as _ _ <-; lia].
    destruct (PopBatch_iteration _ _ _ _ _ _ _)
      as [| |[[[rb1 b1] r1] t1]] eqn:Hit;
      [injection Hrun as _ _ <-; lia | done |].
    destruct (PopBatch_iteration_progress _ _ _ _ _ _ _ _ _ Hit) as (? & _);
      [lia | done |].
    apply IH in Hrun; lia.
Qed.

Lemma PopBatch_loop_stationary {E : Type} fuel rb buf count read t rb' buf'
    (cbo : option (notifier E)) c2c env :
  PopBatch_loop IndexT BufferSize fuel rb buf count read t
  = Ok (rb', buf', read) ->
  0 <= read -> count < 2 ^ size_t_bits ->
  rb' = rb /\ buf' = buf /\
  utility_ReadBuffImpl_loop IndexT BufferSize fuel rb buf count cbo c2c
    read t env
  = Ok (rb, buf, read, env).
Proof.
  intros Hrun Hw Hc. destruct fuel as [|fuel].
  - cbn [PopBatch_loop utility_ReadBuffImpl_loop] in *.
    destruct (read <? count); [done|]. by injection Hrun as <- <-.
  - rewrite PopBatch_loop_step in Hrun.
    rewrite utility_ReadBuffImpl_loop_step.
    destruct (Z.ltb_spec read count); [|by injection Hrun as <- <-].
    destruct (PopBatch_iteration _ _ _ _ _ _ _)
      as [| |[[[rb1 b1] r1] t1]] eqn:Hit;
      [by injection Hrun as <- <- | done |].
    destruct (PopBatch_iteration_progress _ _ _ _ _ _ _ _ _ Hit) as (? & _);
      [lia | done |].
    apply PopBatch_loop_ge in Hrun; lia.
Qed.

Lemma ReadBuff_loop_bounds {E : Type} (callback : notifier E) count c2c
    fuel : forall rb buf read t env (m : nat),
  0 <= read -> count < 2 ^ size_t_bits ->
  (Z.to_nat (count - read) <= fuel)%nat ->
  match utility_ReadBuffImpl_loop IndexT BufferSize fuel rb buf count
          (Some (counting callback)) c2c read t (env, m) with
  | OutOfFuel => False
  | UB => True
  | Ok (_, _, r, (_, m')) =>
      read <= r <= Z.max read count /\
      (m <= m')%nat /\
      Z.of_nat (m' - m) <= r - read /\
      (read < r -> (m < m')%nat)
  end.
Proof.
  induction fuel as [|fuel IH]; intros rb buf read t env m Hw Hc Hfuel.
  - cbn [utility_ReadBuffImpl_loop].
    destruct (Z.ltb_spec read count); [lia|]. lia.
  - rewrite utility_ReadBuffImpl_loop_step.
    destruct (Z.ltb_spec read count); [|lia].
    destruct (PopBatch_iteration _ _ _ _ _ _ _)
      as [| |[[[rb1 b1] r1] t1]] eqn:Hit;
      [lia | done |].
    destruct (PopBatch_iteration_progress _ _ _ _ _ _ _ _ _ Hit) as (? & _);
      [lia | done |].
    unfold counting at 1. destruct (callback (rb1, env)) as [rb2 env2].
    destruct (negb (c2c =? 0) && (c2c <=? r1)); [lia|].
    specialize (IH rb2 b1 r1 t1 env2 (S m) ltac:(lia) Hc ltac:(lia)).
    destruct (utility_ReadBuffImpl_loop _ _ _ _ _ _ _ _ _ _ _)
      as [[[[rb3 b3] r3] [env3 m3]]| |]; [lia | done | done].
Qed.

End ReadIterations.

(** ** Batches with a callback that leaves the buffer alone *)

Section QuietCallback.
Context {T E : Type}.
Variable IndexT : index_type.
Variable BufferSize : Z.
Hypothesis Hcfg : valid_config IndexT BufferSize = true.
Variable callback : notifier (T:=T) E.
Hypothesis Hquiet : forall rb e, fst (callback (rb, e)) = rb.

Local Abbreviation Rq := (Repr (T:=T) IndexT BufferSize).
Implicit Types (rb : Ringbuffer (T:=T)) (hist buf : list T).

Lemma WriteBuff_quiet rb hist P buf count c2c env :
  Rq rb hist P ->
  0 <= count < 2 ^ size_t_bits -> count <= Z.of_nat (length buf) ->
  let k := Z.min count (BufferSize - (Z.of_nat (length hist) - P)) in
  exists rb',
    PushBatch IndexT BufferSize rb buf count = Ok (rb', k) /\
    utility_WriteBuffImpl IndexT BufferSize rb buf count (Some callback)
      c2c env
    = Ok (rb', k, if 0 <? k then snd (callback (rb', env)) else env).
Proof using Hcfg Hquiet.
  intros HR Hc Hbuf k.
  destruct (PushBatch_spec _ _ Hcfg rb hist P buf count HR Hc Hbuf)
    as (rb' & Hp & _).
  fold k in Hp. exists rb'. split; [done|].
  pose proof (Repr_Available _ _ Hcfg _ _ _ HR) as Hav.
  unfold Available in Hav.
  unfold PushBatch, PushBatchCore in Hp. unfold utility_WriteBuffImpl.
  destruct (Z.to_nat count) as [|fuel] eqn:Hf.
  - assert (count = 0) by lia. subst count. cbn in Hp |- *.
    injection Hp as <- <-. done.
  - rewrite PushBatch_loop_step in Hp. rewrite utility_WriteBuffImpl_loop_step.
    destruct (Z.ltb_spec 0 count); [|lia].
    destruct (PushBatch_iteration _ _ _ _ _ _ _) as [| |[[rb1 w1] h1]] eqn:Hit.
    + injection Hp as <- <-. done.
    + done.
    + destruct (PushBatch_iteration_progress _ _ _ _ _ _ _ _ _ _ Hit)
        as (Hw1 & Hw1'); [lia | lia |].
      rewrite Hav in Hw1'.
      assert (Hk : w1 = k) by (unfold k; lia). clear Hw1'. subst w1.
      destruct (PushBatch_loop_stationary _ _ fuel rb1 buf count k h1 rb'
                  (Some callback) c2c (snd (callback (rb1, env))) Hp)
        as (-> & Hst); [lia | lia |].
      pose proof (Hquiet rb1 env) as Hq.
      destruct (callback (rb1, env)) as [rb2 env2]. simpl in Hq, Hst.
      subst rb2. destruct (Z.ltb_spec 0 k); [|lia].
      by destruct (negb (c2c =? 0) && (c2c <=? k)).
Qed.

Lemma ReadBuff_quiet rb hist P buf count c2c env :
  Rq rb hist P ->
  0 <= count < 2 ^ size_t_bits -> count <= Z.of_nat (length buf) ->
  let k := Z.min count (Z.of_nat (length hist) - P) in
  exists rb' buf',
    PopBatch IndexT BufferSize rb buf count = Ok (rb', buf', k) /\
    utility_ReadBuffImpl IndexT BufferSize rb buf count (Some callback)
      c2c env
    = Ok (rb', buf', k, if 0 <? k then snd (callback (rb', env)) else env).
Proof using Hcfg Hquiet.
  intros HR Hc Hbuf k.
  destruct (PopBatch_spec _ _ Hcfg rb hist P buf count HR Hc Hbuf)
    as (rb' & buf' & Hp & _).
  fold k in Hp. exists rb', buf'. split; [done|].
  pose proof (Repr_Size _ _ Hcfg _ _ _ HR) as Hsz.
  unfold Size in Hsz.
  unfold PopBatch, PopBatchCore in Hp. unfold utility_ReadBuffImpl.
  destruct (Z.to_nat count) as [|fuel] eqn:Hf.
  - assert (count = 0) by lia. subst count. cbn in Hp |- *.
    injection Hp as <- <- <-. done.
  - rewrite PopBatch_loop_step in Hp. rewrite utility_ReadBuffImpl_loop_step.
    destruct (Z.ltb_spec 0 count); [|lia].
    destruct (PopBatch_iteration _ _ _ _ _ _ _)
      as [| |[[[rb1 b1] r1] t1]] eqn:Hit.
    + injection Hp as <- <- <-. done.
    + done.
    + destruct (PopBatch_iteration_progress _ _ _ _ _ _ _ _ _ _ _ Hit)
        as (Hr1 & Hr1'); [lia | lia |].
      rewrite Hsz in Hr1'.
      assert (Hk : r1 = k) by (unfold k; lia). clear Hr1'. subst r1.
      destruct (PopBatch_loop_stationary _ _ fuel rb1 b1 count k t1 rb' buf'
                  (Some callback) c2c (snd (callback (rb1, env))) Hp)
        as (-> & -> & Hst); [lia | lia |].
      pose proof (Hquiet rb1 env) as Hq.
      destruct (callback (rb1, env)) as [rb2 env2]. simpl in Hq, Hst.
      subst rb2. destruct (Z.ltb_spec 0 k); [|lia].
      by destruct (negb (c2c =? 0) && (c2c <=? k)).
Qed.

End QuietCallback.

(** X14: on a state within the capacity, in every index type, a batch push
    with a callback that does not touch the buffer (a notification, as in
    the tests) stores what the call without callback stores, returns
    [min(n, Available())], and has run the callback exactly once if this
    number is positive and not at all if it is zero.  The same holds for
    [WriteBuff] of the original class with a callback, whatever
    [count_to_callback] is. *)
Theorem PushBatch_quiet_callback {T E : Type} (T_zero : T)
    (IndexT : index_type) (BufferSize : Z) (rb : Ringbuffer) (src : list T)
    (n count_to_callback : Z) (callback : notifier E) (env : E) :
  valid_config IndexT BufferSize = true ->
  wf IndexT BufferSize rb ->
  Size IndexT rb <= Capacity BufferSize ->
  0 <= n < 2 ^ size_t_bits ->
  n <= Z.of_nat (length src) ->
  (forall rb0 e, fst (callback (rb0, e)) = rb0) ->
  exists rb',
    PushBatch IndexT BufferSize rb src n
    = Ok (rb', Z.min n (Available IndexT BufferSize rb)) /\
    PushBatch_notify IndexT BufferSize rb src n callback env
    = Ok (rb', Z.min n (Available IndexT BufferSize rb),
          if 0 <? Z.min n (Available IndexT BufferSize rb)
          then snd (callback (rb', env)) else env) /\
    utility_WriteBuff_callback IndexT BufferSize rb src n count_to_callback
      (Some callback) env
    = Ok (rb', Z.min n (Available IndexT BufferSize rb),
          if 0 <? Z.min n (Available IndexT BufferSize rb)
          then snd (callback (rb', env)) else env).
Proof.
  intros Hcfg Hwf Hsz Hn Hsrc Hquiet.
  destruct (Repr_of_wf T_zero _ _ Hcfg rb Hwf Hsz) as (hist & P & HR).
  rewrite (Repr_Available _ _ Hcfg _ _ _ HR).
  destruct (WriteBuff_quiet _ _ Hcfg callback Hquiet rb hist P src n 0 env
              HR Hn Hsrc) as (rb' & Hp & H0).
  destruct (WriteBuff_quiet _ _ Hcfg callback Hquiet rb hist P src n
              count_to_callback env HR Hn Hsrc) as (rb'' & Hp' & Hc).
  rewrite Hp in Hp'. injection Hp' as <-.
  exists rb'. split; [done|]. split; [|done].
  unfold PushBatch_notify, PushBatchCore_notify.
  rewrite PushBatch_notify_loop_legacy. exact H0.
Qed.

Lemma PushBatch_quiet_callback_witness :
  valid_config uint64_t 16 = true /\
  wf uint64_t 16 (Ringbuffer_ctor 0 16) /\
  Size uint64_t (Ringbuffer_ctor 0 16) <= Capacity 16 /\
  0 <= 16 < 2 ^ size_t_bits /\
  16 <= Z.of_nat (length (seqZ 0 16)) /\
  (forall rb0 e, fst (count_calls (rb0, e)) = rb0) /\
  exists rb',
    PushBatch uint64_t 16 (Ringbuffer_ctor 0 16) (seqZ 0 16) 16
    = Ok (rb', 16) /\
    PushBatch_notify uint64_t 16 (Ringbuffer_ctor 0 16) (seqZ 0 16) 16
      count_calls 0%nat
    = Ok (rb', 16, 1%nat) /\
    IsFull uint64_t 16 rb' = true.
Proof.
  assert (H1 : valid_config uint64_t 16 = true) by reflexivity.
  assert (H2 : wf uint64_t 16 (Ringbuffer_ctor 0 16))
    by (unfold wf; vm_compute; intuition congruence).
  assert (H3 : Size uint64_t (Ringbuffer_ctor 0 16) <= Capacity 16)
    by (vm_compute; congruence).
  assert (H4 : 0 <= 16 < 2 ^ size_t_bits) by (unfold size_t_bits; lia).
  assert (H5 : 16 <= Z.of_nat (length (seqZ 0 16)))
    by (vm_compute; congruence).
  assert (H6 : forall (rb0 : Ringbuffer (T:=Z)) (e : nat),
             fst (count_calls (rb0, e)) = rb0) by reflexivity.
  repeat (split; [assumption|]).
  destruct (PushBatch_quiet_callback 0 uint64_t 16 (Ringbuffer_ctor 0 16)
              (seqZ 0 16) 16 0 count_calls 0%nat H1 H2 H3 H4 H5 H6)
    as (rb' & Hp & Hn & _).
  exists rb'. split; [exact Hp|]. split; [exact Hn|].
  vm_compute in Hp. injection Hp as <-. reflexivity.
Defined.

(** X15: the same for a batch pop: with a callback that does not touch the
    buffer, [PopBatch(dst, n, callback)] and [ReadBuff] of the original
    class return [min(n, Size())] and the array and the state the call
    without callback returns, and have run the callback exactly once if
    this number is positive and not at all if it is zero. *)
Theorem PopBatch_quiet_callback {T E : Type} (T_zero : T)
    (IndexT : index_type) (BufferSize : Z) (rb : Ringbuffer) (dst : list T)
    (n count_to_callback : Z) (callback : notifier E) (env : E) :
  valid_config IndexT BufferSize = true ->
  wf IndexT BufferSize rb ->
  Size IndexT rb <= Capacity BufferSize ->
  0 <= n < 2 ^ size_t_bits ->
  n <= Z.of_nat (length dst) ->
  (forall rb0 e, fst (callback (rb0, e)) = rb0) ->
  exists rb' dst',
    PopBatch IndexT BufferSize rb dst n
    = Ok (rb', dst', Z.min n (Size IndexT rb)) /\
    PopBatch_notify IndexT BufferSize rb dst n callback env
    = Ok (rb', dst', Z.min n (Size IndexT rb),
          if 0 <? Z.min n (Size IndexT rb)
          then snd (callback (rb', env)) else env) /\
    utility_ReadBuff_callback IndexT BufferSize rb dst n count_to_callback
      (Some callback) env
    = Ok (rb', dst', Z.min n (Size IndexT rb),
          if 0 <? Z.min n (Size IndexT rb)
          then snd (callback (rb', env)) else env).
Proof.
  intros Hcfg Hwf Hsz Hn Hdst Hquiet.
  destruct (Repr_of_wf T_zero _ _ Hcfg rb Hwf Hsz) as (hist & P & HR).
  rewrite (Repr_Size _ _ Hcfg _ _ _ HR).
  destruct (ReadBuff_quiet _ _ Hcfg callback Hquiet rb hist P dst n 0 env
              HR Hn Hdst) as (rb' & dst' & Hp & H0).
  destruct (ReadBuff_quiet _ _ Hcfg callback Hquiet rb hist P dst n
              count_to_callback env HR Hn Hdst) as (rb'' & dst'' & Hp' & Hc).
  rewrite Hp in Hp'. injection Hp' as <- <-.
  exists rb', dst'. split; [done|]. split; [|done].
  unfold PopBatch_notify, PopBatchCore_notify.
  rewrite PopBatch_notify_loop_legacy. exact H0.
Qed.

Lemma PopBatch_quiet_callback_witness :
  valid_config uint8_t 4 = true /\
  wf uint8_t 4 full_wrapped_u8 /\
  Size uint8_t full_wrapped_u8 <= Capacity 4 /\
  0 <= 8 < 2 ^ size_t_bits /\
  8 <= Z.of_nat (length (replicate 8 0)) /\
  (forall rb0 e, fst (count_calls (rb0, e)) = rb0) /\
  exists rb' dst',
    PopBatch_notify uint8_t 4 full_wrapped_u8 (replicate 8 0) 8
      count_calls 0%nat
    = Ok (rb', dst', 4, 1%nat) /\
    dst' = [1001; 1002; 1003; 1004; 0; 0; 0; 0].
Proof.
  assert (H1 : valid_config uint8_t 4 = true) by reflexivity.
  assert (H2 : wf uint8_t 4 full_wrapped_u8)
    by (unfold wf; vm_compute; intuition congruence).
  assert (H3 : Size uint8_t full_wrapped_u8 <= Capacity 4)
    by (vm_compute; congruence).
  assert (H4 : 0 <= 8 < 2 ^ size_t_bits) by (unfold size_t_bits; lia).
  assert (H5 : 8 <= Z.of_nat (length (replicate 8 0)))
    by (vm_compute; congruence).
  assert (H6 : forall (rb0 : Ringbuffer (T:=Z)) (e : nat),
             fst (count_calls (rb0, e)) = rb0) by reflexivity.
  repeat (split; [assumption|]).
  destruct (PopBatch_quiet_callback 0 uint8_t 4 full_wrapped_u8
              (replicate 8 0) 8 0 count_calls 0%nat H1 H2 H3 H4 H5 H6)
    as (rb' & dst' & Hp & Hn & _).
  exists rb', dst'. split; [exact Hn|].
  vm_compute in Hp. injection Hp as _ <-. reflexivity.
Defined.

(** X16: whatever the callback does, also if it pushes to or pops from the
    buffer it is called from, and whatever the state, the batch calls with
    a callback end: the loop makes at most [count] passes.  If no copy has
    left an array, the returned number is within [0, count], the callback
    has run at most once per element transferred, and at least once if
    anything was transferred.  This holds for [PushBatch] and [PopBatch]
    with a callback and for [WriteBuff] and [ReadBuff] of the original
    class with any [count_to_callback]. *)
Theorem batch_callback_bounds {T E : Type} (IndexT : index_type)
    (BufferSize : Z) (rb : Ringbuffer (T:=T)) (buf : list T)
    (count count_to_callback : Z) (callback : notifier E) (env : E) :
  0 <= count < 2 ^ size_t_bits ->
  match PushBatch_notify IndexT BufferSize rb buf count
          (counting callback) (env, 0%nat) with
  | OutOfFuel => False
  | UB => True
  | Ok (_, written, (_, calls)) =>
      0 <= written <= count /\ Z.of_nat calls <= written /\
      (0 < written -> (1 <= calls)%nat)
  end /\
  match PopBatch_notify IndexT BufferSize rb buf count
          (counting callback) (env, 0%nat) with
  | OutOfFuel => False
  | UB => True
  | Ok (_, _, read, (_, calls)) =>
      0 <= read <= count /\ Z.of_nat calls <= read /\
      (0 < read -> (1 <= calls)%nat)
  end /\
  match utility_WriteBuff_callback IndexT BufferSize rb buf count
          count_to_callback (Some (counting callback)) (env, 0%nat) with
  | OutOfFuel => False
  | UB => True
  | Ok (_, written, (_, calls)) =>
      0 <= written <= count /\ Z.of_nat calls <= written /\
      (0 < written -> (1 <= calls)%nat)
  end /\
  match utility_ReadBuff_callback IndexT BufferSize rb buf count
          count_to_callback (Some (counting callback)) (env, 0%nat) with
  | OutOfFuel => False
  | UB => True
  | Ok (_, _, read, (_, calls)) =>
      0 <= read <= count /\ Z.of_nat calls <= read /\
      (0 < read -> (1 <= calls)%nat)
  end.
Proof.
  intros Hc.
  unfold PushBatch_notify, PushBatchCore_notify, PopBatch_notify,
    PopBatchCore_notify, utility_WriteBuff_callback, utility_WriteBuffImpl,
    utility_ReadBuff_callback, utility_ReadBuffImpl.
  rewrite PushBatch_notify_loop_legacy, PopBatch_notify_loop_legacy.
  split; [|split; [|split]].
  - pose proof (WriteBuff_loop_bounds IndexT BufferSize callback buf count 0
                  (Z.to_nat count) rb 0 (head_ rb) env 0%nat
                  ltac:(lia) ltac:(lia) ltac:(lia)) as Hb.
    destruct (utility_WriteBuffImpl_loop _ _ _ _ _ _ _ _ _ _ _)
      as [[[rb' w] [env' m']]| |]; [lia | done | done].
  - pose proof (ReadBuff_loop_bounds IndexT BufferSize callback count 0
                  (Z.to_nat count) rb buf 0 (tail_ rb) env 0%nat
                  ltac:(lia) ltac:(lia) ltac:(lia)) as Hb.
    destruct (utility_ReadBuffImpl_loop _ _ _ _ _ _ _ _ _ _ _)
      as [[[[rb' b'] r] [env' m']]| |]; [lia | done | done].
  - pose proof (WriteBuff_loop_bounds IndexT BufferSize callback buf count
                  count_to_callback (Z.to_nat count) rb 0 (head_ rb) env
                  0%nat ltac:(lia) ltac:(lia) ltac:(lia)) as Hb.
    destruct (utility_WriteBuffImpl_loop _ _ _ _ _ _ _ _ _ _ _)
      as [[[rb' w] [env' m']]| |]; [lia | done | done].
  - pose proof (ReadBuff_loop_bounds IndexT BufferSize callback count
                  count_to_callback (Z.to_nat count) rb buf 0 (tail_ rb) env
                  0%nat ltac:(lia) ltac:(lia) ltac:(lia)) as Hb.
    destruct (utility_ReadBuffImpl_loop _ _ _ _ _ _ _ _ _ _ _)
      as [[[[rb' b'] r] [env' m']]| |]; [lia | done | done].
Qed.

Lemma batch_callback_bounds_witness :
  0 <= 10 < 2 ^ size_t_bits /\
  match PushBatch_notify uint8_t 4 rb_u8 (seqZ 0 10) 10
          (counting (drain 0 uint8_t 4)) ([], 0%nat) with
  | OutOfFuel => False
  | UB => True
  | Ok (_, written, (_, calls)) =>
      0 <= written <= 10 /\ Z.of_nat calls <= written /\
      (0 < written -> (1 <= calls)%nat)
  end.
Proof.
  assert (H1 : 0 <= 10 < 2 ^ size_t_bits) by (unfold size_t_bits; lia).
  split; [assumption|].
  exact (proj1 (batch_callback_bounds uint8_t 4 rb_u8 (seqZ 0 10) 10 0
                  (drain 0 uint8_t 4) [] H1)).
Defined.

(** X17: on every state and for every argument, each operation of
    [spsc::Ringbuffer] other than [ProducerClear] returns and stores what
    its predecessor in [utility::Ringbuffer] returns and stores:
    [Insert]/[Push], [InsertFromCallbackWhenAvailable]/[PushFromCallback],
    [Remove]/[Pop], [Remove(cnt)]/[Discard], [Peek], [At], [operator[]],
    [ConsumerClear], [ReadAvailable]/[Size], [WriteAvailable]/[Available],
    [IsEmpty], [IsFull], [WriteBuff]/[PushBatch] and [ReadBuff]/[PopBatch],
    the last two also with a callback when [count_to_callback] is 0.
    [Remove()] without argument is [Pop] without the copy. *)
Theorem spsc_agrees_with_utility {T E : Type} (T_zero : T)
    (IndexT : index_type) (BufferSize : Z) (rb : Ringbuffer (T:=T)) :
  (forall data, utility_Insert IndexT BufferSize rb data
                = Push IndexT BufferSize rb data) /\
  (forall (f : callable E) env,
     utility_InsertFromCallbackWhenAvailable IndexT BufferSize rb f env
     = PushFromCallback IndexT BufferSize rb f env) /\
  (forall data, utility_Remove T_zero IndexT BufferSize rb data
                = Pop T_zero IndexT BufferSize rb data) /\
  (forall data,
     utility_Remove_one IndexT rb
     = (fst (fst (Pop T_zero IndexT BufferSize rb data)),
        snd (Pop T_zero IndexT BufferSize rb data))) /\
  (forall cnt, utility_Remove_count IndexT rb cnt = Discard IndexT rb cnt) /\
  utility_Peek IndexT BufferSize rb = Peek IndexT BufferSize rb /\
  (forall index, utility_At IndexT BufferSize rb index
                 = At IndexT BufferSize rb index) /\
  (forall index, utility_subscript T_zero IndexT BufferSize rb index
                 = subscript T_zero IndexT BufferSize rb index) /\
  utility_ConsumerClear rb = ConsumerClear rb /\
  utility_ReadAvailable IndexT rb = Size IndexT rb /\
  utility_WriteAvailable IndexT BufferSize rb
  = Available IndexT BufferSize rb /\
  utility_IsEmpty IndexT rb = IsEmpty IndexT rb /\
  utility_IsFull IndexT BufferSize rb = IsFull IndexT BufferSize rb /\
  (forall buf count,
     utility_WriteBuff IndexT BufferSize rb buf count
     = match PushBatch IndexT BufferSize rb buf count with
       | Ok (rb', written) => Ok (rb', written, tt)
       | UB => UB
       | OutOfFuel => OutOfFuel
       end) /\
  (forall buf count,
     utility_ReadBuff IndexT BufferSize rb buf count
     = match PopBatch IndexT BufferSize rb buf count with
       | Ok (rb', buf', read) => Ok (rb', buf', read, tt)
       | UB => UB
       | OutOfFuel => OutOfFuel
       end) /\
  (forall buf count (callback : notifier E) env,
     utility_WriteBuff_callback IndexT BufferSize rb buf count 0
       (Some callback) env
     = PushBatch_notify IndexT BufferSize rb buf count callback env) /\
  (forall buf count (callback : notifier E) env,
     utility_ReadBuff_callback IndexT BufferSize rb buf count 0
       (Some callback) env
     = PopBatch_notify IndexT BufferSize rb buf count callback env).
Proof.
  repeat match goal with |- _ /\ _ => split end; try reflexivity.
  - intros data. unfold utility_Remove_one, Pop.
    by destruct (tail_ rb =? head_ rb).
  - intros buf count. apply PushBatch_loop_legacy.
  - intros buf count. apply PopBatch_loop_legacy.
  - intros buf count callback env. symmetry. apply PushBatch_notify_loop_legacy.
  - intros buf count callback env. symmetry. apply PopBatch_notify_loop_legacy.
Qed.

(** X18: [WriteBuff] and [ReadBuff] of the original class with a callback
    and a [count_to_callback] that the first pass reaches
    ([0 < count_to_callback <= min(count, WriteAvailable())], respectively
    [ReadAvailable()]) make exactly one pass: they transfer what the call
    without callback transfers, run the callback once and return, whatever
    the callback has done to the buffer; they do not use room or data the
    callback has provided. *)
Theorem count_to_callback_single_pass {T E : Type} (T_zero : T)
    (IndexT : index_type) (BufferSize : Z) (rb : Ringbuffer) (buf : list T)
    (count count_to_callback : Z) (callback : notifier E) (env : E) :
  valid_config IndexT BufferSize = true ->
  wf IndexT BufferSize rb ->
  Size IndexT rb <= Capacity BufferSize ->
  0 <= count < 2 ^ size_t_bits ->
  count <= Z.of_nat (length buf) ->
  0 < count_to_callback ->
  (count_to_callback
   <= Z.min count (utility_WriteAvailable IndexT BufferSize rb) ->
   exists rb1,
     utility_WriteBuff IndexT BufferSize rb buf count
     = Ok (rb1, Z.min count (utility_WriteAvailable IndexT BufferSize rb), tt)
     /\
     utility_WriteBuff_callback IndexT BufferSize rb buf count
       count_to_callback (Some callback) env
     = Ok (fst (callback (rb1, env)),
           Z.min count (utility_WriteAvailable IndexT BufferSize rb),
           snd (callback (rb1, env)))) /\
  (count_to_callback <= Z.min count (utility_ReadAvailable IndexT rb) ->
   exists rb1 buf1,
     utility_ReadBuff IndexT BufferSize rb buf count
     = Ok (rb1, buf1, Z.min count (utility_ReadAvailable IndexT rb), tt) /\
     utility_ReadBuff_callback IndexT BufferSize rb buf count
       count_to_callback (Some callback) env
     = Ok (fst (callback (rb1, env)), buf1,
           Z.min count (utility_ReadAvailable IndexT rb),
           snd (callback (rb1, env)))).
Proof.
  intros Hcfg Hwf Hsz Hc Hbuf Hpos.
  destruct (Repr_of_wf T_zero _ _ Hcfg rb Hwf Hsz) as (hist & P & HR).
  split; intros Hreach.
  - change (utility_WriteAvailable IndexT BufferSize rb)
      with (Available IndexT BufferSize rb) in *.
    pose proof (Repr_Available _ _ Hcfg _ _ _ HR) as Hav.
    destruct (PushBatch_spec _ _ Hcfg rb hist P buf count HR Hc Hbuf)
      as (rb1 & Hp & _).
    rewrite <- Hav in Hp.
    set (k := Z.min count (Available IndexT BufferSize rb)) in *.
    exists rb1. split.
    { unfold utility_WriteBuff, utility_WriteBuffImpl.
      rewrite PushBatch_loop_legacy.
      unfold PushBatch, PushBatchCore in Hp. by rewrite Hp. }
    unfold PushBatch, PushBatchCore in Hp.
    unfold utility_WriteBuff_callback, utility_WriteBuffImpl.
    destruct (Z.to_nat count) as [|fuel] eqn:Hf; [lia|].
    rewrite PushBatch_loop_step in Hp. rewrite utility_WriteBuffImpl_loop_step.
    destruct (Z.ltb_spec 0 count); [|lia].
    destruct (PushBatch_iteration _ _ _ _ _ _ _) as [| |[[rb2 w1] h1]] eqn:Hit.
    + injection Hp as _ Hk. lia.
    + done.
    + destruct (PushBatch_iteration_progress _ _ _ _ _ _ _ _ _ _ Hit)
        as (Hw1 & Hw1'); [lia | lia |].
      assert (Hk : w1 = k) by (unfold k, Available; lia).
      clear Hw1'. subst w1.
      destruct (PushBatch_loop_stationary _ _ fuel rb2 buf count k h1 rb1
                  (Some callback) count_to_callback env Hp)
        as (-> & _); [lia | lia |].
      destruct (callback (rb2, env)) as [rb3 env3]. simpl.
      destruct (Z.eqb_spec count_to_callback 0); [lia|].
      destruct (Z.leb_spec count_to_callback k); [done | lia].
  - change (utility_ReadAvailable IndexT rb) with (Size IndexT rb) in *.
    pose proof (Repr_Size _ _ Hcfg _ _ _ HR) as Hav.
    destruct (PopBatch_spec _ _ Hcfg rb hist P buf count HR Hc Hbuf)
      as (rb1 & buf1 & Hp & _).
    rewrite <- Hav in Hp.
    set (k := Z.min count (Size IndexT rb)) in *.
    exists rb1, buf1. split.
    { unfold utility_ReadBuff, utility_ReadBuffImpl.
      rewrite PopBatch_loop_legacy.
      unfold PopBatch, PopBatchCore in Hp. by rewrite Hp. }
    unfold PopBatch, PopBatchCore in Hp.
    unfold utility_ReadBuff_callback, utility_ReadBuffImpl.
    destruct (Z.to_nat count) as [|fuel] eqn:Hf; [lia|].
    rewrite PopBatch_loop_step in Hp. rewrite utility_ReadBuffImpl_loop_step.
    destruct (Z.ltb_spec 0 count); [|lia].
    destruct (PopBatch_iteration _ _ _ _ _ _ _)
      as [| |[[[rb2 b2] r1] t1]] eqn:Hit.
    + injection Hp as _ _ Hk. lia.
    + done.
    + destruct (PopBatch_iteration_progress _ _ _ _ _ _ _ _ _ _ _ Hit)
        as (Hr1 & Hr1'); [lia | lia |].
      assert (Hk : r1 = k) by (unfold k, Size; lia).
      clear Hr1'. subst r1.
      destruct (PopBatch_loop_stationary _ _ fuel rb2 b2 count k t1 rb1 buf1
                  (Some callback) count_to_callback env Hp)
        as (-> & -> & _); [lia | lia |].
      destruct (callback (rb2, env)) as [rb3 env3]. simpl.
      destruct (Z.eqb_spec count_to_callback 0); [lia|].
      destruct (Z.leb_spec count_to_callback k); [done | lia].
Qed.

Lemma count_to_callback_single_pass_witness :
  valid_config uint8_t 4 = true /\
  wf uint8_t 4 rb_u8 /\
  Size uint8_t rb_u8 <= Capacity 4 /\
  0 <= 10 < 2 ^ size_t_bits /\
  10 <= Z.of_nat (length (seqZ 0 10)) /\
  0 < 1 /\
  1 <= Z.min 10 (utility_WriteAvailable uint8_t 4 rb_u8) /\
  (exists rb',
     utility_WriteBuff_callback uint8_t 4 rb_u8 (seqZ 0 10) 10 1
       (Some (drain 0 uint8_t 4)) []
     = Ok (rb', 4, [0; 1; 2; 3])) /\
  (exists rb',
     utility_WriteBuff_callback uint8_t 4 rb_u8 (seqZ 0 10) 10 0
       (Some (drain 0 uint8_t 4)) []
     = Ok (rb', 10, seqZ 0 10)).
Proof.
  assert (H1 : valid_config uint8_t 4 = true) by reflexivity.
  assert (H2 : wf uint8_t 4 rb_u8)
    by (unfold wf; vm_compute; intuition congruence).
  assert (H3 : Size uint8_t rb_u8 <= Capacity 4) by (vm_compute; congruence).
  assert (H4 : 0 <= 10 < 2 ^ size_t_bits) by (unfold size_t_bits; lia).
  assert (H5 : 10 <= Z.of_nat (length (seqZ 0 10)))
    by (vm_compute; congruence).
  assert (H6 : 0 < 1) by lia.
  assert (H7 : 1 <= Z.min 10 (utility_WriteAvailable uint8_t 4 rb_u8))
    by (vm_compute; congruence).
  repeat (split; [assumption|]).
  split.
  - destruct (proj1 (count_to_callback_single_pass 0 uint8_t 4 rb_u8
                       (seqZ 0 10) 10 1 (drain 0 uint8_t 4) []
                       H1 H2 H3 H4 H5 H6) H7) as (rb1 & Hw & Hc).
    vm_compute in Hw. injection Hw as <-.
    eexists. exact Hc.
  - eexists. vm_compute. reflexivity.
Defined.

(** ** A batch push whose callback lets the consumer run *)

Section Draining.
Context {T : Type}.
Variable T_zero : T.
Variable IndexT : index_type.
Variable BufferSize : Z.
Hypothesis Hcfg : valid_config IndexT BufferSize = true.

Local Abbreviation Rd := (Repr (T:=T) IndexT BufferSize).
Implicit Types (rb : Ringbuffer (T:=T)) (hist buf got : list T).

(** One pass of the loop on a represented state that is not full. *)
Lemma PushBatch_iteration_spec rb hist P buf count written :
  Rd rb hist P ->
  0 <= written < count -> count <= Z.of_nat (length buf) ->
  count < 2 ^ size_t_bits ->
  Z.of_nat (length hist) - P < BufferSize ->
  let w := Z.min (count - written)
                 (BufferSize - (Z.of_nat (length hist) - P)) in
  exists rb1 h1,
    PushBatch_iteration IndexT BufferSize rb buf count written (head_ rb)
    = Continue (rb1, written + w, h1) /\
    Rd rb1 (hist ++ take (Z.to_nat w) (drop (Z.to_nat written) buf)) P.
Proof using Hcfg.
  intros HR Hw Hbuf Hc Hroom w.
  pose proof (Repr_Available _ _ Hcfg _ _ _ HR) as Hav.
  unfold Available in Hav.
  destruct (PushBatch_loop_spec _ _ Hcfg (S (Z.to_nat (count - written)))
              rb hist P buf count written HR) as (rb' & Hrun & HR');
    [lia | lia | lia | lia |].
  fold w in Hrun, HR'.
  rewrite PushBatch_loop_step in Hrun.
  destruct (Z.ltb_spec written count); [|lia].
  destruct (PushBatch_iteration _ _ _ _ _ _ _) as [| |[[rb1 w1] h1]] eqn:Hit.
  - injection Hrun as _ Hk. unfold w in Hk. lia.
  - done.
  - destruct (PushBatch_iteration_progress _ _ _ _ _ _ _ _ _ _ Hit)
      as (Hw1 & Hw1'); [lia | lia |].
    rewrite Hav in Hw1'.
    assert (Hk : w1 = written + w) by (unfold w; lia).
    clear Hw1'. subst w1.
    destruct (PushBatch_loop_stationary _ _ _ rb1 buf count (written + w) h1
                rb' (@None (notifier unit)) 0 tt Hrun)
      as (-> & _); [lia | lia |].
    by exists rb1, h1.
Qed.

Lemma PushBatch_iteration_head rb buf count written h rb1 w1 h1 :
  PushBatch_iteration IndexT BufferSize rb buf count written h
  = Continue (rb1, w1, h1) ->
  head_ rb1 = h1.
Proof.
  unfold PushBatch_iteration. intros Hit.
  destruct (_ =? 0); [done|].
  destruct (memcpy _ _ _ _ _); [|done].
  destruct (if _ <? _ then _ else _); [|done].
  by injection Hit as <- <- <-.
Qed.

(** The callback empties the buffer and leaves [head_] alone. *)
Lemma drain_spec rb hist P got :
  Rd rb hist P ->
  exists rb',
    drain T_zero IndexT BufferSize (rb, got)
    = (rb', got ++ drop (Z.to_nat P) hist) /\
    Rd rb' hist (Z.of_nat (length hist)) /\
    head_ rb' = head_ rb.
Proof using Hcfg.
  intros HR. pose proof HR as (_ & Hb & _ & Hh & _).
  unfold drain. rewrite (Repr_Size _ _ Hcfg _ _ _ HR).
  destruct (pops_Repr T_zero _ _ Hcfg
              (Z.to_nat (Z.of_nat (length hist) - P)) rb hist P HR)
    as (rb' & -> & HR').
  replace (P + Z.min (Z.of_nat (Z.to_nat (Z.of_nat (length hist) - P)))
                 (Z.of_nat (length hist) - P))
    with (Z.of_nat (length hist)) in HR' by lia.
  exists rb'. split; [|split; [done|]].
  - f_equal. f_equal. apply take_ge. rewrite length_drop. lia.
  - destruct HR' as (_ & _ & _ & Hh' & _). congruence.
Qed.

Lemma PushBatch_drain_loop fuel : forall rb hist P buf count written got,
  Rd rb hist P ->
  Z.of_nat (length hist) - P < BufferSize ->
  0 <= written < count -> count <= Z.of_nat (length buf) ->
  count < 2 ^ size_t_bits ->
  (Z.to_nat (count - written) <= fuel)%nat ->
  exists rb' hist',
    PushBatch_notify_loop IndexT BufferSize fuel rb buf count written
      (head_ rb) (drain T_zero IndexT BufferSize) got
    = Ok (rb', count,
          got ++ drop (Z.to_nat P) hist
              ++ take (Z.to_nat (count - written))
                   (drop (Z.to_nat written) buf)) /\
    Rd rb' hist' (Z.of_nat (length hist')).
Proof using Hcfg.
  induction fuel as [|fuel IH];
    intros rb hist P buf count written got HR Hroom Hw Hbuf Hc Hfuel; [lia|].
  pose proof HR as (_ & Hb & _).
  rewrite PushBatch_notify_loop_legacy, utility_WriteBuffImpl_loop_step.
  destruct (Z.ltb_spec written count); [|lia].
  destruct (PushBatch_iteration_spec rb hist P buf count written
              HR Hw Hbuf Hc Hroom) as (rb1 & h1 & Hit & HR1).
  set (w := Z.min (count - written)
                  (BufferSize - (Z.of_nat (length hist) - P))) in *.
  set (xs := take (Z.to_nat w) (drop (Z.to_nat written) buf)) in *.
  rewrite Hit. pose proof (PushBatch_iteration_head _ _ _ _ _ _ _ _ Hit) as Hh1.
  destruct (drain_spec rb1 (hist ++ xs) P got HR1)
    as (rb2 & -> & HR2 & Hh2).
  cbn [negb andb Z.eqb]. rewrite <- PushBatch_notify_loop_legacy.
  rewrite drop_app_le by lia.
  destruct (Z.eq_dec (written + w) count) as [He|Hne].
  - exists rb2, (hist ++ xs). split; [|done].
    rewrite He.
    assert (Hend : forall f h e,
              PushBatch_notify_loop IndexT BufferSize f rb2 buf count count h
                (drain T_zero IndexT BufferSize) e = Ok (rb2, count, e)).
    { intros f h e. destruct f; cbn [PushBatch_notify_loop];
        by rewrite Z.ltb_irrefl. }
    rewrite Hend. unfold xs. by replace w with (count - written) by lia.
  - rewrite <- Hh1, <- Hh2.
    destruct (IH rb2 (hist ++ xs) (Z.of_nat (length (hist ++ xs))) buf count
                (written + w) (got ++ drop (Z.to_nat P) hist ++ xs) HR2)
      as (rb' & hist' & Hrun & HR'); try lia.
    exists rb', hist'. split; [|done].
    rewrite Hrun. f_equal. f_equal.
    rewrite Nat2Z.id, drop_all. cbn [app].
    rewrite <- !app_assoc. f_equal. f_equal.
    unfold xs.
    replace (Z.to_nat (written + w)) with (Z.to_nat written + Z.to_nat w)%nat
      by lia.
    rewrite <- drop_drop.
    replace (Z.to_nat (count - written))
      with (Z.to_nat w + Z.to_nat (count - (written + w)))%nat by lia.
    by rewrite take_take_drop.
Qed.

End Draining.

(** X19: a batch push whose callback lets the consumer empty the buffer
    ([while (rb.Pop(v)) ...]) is not limited by the capacity: from a state
    within the capacity that is not full it accepts all [n] elements, for
    every [n > 0], and the consumer receives the elements that were in the
    buffer followed by [src[0..n)], in order; the buffer is empty
    afterwards.  From a full buffer, and for [n = 0], the call returns 0 at
    once, the callback does not run and the buffer is unchanged. *)
Theorem PushBatch_with_draining_callback {T : Type} (T_zero : T)
    (IndexT : index_type) (BufferSize : Z) (rb : Ringbuffer) (src : list T)
    (n : Z) (got : list T) :
  valid_config IndexT BufferSize = true ->
  wf IndexT BufferSize rb ->
  Size IndexT rb <= Capacity BufferSize ->
  0 <= n < 2 ^ size_t_bits ->
  n <= Z.of_nat (length src) ->
  (IsFull IndexT BufferSize rb = true \/ n = 0 ->
   PushBatch_notify IndexT BufferSize rb src n
     (drain T_zero IndexT BufferSize) got
   = Ok (rb, 0, got)) /\
  (IsFull IndexT BufferSize rb = false -> 0 < n ->
   exists rb',
     PushBatch_notify IndexT BufferSize rb src n
       (drain T_zero IndexT BufferSize) got
     = Ok (rb', n,
           got ++ elements T_zero IndexT BufferSize rb
               ++ take (Z.to_nat n) src) /\
     IsEmpty IndexT rb' = true).
Proof.
  intros Hcfg Hwf Hsz Hn Hsrc.
  destruct (Repr_of_wf T_zero _ _ Hcfg rb Hwf Hsz) as (hist & P & HR).
  unfold IsFull, IsEmpty.
  pose proof (Repr_Available _ _ Hcfg _ _ _ HR) as Hav.
  split.
  - intros Hor.
    unfold PushBatch_notify, PushBatchCore_notify.
    destruct (Z.to_nat n) as [|fuel] eqn:Hf.
    + assert (n = 0) by lia. subst n. done.
    + destruct Hor as [Hfull|Hzero]; [|lia]. apply Z.eqb_eq in Hfull.
      rewrite PushBatch_notify_loop_legacy, utility_WriteBuffImpl_loop_step.
      destruct (Z.ltb_spec 0 n); [|done].
      unfold PushBatch_iteration. unfold Available in Hfull.
      rewrite Hfull. done.
  - intros Hroom Hpos. apply Z.eqb_neq in Hroom.
    pose proof HR as (_ & Hb & Hle & _).
    destruct (PushBatch_drain_loop T_zero _ _ Hcfg (Z.to_nat n) rb hist P src
                n 0 got HR) as (rb' & hist' & Hrun & HR'); try lia.
    exists rb'. split.
    + unfold PushBatch_notify, PushBatchCore_notify. rewrite Hrun.
      rewrite (elements_Repr T_zero _ _ Hcfg _ _ _ HR).
      by rewrite Z.sub_0_r.
    + rewrite (Repr_Size _ _ Hcfg _ _ _ HR'). apply Z.eqb_eq. lia.
Qed.

Lemma PushBatch_with_draining_callback_witness :
  valid_config uint8_t 4 = true /\
  wf uint8_t 4 rb_255 /\
  Size uint8_t rb_255 <= Capacity 4 /\
  0 <= 10 < 2 ^ size_t_bits /\
  10 <= Z.of_nat (length (seqZ 100 10)) /\
  IsFull uint8_t 4 rb_255 = false /\
  0 < 10 /\
  exists rb',
    PushBatch_notify uint8_t 4 rb_255 (seqZ 100 10) 10 (drain 0 uint8_t 4) []
    = Ok (rb', 10, seqZ 100 10) /\
    IsEmpty uint8_t rb' = true.
Proof.
  assert (H1 : valid_config uint8_t 4 = true) by reflexivity.
  assert (H2 : wf uint8_t 4 rb_255)
    by (unfold wf; vm_compute; intuition congruence).
  assert (H3 : Size uint8_t rb_255 <= Capacity 4) by (vm_compute; congruence).
  assert (H4 : 0 <= 10 < 2 ^ size_t_bits) by (unfold size_t_bits; lia).
  assert (H5 : 10 <= Z.of_nat (length (seqZ 100 10)))
    by (vm_compute; congruence).
  assert (H6 : IsFull uint8_t 4 rb_255 = false) by reflexivity.
  assert (H7 : 0 < 10) by lia.
  repeat (split; [assumption|]).
  exact (proj2 (PushBatch_with_draining_callback 0 uint8_t 4 rb_255
                  (seqZ 100 10) 10 [] H1 H2 H3 H4 H5) H6 H7).
Defined.

(** ** The batch calls on an arbitrary state *)

Section AnyState.
Context {T : Type}.
Variable IndexT : index_type.
Variable BufferSize : Z.
Implicit Types (rb : Ringbuffer (T:=T)) (buf : list T).

Lemma PushBatch_loop_le fuel : forall rb buf count written h rb' w,
  PushBatch_loop IndexT BufferSize fuel rb buf count written h = Ok (rb', w) ->
  0 <= written <= count -> count < 2 ^ size_t_bits ->
  w <= count.
Proof.
  induction fuel as [|fuel IH]; intros rb buf count written h rb' w Hrun Hw Hc.
  - cbn [PushBatch_loop] in Hrun.
    destruct (written <? count); [done|]. injection Hrun as _ <-. lia.
  - rewrite PushBatch_loop_step in Hrun.
    destruct (Z.ltb_spec written count); [|injection Hrun as _ <-; lia].
    destruct (PushBatch_iteration _ _ _ _ _ _ _) as [| |[[rb1 w1] h1]] eqn:Hit;
      [injection Hrun as _ <-; lia | done |].
    destruct (PushBatch_iteration_progress _ _ _ _ _ _ _ _ _ _ Hit) as (? & _);
      [lia | done |].
    apply IH in Hrun; lia.
Qed.

Lemma PopBatch_loop_le fuel : forall rb buf count read t rb' buf' r,
  PopBatch_loop IndexT BufferSize fuel rb buf count read t
  = Ok (rb', buf', r) ->
  0 <= read <= count -> count < 2 ^ size_t_bits ->
  r <= count.
Proof.
  induction fuel as [|fuel IH];
    intros rb buf count read t rb' buf' r Hrun Hw Hc.
  - cbn [PopBatch_loop] in Hrun.
    destruct (read <? count); [done|]. injection Hrun as _ _ <-. lia.
  - rewrite PopBatch_loop_step in Hrun.
    destruct (Z.ltb_spec read count); [|injection Hrun as _ _ <-; lia].
    destruct (PopBatch_iteration _ _ _ _ _ _ _)
      as [| |[[[rb1 b1] r1] t1]] eqn:Hit;
      [injection Hrun as _ _ <-; lia | done |].
    destruct (PopBatch_iteration_progress _ _ _ _ _ _ _ _ _ _ _ Hit)
      as (? & _); [lia | done |].
    apply IH in Hrun; lia.
Qed.

(** In every state, also one outside the capacity, the batch calls end, and
    unless a copy leaves an array the count they return is within
    [[0, n]] and is zero, for [n > 0], exactly when [IsFull()],
    respectively [IsEmpty()], holds. *)
Lemma batch_counts_in_every_state rb buf n :
  0 <= n < 2 ^ size_t_bits ->
  match PushBatch IndexT BufferSize rb buf n with
  | OutOfFuel => False
  | UB => True
  | Ok (_, k) =>
      0 <= k <= n /\ (0 < n -> (k = 0 <-> IsFull IndexT BufferSize rb = true))
  end /\
  match PopBatch IndexT BufferSize rb buf n with
  | OutOfFuel => False
  | UB => True
  | Ok (_, _, k) =>
      0 <= k <= n /\ (0 < n -> (k = 0 <-> IsEmpty IndexT rb = true))
  end.
Proof.
  intros Hn. split.
  - pose proof (PushBatch_finishes IndexT BufferSize rb buf n Hn) as Hfin.
    destruct (PushBatch _ _ _ _ _) as [[rb' k]| |] eqn:Hrun; [|done|done].
    unfold PushBatch, PushBatchCore in Hrun.
    pose proof (PushBatch_loop_ge _ _ _ _ _ _ _ _ _ _ Hrun ltac:(lia)
                  ltac:(lia)) as Hge.
    pose proof (PushBatch_loop_le _ _ _ _ _ _ _ _ Hrun ltac:(lia)
                  ltac:(lia)) as Hle.
    split; [lia|]. intros Hpos.
    destruct (Z.to_nat n) as [|fuel] eqn:Hf; [lia|].
    rewrite PushBatch_loop_step in Hrun.
    destruct (Z.ltb_spec 0 n); [|lia].
    unfold IsFull, Available.
    destruct (PushBatch_iteration _ _ _ _ _ _ _) as [| |[[rb1 w1] h1]] eqn:Hit.
    + injection Hrun as _ <-. unfold PushBatch_iteration in Hit.
      destruct (_ =? 0); [done|].
      destruct (memcpy _ _ _ _ _); [|done].
      by destruct (if _ <? _ then _ else _).
    + done.
    + destruct (PushBatch_iteration_progress _ _ _ _ _ _ _ _ _ _ Hit)
        as (Hw1 & _); [lia | lia |].
      apply PushBatch_loop_ge in Hrun; [|lia|lia].
      unfold PushBatch_iteration in Hit.
      destruct (_ =? 0); [done|]. split; [lia | done].
  - pose proof (PopBatch_finishes IndexT BufferSize rb buf n Hn) as Hfin.
    destruct (PopBatch _ _ _ _ _) as [[[rb' buf'] k]| |] eqn:Hrun;
      [|done|done].
    unfold PopBatch, PopBatchCore in Hrun.
    pose proof (PopBatch_loop_ge _ _ _ _ _ _ _ _ _ _ _ Hrun ltac:(lia)
                  ltac:(lia)) as Hge.
    pose proof (PopBatch_loop_le _ _ _ _ _ _ _ _ _ Hrun ltac:(lia)
                  ltac:(lia)) as Hle.
    split; [lia|]. intros Hpos.
    destruct (Z.to_nat n) as [|fuel] eqn:Hf; [lia|].
    rewrite PopBatch_loop_step in Hrun.
    destruct (Z.ltb_spec 0 n); [|lia].
    unfold IsEmpty, Size.
    destruct (PopBatch_iteration _ _ _ _ _ _ _)
      as [| |[[[rb1 b1] r1] t1]] eqn:Hit.
    + injection Hrun as _ _ <-. unfold PopBatch_iteration in Hit.
      destruct (_ =? 0); [done|].
      destruct (memcpy _ _ _ _ _); [|done].
      by destruct (if _ <? _ then _ else _).
    + done.
    + destruct (PopBatch_iteration_progress _ _ _ _ _ _ _ _ _ _ _ Hit)
        as (Hr1 & _); [lia | lia |].
      apply PopBatch_loop_ge in Hrun; [|lia|lia].
      unfold PopBatch_iteration in Hit.
      destruct (_ =? 0); [done|]. split; [lia | done].
Qed.

End AnyState.
